(** * SpatialHash: a shallow embedding of [SpatialHash.h]

    The header defines a fixed-capacity spatial hash table
    ([shash::SpatialHash]) parameterised by a hashing strategy, an
    index-reduction strategy and a probe budget [REHASH_ROUNDS].

    Conventions of the embedding:
    - [uint32_t], [uint64_t] and [unsigned int] values are integers of [Z]
      with the wrap-around written out ([wrap32], [wrap64]);
    - [int] values are integers of [Z]; signed overflow is undefined in the
      source.  The increments of the [for] loops of the box operations are
      checked ([for_int]: incrementing [INT_MAX] is undefined).  The
      arithmetic of the segment rasterisers is that of [Z], which is the
      source's wherever no [int] operation overflows;
      [segment_loop_cells_int] is the loop of [insert_at_segment] with every
      [int] operation checked, and the two are shown to agree where the
      spans of the segment are small enough for [2 * err] to be
      representable;
    - [real] (a [double]) is a primitive binary64 float;
    - a [HashBucket*] into [_hash_table] is the index of the bucket;
    - an operation returns an [outcome]: [Done] with its result,
      [Undefined] where the source has undefined behaviour (an index past the
      end of the table, a float that does not convert to [int], the
      increment of [INT_MAX]), or
      [OutOfFuel] when a [while (true)] loop did not leave within the given
      number of iterations. *)

From Stdlib Require Import ZArith Lia.
From Stdlib Require Import Floats.PrimFloat Floats.SpecFloat Floats.FloatOps.
From stdpp Require Import list numbers.

Local Open Scope Z_scope.

(** ** Machine words *)

Definition wrap32 (z : Z) : Z := z mod 2 ^ 32.
Definition wrap64 (z : Z) : Z := z mod 2 ^ 64.

(** [uint32_t buf[4]]: the key that [get_bucket] hashes. *)
Record Buf := mkBuf { buf0 : Z; buf1 : Z; buf2 : Z; buf3 : Z }.

Definition words (b : Buf) : list Z := [buf0 b; buf1 b; buf2 b; buf3 b].

(** ** Hashing strategies (namespace [shash::hashing]) *)

Module hashing.

Module Murmur.
Definition SEED : Z := 15953071.

Definition rotl32 (x r : Z) : Z :=
  Z.lor (wrap32 (Z.shiftl x r)) (Z.shiftr x (32 - r)).

Definition fmix (h : Z) : Z :=
  let h := Z.lxor h (Z.shiftr h 16) in
  let h := wrap32 (h * 0x85ebca6b) in
  let h := Z.lxor h (Z.shiftr h 13) in
  let h := wrap32 (h * 0xc2b2ae35) in
  let h := Z.lxor h (Z.shiftr h 16) in
  h.

(** One iteration of the [for] loop over the four words of the key. *)
Definition round (h1 bi : Z) : Z :=
  let k1 := wrap32 bi in
  let k1 := wrap32 (k1 * 0xcc9e2d51) in
  let k1 := rotl32 k1 15 in
  let k1 := wrap32 (k1 * 0x1b873593) in
  let h1 := Z.lxor h1 k1 in
  let h1 := rotl32 h1 13 in
  wrap32 (h1 * 5 + 0xe6546b64).

Definition hash (buf : Buf) : Z :=
  let length := 4 in
  let h1 := fold_left round (words buf) SEED in
  let h1 := Z.lxor h1 (wrap32 (length * 4)) in
  fmix h1.
End Murmur.

Module xxHash.
Definition PRIME32_1 : Z := 2654435761.
Definition PRIME32_2 : Z := 2246822519.
Definition PRIME32_3 : Z := 3266489917.
Definition PRIME32_4 : Z := 668265263.
Definition PRIME32_5 : Z := 374761393.
Definition SEED : Z := 15953071.

Definition rotate_left (value count : Z) : Z :=
  Z.lor (wrap32 (Z.shiftl value count)) (Z.shiftr value (32 - count)).

Definition sub_hash (value read_value : Z) : Z :=
  let value := wrap32 (value + wrap32 (read_value * PRIME32_2)) in
  let value := rotate_left value 13 in
  wrap32 (value * PRIME32_1).

(** [len] is the constant 4: the [do ... while (index <= limit)] body runs
    once (it leaves with [index = 4 > limit = 0]) and the trailing
    [while (index < len)] loop does not run. *)
Definition hash (buf : Buf) : Z :=
  let len := 4 in
  let v1 := wrap32 (SEED + PRIME32_1 + PRIME32_2) in
  let v2 := wrap32 (SEED + PRIME32_2) in
  let v3 := wrap32 (SEED + 0) in
  let v4 := wrap32 (SEED - PRIME32_1) in
  let v1 := sub_hash v1 (wrap32 (buf0 buf)) in
  let v2 := sub_hash v2 (wrap32 (buf1 buf)) in
  let v3 := sub_hash v3 (wrap32 (buf2 buf)) in
  let v4 := sub_hash v4 (wrap32 (buf3 buf)) in
  let h32 := wrap32 (rotate_left v1 1 + rotate_left v2 7
                     + rotate_left v3 12 + rotate_left v4 18) in
  let h32 := wrap32 (h32 + len * 4) in
  let h32 := Z.lxor h32 (Z.shiftr h32 15) in
  let h32 := wrap32 (h32 * PRIME32_2) in
  let h32 := Z.lxor h32 (Z.shiftr h32 13) in
  let h32 := wrap32 (h32 * PRIME32_3) in
  let h32 := Z.lxor h32 (Z.shiftr h32 16) in
  h32.
End xxHash.

Module Custom.
Definition hash (buf : Buf) : Z :=
  let _p1 := 15953071 in
  let _p2 := 37953119 in
  let _p3 := 73856093 in
  let _p4 := 93856897 in
  Z.lxor (Z.lxor (Z.lxor (wrap32 (_p1 * wrap32 (buf0 buf)))
                         (wrap32 (_p2 * wrap32 (buf1 buf))))
                 (wrap32 (_p3 * wrap32 (buf2 buf))))
         (wrap32 (_p4 * wrap32 (buf3 buf))).
End Custom.

Module Knuth.
(** The four 32-bit words are read as two 64-bit words (little-endian
    layout); the 64-bit result is truncated to [HashValue] on return. *)
Definition hash (buf : Buf) : Z :=
  let b_0 := wrap32 (buf0 buf) + 2 ^ 32 * wrap32 (buf1 buf) in
  let b_1 := wrap32 (buf2 buf) + 2 ^ 32 * wrap32 (buf3 buf) in
  wrap32 (Z.shiftr (wrap64 (Z.lxor b_0 b_1 * 2654435761)) 8).
End Knuth.

End hashing.

(** ** Reduction strategies (namespace [shash::reduction]) *)

Module reduction.

Module Mod.
Definition reduce (hash buckets : Z) : Z := hash mod buckets.
End Mod.

Module FastRange.
Definition reduce (hash buckets : Z) : Z :=
  wrap32 (Z.shiftr (wrap64 (hash * buckets)) 32).
End FastRange.

Module Identity.
Definition reduce (hash buckets : Z) : Z := hash.
End Identity.

End reduction.

(** The template parameters [HashFunction] and [ReduceFunction]: a type with
    a static [hash], respectively [reduce], member. *)
Class HashFunction := { hash : Buf → Z }.
Class ReduceFunction := { reduce : Z → Z → Z }.

Definition Murmur : HashFunction := {| hash := hashing.Murmur.hash |}.
Definition xxHash : HashFunction := {| hash := hashing.xxHash.hash |}.
Definition Custom : HashFunction := {| hash := hashing.Custom.hash |}.
Definition Knuth : HashFunction := {| hash := hashing.Knuth.hash |}.

Definition Mod : ReduceFunction := {| reduce := reduction.Mod.reduce |}.
Definition FastRange : ReduceFunction := {| reduce := reduction.FastRange.reduce |}.
Definition Identity : ReduceFunction := {| reduce := reduction.Identity.reduce |}.

(** ** Outcomes *)

Inductive outcome (A : Type) : Type :=
  | Done (a : A)
  | Undefined
  | OutOfFuel.
Arguments Done {A} a.
Arguments Undefined {A}.
Arguments OutOfFuel {A}.

Definition outcome_bind {A B} (f : A → outcome B) (m : outcome A) : outcome B :=
  match m with
  | Done a => f a
  | Undefined => Undefined
  | OutOfFuel => OutOfFuel
  end.

#[export] Instance outcome_mbind : MBind outcome := @outcome_bind.
#[export] Instance outcome_mret : MRet outcome := @Done.

(** The body of a [for] loop run on each element of a range, in order. *)
Fixpoint for_each {A S : Type} (body : A → S → outcome S) (l : list A) (s : S)
  : outcome S :=
  match l with
  | [] => Done s
  | a :: l' => s' ← body a s; for_each body l' s'
  end.

(** ** Reals *)

Abbreviation real := float.

Definition INT_MIN : Z := - 2 ^ 31.
Definition INT_MAX : Z := 2 ^ 31 - 1.

(** [std::floor] of a finite double, as the integer it denotes. *)
Definition floor (f : real) : option Z :=
  match Prim2SF f with
  | S754_zero _ => Some 0
  | S754_finite s m e =>
      let v := if s then Z.neg m else Z.pos m in
      Some (if 0 <=? e then Z.shiftl v e else Z.shiftr v (- e))
  | S754_infinity _ => None
  | S754_nan => None
  end.

(** The conversion of the floored value to [int]; undefined outside the
    range of [int] and for infinities and NaN. *)
Definition to_int (f : real) : outcome Z :=
  match floor f with
  | Some z => if (INT_MIN <=? z) && (z <=? INT_MAX) then Done z else Undefined
  | None => Undefined
  end.

(** [for (int i = first; i <= last; i++) body]: the body runs for
    [first], ..., [last]; the increment after an iteration at [INT_MAX]
    overflows, which is undefined. *)
Definition for_int {S : Type} (body : Z → S → outcome S) (first last : Z) (s : S)
  : outcome S :=
  s ← for_each body (seqZ first (last - first + 1)) s;
  if (first <=? last) && (last =? INT_MAX) then Undefined else Done s.

(** ** Buckets and the table *)

Module HashBucket.
Record t (Value : Type) : Type := mk {
  x : Z;
  y : Z;
  last_claimed : Z;
  data : list Value
}.
Arguments mk {Value} x y last_claimed data.
Arguments x {Value} _.
Arguments y {Value} _.
Arguments last_claimed {Value} _.
Arguments data {Value} _.

(** [HashBucket()]: value-initialisation zeroes [x] and [y], then the
    default member initialiser sets [last_claimed = -1]. *)
Definition default {Value : Type} : t Value := mk 0 0 (wrap32 (-1)) [].
End HashBucket.

Record SpatialHash (Value : Type) : Type := mkSpatialHash {
  _inv_cell_size : real;
  _table_size : Z;
  _current_round : Z;
  _hash_table : list (HashBucket.t Value)
}.
Arguments mkSpatialHash {Value} _ _ _ _.
Arguments _inv_cell_size {Value} _.
Arguments _table_size {Value} _.
Arguments _current_round {Value} _.
Arguments _hash_table {Value} _.

Definition set_hash_table {Value} (sh : SpatialHash Value)
    (t : list (HashBucket.t Value)) : SpatialHash Value :=
  mkSpatialHash (_inv_cell_size sh) (_table_size sh) (_current_round sh) t.

(** ** The operations of [SpatialHash] *)

Section SpatialHash.

Context {Value : Type}.
Context {HF : HashFunction} {RF : ReduceFunction}.
Variable REHASH_ROUNDS : nat.

Local Abbreviation Table := (SpatialHash Value).
Local Abbreviation Bucket := (HashBucket.t Value).

(** [SpatialHash()] *)
Definition make_default : Table :=
  mkSpatialHash (1 / 1)%float 1024 0
    (resize (Z.to_nat 1024) HashBucket.default []).

(** [SpatialHash(cell_size, table_size)] *)
Definition make (cell_size : real) (table_size : Z) : Table :=
  mkSpatialHash (1 / cell_size)%float table_size 0
    (resize (Z.to_nat table_size) HashBucket.default []).

Definition reset (sh : Table) (cell_size : real) (table_size : Z) : Table :=
  let inv := (1 / cell_size)%float in
  let round := wrap32 (_current_round sh + 1) in
  if negb (_table_size sh =? table_size) then
    mkSpatialHash inv table_size round
      (resize (Z.to_nat table_size) HashBucket.default (_hash_table sh))
  else
    mkSpatialHash inv (_table_size sh) round (_hash_table sh).

Definition cell (sh : Table) (coordinate : real) : outcome Z :=
  to_int (coordinate * _inv_cell_size sh)%float.

(** The [for] loop of [get_bucket], [n] iterations left. [bucket] is the
    local pointer (unset before the first iteration); [probes] is a ghost
    record of the indices computed so far, oldest first. *)
Fixpoint get_bucket_loop (n : nat) (sh : Table) (x y : Z) (buf : Buf)
    (bucket : option nat) (probes : list nat)
  : outcome (list nat * nat * Table) :=
  match n with
  | O =>
      match bucket with
      | Some i => Done (probes, i, sh)
      | None => Undefined
      end
  | S n' =>
      let buf := mkBuf (buf0 buf) (buf1 buf) (buf2 buf) (wrap32 (buf3 buf + 1)) in
      let index := Z.to_nat (reduce (hash buf) (_table_size sh)) in
      let probes := probes ++ [index] in
      match _hash_table sh !! index with
      | None => Undefined
      | Some b =>
          if negb (HashBucket.last_claimed b =? _current_round sh) then
            Done (probes, index,
                  set_hash_table sh
                    (<[index := HashBucket.mk x y (_current_round sh) []]>
                       (_hash_table sh)))
          else if (HashBucket.x b =? x) && (HashBucket.y b =? y) then
            Done (probes, index, sh)
          else
            get_bucket_loop n' sh x y buf (Some index) probes
      end
  end.

Definition get_bucket_probes (sh : Table) (x y salt : Z)
  : outcome (list nat * nat * Table) :=
  let buf := mkBuf (wrap32 x) (wrap32 y) (wrap32 salt) (_current_round sh) in
  get_bucket_loop (S REHASH_ROUNDS) sh x y buf None [].

Definition get_bucket (sh : Table) (x y salt : Z) : outcome (nat * Table) :=
  '(_, bucket, sh') ← get_bucket_probes sh x y salt;
  Done (bucket, sh').

(** The table after [bucket->data.push_back(value)], [b] being the bucket
    that [bucket] points to. *)
Definition push_back (sh : Table) (bucket : nat) (b : Bucket) (value : Value)
  : Table :=
  set_hash_table sh
    (<[bucket := HashBucket.mk (HashBucket.x b) (HashBucket.y b)
                   (HashBucket.last_claimed b)
                   (HashBucket.data b ++ [value])]> (_hash_table sh)).

Definition insert_at_cell (sh : Table) (x y : Z) (value : Value) (salt : Z)
  : outcome Table :=
  '(bucket, sh) ← get_bucket sh x y salt;
  match _hash_table sh !! bucket with
  | None => Undefined
  | Some b => Done (push_back sh bucket b value)
  end.

Definition insert_at_point (sh : Table) (x y : real) (value : Value)
    (salt : Z) : outcome Table :=
  cell_x ← cell sh x;
  cell_y ← cell sh y;
  insert_at_cell sh cell_x cell_y value salt.

Definition insert_at_aabb (sh : Table)
    (top_left_x top_left_y bottom_right_x bottom_right_y : real)
    (value : Value) (salt : Z) : outcome Table :=
  top_left_x_cell ← cell sh top_left_x;
  top_left_y_cell ← cell sh top_left_y;
  bottom_right_x_cell ← cell sh bottom_right_x;
  bottom_right_y_cell ← cell sh bottom_right_y;
  for_int
    (λ i, for_int (λ j sh, insert_at_cell sh i j value salt)
            top_left_y_cell bottom_right_y_cell)
    top_left_x_cell bottom_right_x_cell
    sh.

(** The [while (true)] loop of [insert_at_segment], in the arithmetic of
    [Z]. *)
Fixpoint insert_at_segment_loop (fuel : nat) (sh : Table)
    (x0 y0 x1 y1 dx dy sx sy err : Z) (value : Value) (salt : Z)
  : outcome Table :=
  match fuel with
  | O => OutOfFuel
  | S fuel' =>
      sh ← insert_at_cell sh x0 y0 value salt;
      if (x0 =? x1) && (y0 =? y1) then Done sh
      else
        let e2 := 2 * err in
        if e2 >? dy then
          insert_at_segment_loop fuel' sh (x0 + sx) y0 x1 y1 dx dy sx sy
            (err + dy) value salt
        else if e2 <? dx then
          insert_at_segment_loop fuel' sh x0 (y0 + sy) x1 y1 dx dy sx sy
            (err + dx) value salt
        else
          insert_at_segment_loop fuel' sh x0 y0 x1 y1 dx dy sx sy
            err value salt
  end.

Definition insert_at_segment (fuel : nat) (sh : Table)
    (start_x_coord start_y_coord end_x_coord end_y_coord : real)
    (value : Value) (salt : Z) : outcome Table :=
  x0 ← cell sh start_x_coord;
  y0 ← cell sh start_y_coord;
  x1 ← cell sh end_x_coord;
  y1 ← cell sh end_y_coord;
  let dx := Z.abs (x1 - x0) in
  let dy := - Z.abs (y1 - y0) in
  let sx := if x0 <? x1 then 1 else -1 in
  let sy := if y0 <? y1 then 1 else -1 in
  let err := dx + dy in
  insert_at_segment_loop fuel sh x0 y0 x1 y1 dx dy sx sy err value salt.

(** [result.insert(result.begin(), data.begin(), data.end())] puts the
    bucket's values in front of what [result] already holds. *)
Definition query_at_cell (sh : Table) (result : list Value) (x y salt : Z)
  : outcome (Table * list Value) :=
  '(bucket, sh) ← get_bucket sh x y salt;
  match _hash_table sh !! bucket with
  | None => Undefined
  | Some b => Done (sh, HashBucket.data b ++ result)
  end.

Definition query_at_point (sh : Table) (result : list Value) (x y : real)
    (salt : Z) : outcome (Table * list Value) :=
  cell_x ← cell sh x;
  cell_y ← cell sh y;
  query_at_cell sh result cell_x cell_y salt.

Definition query_at_aabb (sh : Table) (result : list Value)
    (top_left_x top_left_y bottom_right_x bottom_right_y : real)
    (salt : Z) : outcome (Table * list Value) :=
  top_left_x_cell ← cell sh top_left_x;
  top_left_y_cell ← cell sh top_left_y;
  bottom_right_x_cell ← cell sh bottom_right_x;
  bottom_right_y_cell ← cell sh bottom_right_y;
  for_int
    (λ i, for_int (λ j '(sh, result), query_at_cell sh result i j salt)
            top_left_y_cell bottom_right_y_cell)
    top_left_x_cell bottom_right_x_cell
    (sh, result).

(** The [while (true)] loop of [query_at_segment]. *)
Fixpoint query_at_segment_loop (fuel : nat) (sh : Table)
    (result : list Value) (x0 y0 x1 y1 dx dy sx sy err : Z) (salt : Z)
  : outcome (Table * list Value) :=
  match fuel with
  | O => OutOfFuel
  | S fuel' =>
      '(sh, result) ← query_at_cell sh result x0 y0 salt;
      if (x0 =? x1) && (y0 =? y1) then Done (sh, result)
      else
        let e2 := 2 * err in
        if e2 >? dy then
          query_at_segment_loop fuel' sh result (x0 + sx) y0 x1 y1 dx dy sx sy
            (err + dy) salt
        else if e2 <? dx then
          query_at_segment_loop fuel' sh result x0 (y0 + sy) x1 y1 dx dy sx sy
            (err + dx) salt
        else
          query_at_segment_loop fuel' sh result x0 y0 x1 y1 dx dy sx sy
            err salt
  end.

Definition query_at_segment (fuel : nat) (sh : Table) (result : list Value)
    (start_x_coord start_y_coord end_x_coord end_y_coord : real)
    (salt : Z) : outcome (Table * list Value) :=
  x0 ← cell sh start_x_coord;
  y0 ← cell sh start_y_coord;
  x1 ← cell sh end_x_coord;
  y1 ← cell sh end_y_coord;
  let dx := Z.abs (x1 - x0) in
  let dy := Z.abs (y1 - y0) in
  let sx := if x0 <? x1 then 1 else -1 in
  let sy := if y0 <? y1 then 1 else -1 in
  let err := dx + dy in
  query_at_segment_loop fuel sh result x0 y0 x1 y1 dx dy sx sy err salt.

End SpatialHash.

(** ** The cells of a segment *)

(** The [while (true)] loops of [insert_at_segment] and [query_at_segment]
    have the same body; this is the sequence of cells the body passes to
    [insert_at_cell], respectively [query_at_cell], within [fuel]
    iterations, and whether the loop left through its [break]. *)
Fixpoint segment_loop_cells (fuel : nat) (x0 y0 x1 y1 dx dy sx sy err : Z)
  : list (Z * Z) * bool :=
  match fuel with
  | O => ([], false)
  | S fuel' =>
      if (x0 =? x1) && (y0 =? y1) then ([(x0, y0)], true)
      else
        let e2 := 2 * err in
        let rest :=
          if e2 >? dy then
            segment_loop_cells fuel' (x0 + sx) y0 x1 y1 dx dy sx sy (err + dy)
          else if e2 <? dx then
            segment_loop_cells fuel' x0 (y0 + sy) x1 y1 dx dy sx sy (err + dx)
          else
            segment_loop_cells fuel' x0 y0 x1 y1 dx dy sx sy err in
        ((x0, y0) :: rest.1, rest.2)
  end.

(** The traversal of [insert_at_segment] between two cells:
    [dy = -std::abs(y1 - y0)]. *)
Definition insert_at_segment_cells (fuel : nat) (x0 y0 x1 y1 : Z)
  : list (Z * Z) * bool :=
  let dx := Z.abs (x1 - x0) in
  let dy := - Z.abs (y1 - y0) in
  let sx := if x0 <? x1 then 1 else -1 in
  let sy := if y0 <? y1 then 1 else -1 in
  let err := dx + dy in
  segment_loop_cells fuel x0 y0 x1 y1 dx dy sx sy err.

(** The traversal of [query_at_segment] between two cells:
    [dy = std::abs(y1 - y0)]. *)
Definition query_at_segment_cells (fuel : nat) (x0 y0 x1 y1 : Z)
  : list (Z * Z) * bool :=
  let dx := Z.abs (x1 - x0) in
  let dy := Z.abs (y1 - y0) in
  let sx := if x0 <? x1 then 1 else -1 in
  let sy := if y0 <? y1 then 1 else -1 in
  let err := dx + dy in
  segment_loop_cells fuel x0 y0 x1 y1 dx dy sx sy err.

(** The cell reached from [(x0, y0)] after [a'] steps along x and [b'] steps
    along y, at least [a] and [b] of them, on the way to
    [(x0 + D * sx, y0 + E * sy)]. *)
Definition on_path (x0 y0 D E sx sy a b : Z) (c : Z * Z) : Prop :=
  ∃ a' b', a ≤ a' ≤ D ∧ b ≤ b' ≤ E ∧ c = (x0 + a' * sx, y0 + b' * sy).

(** ** Specification vocabulary

    The words of the specification of [get_bucket]: the seed, key and index
    of probe [i], and what a probed bucket can be. *)

Section Vocabulary.

Context {Value : Type}.
Context {HF : HashFunction} {RF : ReduceFunction}.

Local Abbreviation Table := (SpatialHash Value).
Local Abbreviation Bucket := (HashBucket.t Value).

(** [base_seed + i], with [base_seed = current_generation + 1]. *)
Definition probe_seed (sh : Table) (i : nat) : Z :=
  wrap32 (_current_round sh + 1 + Z.of_nat i).

Definition probe_key (sh : Table) (x y salt : Z) (i : nat) : Buf :=
  mkBuf (wrap32 x) (wrap32 y) (wrap32 salt) (probe_seed sh i).

Definition probe_index (sh : Table) (x y salt : Z) (i : nat) : nat :=
  Z.to_nat (reduce (hash (probe_key sh x y salt i)) (_table_size sh)).

(** The bucket was claimed in the current generation. *)
Definition claimed (sh : Table) (b : Bucket) : bool :=
  HashBucket.last_claimed b =? _current_round sh.

Definition same_cell (x y : Z) (b : Bucket) : bool :=
  (HashBucket.x b =? x) && (HashBucket.y b =? y).

(** Claimed in the current generation by a cell with other coordinates. *)
Definition foreign (sh : Table) (x y : Z) (b : Bucket) : bool :=
  claimed sh b && negb (same_cell x y b).

(** The table after bucket [i] is claimed for cell [(x, y)]. *)
Definition claim (sh : Table) (i : nat) (x y : Z) : Table :=
  set_hash_table sh
    (<[i := HashBucket.mk x y (_current_round sh) []]> (_hash_table sh)).

(** The bucket array has [_table_size] buckets, a positive 32-bit count. *)
Definition wf (sh : Table) : Prop :=
  0 < _table_size sh < 2 ^ 32 ∧
  length (_hash_table sh) = Z.to_nat (_table_size sh).

(** The hash and reduction pipeline yields an index below the bucket count
    (true of [Mod] and [FastRange], not of [Identity]). *)
Definition index_in_range : Prop :=
  ∀ (b : Buf) (n : Z), 0 < n < 2 ^ 32 → 0 ≤ reduce (hash b) n < n.

(** Every probe of [(x, y, salt)] lands on a bucket claimed this
    generation by a cell with different coordinates. *)
Definition exhausted (REHASH_ROUNDS : nat) (sh : Table) (x y salt : Z) : Prop :=
  ∀ i, (i ≤ REHASH_ROUNDS)%nat →
    ∃ b, _hash_table sh !! probe_index sh x y salt i = Some b ∧
         foreign sh x y b = true.

(** [buf] as it is on entry to iteration [i] of the probe loop. *)
Definition key_before (sh : Table) (x y salt : Z) (i : nat) (buf : Buf) : Prop :=
  buf0 buf = wrap32 x ∧ buf1 buf = wrap32 y ∧ buf2 buf = wrap32 salt ∧
  wrap32 (buf3 buf + 1) = probe_seed sh i.

(** The bucket that [get_bucket] leaves at the returned index. *)
Definition resolved (sh : Table) (x y : Z) (b : Bucket) : Bucket :=
  if claimed sh b then b else HashBucket.mk x y (_current_round sh) [].

(** The output sequence of [s] ends with [result]. *)
Definition extends (result : list Value) (s : Table * list Value) : Prop :=
  ∃ matched, s.2 = matched ++ result.

(** Bucket [i] is claimed in generation [round]. *)
Definition claimed_at (round : Z) (i : nat) (s : Table * list Value) : Prop :=
  _current_round s.1 = round ∧
  ∃ b, _hash_table s.1 !! i = Some b ∧ claimed s.1 b = true.

(** The stamp of a bucket is the "never claimed" marker or a generation
    that has been current. *)
Definition stamp_ok (round : Z) (b : Bucket) : Prop :=
  HashBucket.last_claimed b = wrap32 (-1) ∨
  0 ≤ HashBucket.last_claimed b ≤ round.

(** The invariant of the generation stamps, before the generation counter
    is exhausted. *)
Definition generations_ok (sh : Table) : Prop :=
  0 ≤ _current_round sh ∧ Forall (stamp_ok (_current_round sh)) (_hash_table sh).

End Vocabulary.

(** ** The configuration of the test harness

    [shash::SpatialHash<Id, shash::hashing::Murmur,
    shash::reduction::FastRange, 10> spatial_hash(1.0, 1000)] with
    [Id = uint32_t], as in [test_insert_query_aabb] and
    [test_insert_query_segment]. *)

Section TestConfiguration.

#[local] Existing Instance Murmur.
#[local] Existing Instance FastRange.

Definition Id : Type := Z.

Definition spatial_hash : SpatialHash Id := make 1 1000.

(** The two insertions of [test_insert_query_aabb]. *)
Definition aabb_inserted : outcome (SpatialHash Id) :=
  let val1 := 1 in
  let val2 := 2 in
  sh ← insert_at_aabb 10 spatial_hash 0 0 20 20 val1 1;
  insert_at_aabb 10 sh 10 10 30 30 val2 1.

(** The queries of [test_insert_query_aabb], run one after the other on the
    same table; [result] is empty at each call ([result.clear()]).  The
    sizes that the test compares with 18, 2, 1 and 1. *)
Definition test_insert_query_aabb : outcome (list nat) :=
  sh ← aabb_inserted;
  '(sh, result) ← query_at_aabb 10 sh [] 18 18 20 20 1;
  let size1 := length result in
  '(sh, result) ← query_at_point 10 sh [] 20 20 1;
  let size2 := length result in
  '(sh, result) ← query_at_point 10 sh [] 1 1 1;
  let size3 := length result in
  '(sh, result) ← query_at_point 10 sh [] 25 25 1;
  let size4 := length result in
  Done [size1; size2; size3; size4].

(** The same queries, each on the table as the insertions left it. *)
Definition aabb_queries_apart : outcome (list nat) :=
  sh ← aabb_inserted;
  '(_, result1) ← query_at_aabb 10 sh [] 18 18 20 20 1;
  '(_, result2) ← query_at_point 10 sh [] 20 20 1;
  '(_, result3) ← query_at_point 10 sh [] 1 1 1;
  '(_, result4) ← query_at_point 10 sh [] 25 25 1;
  Done [length result1; length result2; length result3; length result4].

(** A table of two buckets, both claimed in the current generation. *)
Definition full_table : SpatialHash Id :=
  mkSpatialHash 1 2 0 [HashBucket.mk 5 5 0 [7]; HashBucket.mk 6 6 0 [8]].

(** A table with one cell populated in generation 0. *)
Definition populated_table : SpatialHash Id :=
  match insert_at_cell 10 (make 1 8) 3 4 7 0 with
  | Done sh => sh
  | _ => make 1 8
  end.

End TestConfiguration.

(** ** Tables within one generation *)

Section Evolution.

Context {Value : Type}.
Context {HF : HashFunction} {RF : ReduceFunction}.

Local Abbreviation Table := (SpatialHash Value).
Local Abbreviation Bucket := (HashBucket.t Value).

(** [b'] is [b] with values pushed at its back: same cell, same stamp. *)
Definition grows (b b' : Bucket) : Prop :=
  HashBucket.x b' = HashBucket.x b ∧
  HashBucket.y b' = HashBucket.y b ∧
  HashBucket.last_claimed b' = HashBucket.last_claimed b ∧
  ∃ more, HashBucket.data b' = HashBucket.data b ++ more.

(** [sh'] is a later table of the generation of [sh]: the scalar members are
    the same, and every bucket claimed in [sh] is still claimed by the same
    cell, with its values and possibly more behind them. *)
Definition evolves (sh sh' : Table) : Prop :=
  _current_round sh' = _current_round sh ∧
  _table_size sh' = _table_size sh ∧
  _inv_cell_size sh' = _inv_cell_size sh ∧
  length (_hash_table sh') = length (_hash_table sh) ∧
  ∀ i b, _hash_table sh !! i = Some b → claimed sh b = true →
    ∃ b', _hash_table sh' !! i = Some b' ∧ grows b b'.

(** The resolution of [(x, y, salt)] has been made and ended at bucket
    [i]: every earlier probe hits a foreign bucket, and bucket [i] is
    claimed in this generation, by the cell itself or, at the last probe of
    the budget, by another one. *)
Definition settled (REHASH_ROUNDS : nat) (sh : Table) (x y salt : Z) (i : nat)
  : Prop :=
  ∃ (k : nat) b,
    (k ≤ REHASH_ROUNDS)%nat ∧
    i = probe_index sh x y salt k ∧
    (∀ j, (j < k)%nat →
       ∃ bj, _hash_table sh !! probe_index sh x y salt j = Some bj ∧
             foreign sh x y bj = true) ∧
    _hash_table sh !! i = Some b ∧
    claimed sh b = true ∧
    (same_cell x y b = true ∨ k = REHASH_ROUNDS).

(** The buckets claimed in the current generation hold values of [P] only. *)
Definition current_only (P : Value → Prop) (sh : Table) : Prop :=
  ∀ i b, _hash_table sh !! i = Some b → claimed sh b = true →
    Forall P (HashBucket.data b).

(** [sh'] is a later table of the generation of [sh] in which every bucket
    claimed in [sh] is as it was: what the queries leave. *)
Definition keeps (sh sh' : Table) : Prop :=
  _current_round sh' = _current_round sh ∧
  _table_size sh' = _table_size sh ∧
  _inv_cell_size sh' = _inv_cell_size sh ∧
  length (_hash_table sh') = length (_hash_table sh) ∧
  ∀ i b, _hash_table sh !! i = Some b → claimed sh b = true →
    _hash_table sh' !! i = Some b.

End Evolution.

(** ** Paths of cells *)

(** [d] is next to [c] along one axis. *)
Definition adjacent (c d : Z * Z) : Prop :=
  Z.abs (d.1 - c.1) + Z.abs (d.2 - c.2) = 1.

Definition connected (cells : list (Z * Z)) : Prop :=
  ∀ (i : nat) c d, cells !! i = Some c → cells !! S i = Some d → adjacent c d.

(** Inside the box spanned by [(x0, y0)] and [(x1, y1)]. *)
Definition in_box (x0 y0 x1 y1 : Z) (c : Z * Z) : Prop :=
  Z.min x0 x1 ≤ c.1 ≤ Z.max x0 x1 ∧ Z.min y0 y1 ≤ c.2 ≤ Z.max y0 y1.

(** The cells of a box in the order in which the loops of [insert_at_aabb]
    and [query_at_aabb] visit them: column by column, each from its first
    row to its last. *)
Definition aabb_cells (x0 y0 x1 y1 : Z) : list (Z * Z) :=
  flat_map (λ i, map (pair i) (seqZ y0 (y1 - y0 + 1))) (seqZ x0 (x1 - x0 + 1)).

(** ** The tests on arbitrary data

    [SpatialHashTest::test_insert_query_point] and
    [SpatialHashTest::test_get_cell] of [test.cpp], on a table
    [shash::SpatialHash<Id, Murmur, FastRange, 5> spatial_hash(_cell_size, 42)].
    [_test_data] is drawn with [std::rand] in the source and is a parameter
    here, as are the bucket counts [(int)(_test_size / load)] of the load
    factors.  The coordinates are [float]s in the source and are converted
    to [double] at the calls, which changes no value.  The timing, the
    output and the collision rate that [test_insert_query_point] prints
    (floating-point arithmetic on the result sizes, which decides nothing)
    are left out. *)

Module Object.
Record t : Type := mk {
  x : real;
  y : real;
  category : Z;
  value : Id
}.
End Object.

Section Tests.

#[local] Existing Instance Murmur.
#[local] Existing Instance FastRange.

(** The first loop of both tests. *)
Definition insert_test_data (spatial_hash : SpatialHash Id)
    (_test_data : list Object.t) : outcome (SpatialHash Id) :=
  for_each
    (λ e sh, insert_at_point 5 sh (Object.x e) (Object.y e)
               (Object.value e) (Object.category e))
    _test_data spatial_hash.

(** The first loop as [test_get_cell] writes it. *)
Definition push_test_data (spatial_hash : SpatialHash Id)
    (_test_data : list Object.t) : outcome (SpatialHash Id) :=
  for_each
    (λ e sh,
       cell_x ← cell sh (Object.x e);
       cell_y ← cell sh (Object.y e);
       '(bucket, sh) ← get_bucket 5 sh cell_x cell_y (Object.category e);
       match _hash_table sh !! bucket with
       | None => Undefined
       | Some b => Done (push_back sh bucket b (Object.value e))
       end)
    _test_data spatial_hash.

(** The second loop of [test_insert_query_point]: [false] when the loop
    leaves through [return 0]. *)
Fixpoint query_test_data (spatial_hash : SpatialHash Id)
    (_test_data : list Object.t) : outcome (bool * SpatialHash Id) :=
  match _test_data with
  | [] => Done (true, spatial_hash)
  | e :: rest =>
      '(sh, result) ← query_at_point 5 spatial_hash []
                        (Object.x e) (Object.y e) (Object.category e);
      if negb (existsb (Z.eqb (Object.value e)) result)
      then Done (false, sh)
      else query_test_data sh rest
  end.

(** The second loop of [test_get_cell], with its counter [collisions]. *)
Fixpoint check_test_data (spatial_hash : SpatialHash Id) (collisions : Z)
    (_test_data : list Object.t) : outcome (bool * Z * SpatialHash Id) :=
  match _test_data with
  | [] => Done (true, collisions, spatial_hash)
  | e :: rest =>
      cell_x ← cell spatial_hash (Object.x e);
      cell_y ← cell spatial_hash (Object.y e);
      '(bucket, sh) ← get_bucket 5 spatial_hash cell_x cell_y (Object.category e);
      match _hash_table sh !! bucket with
      | None => Undefined
      | Some b =>
          let collisions :=
            if negb (HashBucket.x b =? cell_x) || negb (HashBucket.y b =? cell_y)
            then collisions + 1 else collisions in
          if negb (existsb (Z.eqb (Object.value e)) (HashBucket.data b))
          then Done (false, collisions, sh)
          else check_test_data sh collisions rest
      end
  end.

(** The loop over the load factors, one bucket count for each. *)
Fixpoint test_insert_query_point_loads (spatial_hash : SpatialHash Id)
    (_cell_size : real) (_test_data : list Object.t) (table_sizes : list Z)
  : outcome Z :=
  match table_sizes with
  | [] => Done 1
  | table_size :: rest =>
      let sh := reset spatial_hash _cell_size table_size in
      sh ← insert_test_data sh _test_data;
      '(found, sh) ← query_test_data sh _test_data;
      if (found : bool) then test_insert_query_point_loads sh _cell_size _test_data rest
      else Done 0
  end.

Definition test_insert_query_point (_cell_size : real)
    (_test_data : list Object.t) (table_sizes : list Z) : outcome Z :=
  test_insert_query_point_loads (make _cell_size 42) _cell_size _test_data
    table_sizes.

Fixpoint test_get_cell_loads (spatial_hash : SpatialHash Id)
    (_cell_size : real) (_test_data : list Object.t) (table_sizes : list Z)
  : outcome Z :=
  match table_sizes with
  | [] => Done 1
  | table_size :: rest =>
      let sh := reset spatial_hash _cell_size table_size in
      sh ← push_test_data sh _test_data;
      '(found, _, sh) ← check_test_data sh 0 _test_data;
      if (found : bool) then test_get_cell_loads sh _cell_size _test_data rest
      else Done 0
  end.

Definition test_get_cell (_cell_size : real)
    (_test_data : list Object.t) (table_sizes : list Z) : outcome Z :=
  test_get_cell_loads (make _cell_size 42) _cell_size _test_data table_sizes.

(** The coordinates of the test data convert to cells at this cell size. *)
Definition convertible (_cell_size : real) (_test_data : list Object.t) : Prop :=
  Forall (λ e, ∃ cell_x cell_y,
            to_int (Object.x e * (1 / _cell_size))%float = Done cell_x ∧
            to_int (Object.y e * (1 / _cell_size))%float = Done cell_y)
    _test_data.

End Tests.

(** ** The speed benchmark

    [realistic_speed_benchmark] of [benchmark.cpp].  [ELEMENTS] is filled
    with [std::rand] in the source and is a parameter here; the timing and
    the output are left out.  The function pointers [h] and [r] are a
    [HashFunction] and a [ReduceFunction].  The sum [result] is a
    [uint32_t]; its conversion to the [int] that is returned is not
    modelled. *)

Module Element.
Record t : Type := mk {
  x : Z;
  y : Z;
  salt : Z;
  pepper : Z
}.
End Element.

Definition HASH_ROUNDS : Z := 5.

(** [(void * )e] read as [uint32_t buf[4]]: the [int32_t] members are read
    as the words of their bits. *)
Definition element_buf (e : Element.t) : Buf :=
  mkBuf (wrap32 (Element.x e)) (wrap32 (Element.y e))
        (Element.salt e) (Element.pepper e).

(** [a + b] on [int32_t]; overflow is undefined. *)
Definition int_add (a b : Z) : outcome Z :=
  let r := a + b in
  if (INT_MIN <=? r) && (r <=? INT_MAX) then Done r else Undefined.

Section Benchmark.

Context {HF : HashFunction} {RF : ReduceFunction}.

(** One iteration of the inner loop. *)
Definition speed_round (buckets : Z) (s : Z * Element.t)
  : outcome (Z * Element.t) :=
  let '(result, e) := s in
  let result := wrap32 (result + reduce (hash (element_buf e)) buckets) in
  let pepper := wrap32 (Element.pepper e + 1) in
  let salt := wrap32 (Element.salt e + 1) in
  x ← int_add (Element.x e) 1;
  y ← int_add (Element.y e) 1;
  Done (result, Element.mk x y salt pepper).

(** The body of the outer loop, on one element. *)
Definition speed_element (buckets hash_rounds : Z) (s : Z * Element.t)
  : outcome (Z * Element.t) :=
  '(result, e) ← for_each (λ _ : nat, speed_round buckets)
                   (seq 0 (Z.to_nat hash_rounds)) s;
  let pepper := wrap32 (Element.pepper e - hash_rounds) in
  let salt := wrap32 (Element.salt e - hash_rounds) in
  x ← int_add (Element.x e) (- hash_rounds);
  y ← int_add (Element.y e) (- hash_rounds);
  Done (result, Element.mk x y salt pepper).

(** The sum and [ELEMENTS] as the function leaves it. *)
Fixpoint speed_elements (buckets hash_rounds : Z) (result : Z)
    (ELEMENTS : list Element.t) : outcome (Z * list Element.t) :=
  match ELEMENTS with
  | [] => Done (result, [])
  | e :: rest =>
      '(result, e) ← speed_element buckets hash_rounds (result, e);
      '(result, rest) ← speed_elements buckets hash_rounds result rest;
      Done (result, e :: rest)
  end.

Definition realistic_speed_benchmark (ELEMENTS : list Element.t)
  : outcome (Z * list Element.t) :=
  let result := 0 in
  let buckets := 4096 in
  let hash_rounds := HASH_ROUNDS in
  speed_elements buckets hash_rounds result ELEMENTS.

End Benchmark.

(** An element as [init_test_data] makes them: coordinates that stay in
    the range of [int32_t] during the rounds, 32-bit [salt] and
    [pepper]. *)
Definition element_ok (e : Element.t) : Prop :=
  INT_MIN ≤ Element.x e ≤ INT_MAX - HASH_ROUNDS ∧
  INT_MIN ≤ Element.y e ≤ INT_MAX - HASH_ROUNDS ∧
  0 ≤ Element.salt e < 2 ^ 32 ∧
  0 ≤ Element.pepper e < 2 ^ 32.

(** ** The rasteriser in [int]

    The loop of [insert_at_segment] with every [int] operation of the
    source checked: an overflow is undefined.  [segment_loop_cells] is this
    loop in the arithmetic of [Z]. *)

(** The value of an [int] expression. *)
Definition int_of (z : Z) : outcome Z :=
  if (INT_MIN <=? z) && (z <=? INT_MAX) then Done z else Undefined.

(** [std::abs] on [int]: undefined at [INT_MIN]. *)
Definition int_abs (z : Z) : outcome Z := int_of (Z.abs z).

Fixpoint segment_loop_cells_int (fuel : nat) (x0 y0 x1 y1 dx dy sx sy err : Z)
  : outcome (list (Z * Z) * bool) :=
  match fuel with
  | O => Done ([], false)
  | S fuel' =>
      if (x0 =? x1) && (y0 =? y1) then Done ([(x0, y0)], true)
      else
        e2 ← int_of (2 * err);
        rest ←
          (if e2 >? dy then
             err ← int_of (err + dy);
             x0 ← int_of (x0 + sx);
             segment_loop_cells_int fuel' x0 y0 x1 y1 dx dy sx sy err
           else if e2 <? dx then
             err ← int_of (err + dx);
             y0 ← int_of (y0 + sy);
             segment_loop_cells_int fuel' x0 y0 x1 y1 dx dy sx sy err
           else
             segment_loop_cells_int fuel' x0 y0 x1 y1 dx dy sx sy err);
        Done ((x0, y0) :: rest.1, rest.2)
  end.

(** The traversal of [insert_at_segment] between two cells, from the
    declarations of [dx], [dy], [sx], [sy] and [err] on. *)
Definition insert_at_segment_cells_int (fuel : nat) (x0 y0 x1 y1 : Z)
  : outcome (list (Z * Z) * bool) :=
  d ← int_of (x1 - x0);
  dx ← int_abs d;
  d ← int_of (y1 - y0);
  a ← int_abs d;
  dy ← int_of (- a);
  let sx := if x0 <? x1 then 1 else -1 in
  let sy := if y0 <? y1 then 1 else -1 in
  err ← int_of (dx + dy);
  segment_loop_cells_int fuel x0 y0 x1 y1 dx dy sx sy err.

(** ** Tables and data of the examples *)

Section ExampleTables.

#[local] Existing Instance Murmur.
#[local] Existing Instance FastRange.

(** [populated_table] after [reset(1.0, 8)] and an insertion at the same
    cell. *)
Definition repopulated_table : SpatialHash Id :=
  match insert_at_cell 10 (reset populated_table 1 8) 3 4 8 0 with
  | Done sh => sh
  | _ => populated_table
  end.

(** Eight buckets after [insert_at_aabb(0.0, 0.0, 1.0, 1.0, 7, 0)]. *)
Definition boxed_table : SpatialHash Id :=
  match insert_at_aabb 10 (make 1 8) 0 0 1 1 7 0 with
  | Done sh => sh
  | _ => make 1 8
  end.

(** Eight buckets after [insert_at_segment(0.0, 0.0, 2.0, 1.0, 7, 0)]. *)
Definition segment_table : SpatialHash Id :=
  match insert_at_segment 10 10 (make 1 8) 0 0 2 1 7 0 with
  | Done sh => sh
  | _ => make 1 8
  end.

(** A table of one bucket in the last generation of the counter, the
    bucket claimed in generation 0. *)
Definition last_generation_table : SpatialHash Id :=
  mkSpatialHash 1 1 (2 ^ 32 - 1) [HashBucket.mk 3 4 0 [7]].

Definition test_objects : list Object.t :=
  [Object.mk 0.5 1.5 3 7; Object.mk (-2.5) 4 1 9].

Definition benchmark_elements : list Element.t :=
  [Element.mk (-100000) 100000 255 42; Element.mk 3 4 0 42].

End ExampleTables.

(** * Properties *)

(** The hash of the first key probed for cell (0,0) with salt 0 in
    generation 0. *)
Example murmur_0001 :
  hashing.Murmur.hash (mkBuf 0 0 0 1) = 0x5625b443.
Proof. vm_compute. reflexivity. Qed.

(** ** Ranges of the hashing and reduction strategies *)

Lemma wrap32_range z : 0 ≤ wrap32 z < 2 ^ 32.
Proof. unfold wrap32. apply Z.mod_pos_bound. lia. Qed.

Lemma wrap32_small z : 0 ≤ z < 2 ^ 32 → wrap32 z = z.
Proof. intros. unfold wrap32. apply Z.mod_small. lia. Qed.

Lemma wrap32_succ z : wrap32 (wrap32 z + 1) = wrap32 (z + 1).
Proof. unfold wrap32. apply Zplus_mod_idemp_l. Qed.

Lemma shiftr_range a k : 0 ≤ k → 0 ≤ a < 2 ^ 32 → 0 ≤ Z.shiftr a k < 2 ^ 32.
Proof.
  intros Hk [Ha Hb]. rewrite Z.shiftr_div_pow2 by lia. split.
  - apply Z.div_pos; [lia | apply Z.pow_pos_nonneg; lia].
  - assert (0 < 2 ^ k) by (apply Z.pow_pos_nonneg; lia).
    apply Z.div_lt_upper_bound; [lia | nia].
Qed.

Lemma lxor_range a b :
  0 ≤ a < 2 ^ 32 → 0 ≤ b < 2 ^ 32 → 0 ≤ Z.lxor a b < 2 ^ 32.
Proof.
  intros [Ha Ha'] [Hb Hb'].
  assert (Hn : 0 ≤ Z.lxor a b) by (apply Z.lxor_nonneg; tauto).
  split; [exact Hn |].
  destruct (Z.eq_dec (Z.lxor a b) 0) as [-> | Hne]; [lia |].
  apply Z.log2_lt_pow2; [lia |].
  apply Z.le_lt_trans with (Z.max (Z.log2 a) (Z.log2 b));
    [apply Z.log2_lxor; lia |].
  apply Z.max_lub_lt.
  - destruct (Z.eq_dec a 0) as [-> | ]; [simpl; lia |].
    apply Z.log2_lt_pow2; lia.
  - destruct (Z.eq_dec b 0) as [-> | ]; [simpl; lia |].
    apply Z.log2_lt_pow2; lia.
Qed.

Lemma Murmur_hash_range b : 0 ≤ hashing.Murmur.hash b < 2 ^ 32.
Proof.
  unfold hashing.Murmur.hash, hashing.Murmur.fmix. cbv zeta.
  apply lxor_range; [apply wrap32_range |].
  apply shiftr_range; [lia | apply wrap32_range].
Qed.

Lemma xxHash_hash_range b : 0 ≤ hashing.xxHash.hash b < 2 ^ 32.
Proof.
  unfold hashing.xxHash.hash. cbv zeta.
  apply lxor_range; [apply wrap32_range |].
  apply shiftr_range; [lia | apply wrap32_range].
Qed.

Lemma Custom_hash_range b : 0 ≤ hashing.Custom.hash b < 2 ^ 32.
Proof.
  unfold hashing.Custom.hash. cbv zeta.
  repeat apply lxor_range; apply wrap32_range.
Qed.

Lemma Knuth_hash_range b : 0 ≤ hashing.Knuth.hash b < 2 ^ 32.
Proof. unfold hashing.Knuth.hash. cbv zeta. apply wrap32_range. Qed.

Lemma Mod_reduce_range h n : 0 < n → 0 ≤ reduction.Mod.reduce h n < n.
Proof. intros. unfold reduction.Mod.reduce. apply Z.mod_pos_bound. lia. Qed.

Lemma FastRange_reduce_range h n :
  0 ≤ h < 2 ^ 32 → 0 < n < 2 ^ 32 → 0 ≤ reduction.FastRange.reduce h n < n.
Proof.
  intros Hh Hn. unfold reduction.FastRange.reduce, wrap64.
  assert (H64 : 0 ≤ h * n < 2 ^ 64) by nia.
  rewrite (Z.mod_small _ _ H64), Z.shiftr_div_pow2 by lia.
  assert (Hq : 0 ≤ h * n / 2 ^ 32 < n).
  { split; [apply Z.div_pos; lia |].
    apply Z.div_lt_upper_bound; [lia | nia]. }
  rewrite wrap32_small; lia.
Qed.

(** [Mod] stays below the bucket count after any hash, [FastRange] after a
    hash of 32 bits, which the four strategies are. *)
Lemma Mod_in_range (HF : HashFunction) : @index_in_range HF Mod.
Proof. intros b n Hn. simpl. apply Mod_reduce_range. lia. Qed.

Lemma FastRange_in_range (HF : HashFunction) :
  (∀ b, 0 ≤ hash b < 2 ^ 32) → @index_in_range HF FastRange.
Proof.
  intros Hhash b n Hn. simpl. apply FastRange_reduce_range; [| exact Hn].
  apply Hhash.
Qed.

Lemma Murmur_FastRange_in_range : @index_in_range Murmur FastRange.
Proof. apply FastRange_in_range. exact Murmur_hash_range. Qed.

Lemma xxHash_FastRange_in_range : @index_in_range xxHash FastRange.
Proof. apply FastRange_in_range. exact xxHash_hash_range. Qed.

Lemma Custom_FastRange_in_range : @index_in_range Custom FastRange.
Proof. apply FastRange_in_range. exact Custom_hash_range. Qed.

Lemma Knuth_FastRange_in_range : @index_in_range Knuth FastRange.
Proof. apply FastRange_in_range. exact Knuth_hash_range. Qed.

(** [Identity] does not: with 1000 buckets the index of the first key of
    the test table is past the end of the bucket array. *)
Lemma Murmur_Identity_out_of_range : ¬ @index_in_range Murmur Identity.
Proof.
  intros H. specialize (H (mkBuf 0 0 0 1) 1000 ltac:(lia)).
  vm_compute in H. destruct H as [_ H]. discriminate.
Qed.

(** ** The claim resolver [get_bucket] *)

Section GetBucket.

Context {Value : Type}.
Context {HF : HashFunction} {RF : ReduceFunction}.
Variable REHASH_ROUNDS : nat.

Local Abbreviation Table := (SpatialHash Value).
Local Abbreviation Bucket := (HashBucket.t Value).

Implicit Types (sh : Table) (b : Bucket) (x y salt : Z).

Lemma key_before_0 sh x y salt :
  key_before sh x y salt 0
    (mkBuf (wrap32 x) (wrap32 y) (wrap32 salt) (_current_round sh)).
Proof.
  unfold key_before, probe_seed. simpl. repeat split; try reflexivity.
  f_equal. lia.
Qed.

Lemma key_before_step sh x y salt i buf :
  key_before sh x y salt i buf →
  mkBuf (buf0 buf) (buf1 buf) (buf2 buf) (wrap32 (buf3 buf + 1))
    = probe_key sh x y salt i ∧
  key_before sh x y salt (S i)
    (mkBuf (buf0 buf) (buf1 buf) (buf2 buf) (wrap32 (buf3 buf + 1))).
Proof.
  intros (H0 & H1 & H2 & H3). split.
  - unfold probe_key. rewrite H0, H1, H2, H3. reflexivity.
  - unfold key_before. simpl. repeat split; try assumption.
    rewrite H3. unfold probe_seed. rewrite wrap32_succ. f_equal. lia.
Qed.

Lemma foreign_true sh x y b :
  foreign sh x y b = true → claimed sh b = true ∧ same_cell x y b = false.
Proof.
  unfold foreign. intros H. apply andb_true_iff in H as [H1 H2].
  apply negb_true_iff in H2. auto.
Qed.

(** If the probes [i .. i+k-1] hit foreign buckets and probe [i+k] either
    hits a bucket that is not foreign or is the last one of the budget, the
    loop stops at probe [i+k]. *)
Lemma get_bucket_loop_run sh x y salt :
  ∀ (k n i : nat) buf bucket probes b,
    (k < n)%nat →
    key_before sh x y salt i buf →
    (∀ j, (j < k)%nat →
       ∃ bj, _hash_table sh !! probe_index sh x y salt (i + j) = Some bj ∧
             foreign sh x y bj = true) →
    _hash_table sh !! probe_index sh x y salt (i + k) = Some b →
    foreign sh x y b = false ∨ S k = n →
    get_bucket_loop n sh x y buf bucket probes =
      Done (probes ++ map (probe_index sh x y salt) (seq i (S k)),
            probe_index sh x y salt (i + k),
            if claimed sh b then sh
            else claim sh (probe_index sh x y salt (i + k)) x y).
Proof.
  induction k as [| k IH]; intros n i buf bucket probes b Hn Hkey Hpre Hb Hstop;
    (destruct n as [| n]; [lia |]);
    destruct (key_before_step _ _ _ _ _ _ Hkey) as [Hbuf Hnext];
    cbn [get_bucket_loop]; rewrite Hbuf;
    fold (probe_index sh x y salt i).
  - rewrite Nat.add_0_r in *. rewrite Hb.
    fold (claimed sh b). fold (same_cell x y b).
    unfold foreign in Hstop.
    destruct (claimed sh b) eqn:Hc; simpl.
    + destruct (same_cell x y b) eqn:Hs; simpl; [reflexivity |].
      destruct Hstop as [Hf | Hlast]; [discriminate |].
      injection Hlast as <-. reflexivity.
    + reflexivity.
  - destruct (Hpre 0%nat ltac:(lia)) as (b0 & Hb0 & Hf0).
    rewrite Nat.add_0_r in Hb0. rewrite Hb0.
    apply foreign_true in Hf0 as [Hc Hs].
    fold (claimed sh b0). fold (same_cell x y b0). rewrite Hc, Hs. simpl.
    rewrite (IH n (S i) _ (Some (probe_index sh x y salt i))
               (probes ++ [probe_index sh x y salt i]) b).
    + replace (S i + k)%nat with (i + S k)%nat by lia.
      rewrite <- app_assoc. reflexivity.
    + lia.
    + rewrite <- Hbuf. exact Hnext.
    + intros j Hj. replace (S i + j)%nat with (i + S j)%nat by lia.
      apply Hpre. lia.
    + replace (S i + k)%nat with (i + S k)%nat by lia. exact Hb.
    + destruct Hstop as [Hf | Hlast]; [left; exact Hf | right; lia].
Qed.

(** With every probe in range, some probe within the budget stops the
    loop. *)
Lemma stopping_probe_exists sh x y salt :
  (∀ j, is_Some (_hash_table sh !! probe_index sh x y salt j)) →
  ∀ (n i : nat),
    ∃ k b, (k ≤ n)%nat ∧
      (∀ j, (j < k)%nat →
         ∃ bj, _hash_table sh !! probe_index sh x y salt (i + j) = Some bj ∧
               foreign sh x y bj = true) ∧
      _hash_table sh !! probe_index sh x y salt (i + k) = Some b ∧
      (foreign sh x y b = false ∨ k = n).
Proof.
  intros Hin. induction n as [| n IH]; intros i.
  - destruct (Hin (i + 0)%nat) as [b Hb]. exists 0%nat, b.
    repeat split; [lia | intros j Hj; lia | exact Hb | right; reflexivity].
  - destruct (Hin (i + 0)%nat) as [b Hb].
    destruct (foreign sh x y b) eqn:Hf.
    + destruct (IH (S i)) as (k & b' & Hk & Hpre & Hb' & Hstop).
      exists (S k), b'. repeat split.
      * lia.
      * intros j Hj. destruct j as [| j]; [exists b; auto |].
        replace (i + S j)%nat with (S i + j)%nat by lia. apply Hpre. lia.
      * replace (i + S k)%nat with (S i + k)%nat by lia. exact Hb'.
      * destruct Hstop; [left; assumption | right; lia].
    + exists 0%nat, b.
      repeat split; [lia | intros j Hj; lia | exact Hb | left; exact Hf].
Qed.

Lemma probe_in_range sh x y salt :
  wf sh → index_in_range →
  ∀ j, is_Some (_hash_table sh !! probe_index sh x y salt j).
Proof.
  intros [Hsz Hlen] Hrange j. apply lookup_lt_is_Some. rewrite Hlen.
  unfold probe_index.
  specialize (Hrange (probe_key sh x y salt j) (_table_size sh) Hsz). lia.
Qed.

Lemma probe_seed_distinct sh (i j : nat) :
  Z.of_nat i < 2 ^ 32 → Z.of_nat j < 2 ^ 32 → i ≠ j →
  probe_seed sh i ≠ probe_seed sh j.
Proof.
  intros Hi Hj Hne Heq. unfold probe_seed, wrap32 in Heq.
  set (r := _current_round sh + 1) in *.
  assert (H : (Z.of_nat i - Z.of_nat j) mod 2 ^ 32 = 0).
  { replace (Z.of_nat i - Z.of_nat j)
      with ((r + Z.of_nat i) - (r + Z.of_nat j)) by lia.
    rewrite Zminus_mod, Heq, Z.sub_diag. reflexivity. }
  apply Z.mod_divide in H; [| lia]. destruct H as [q Hq]. nia.
Qed.

Lemma claim_lookup sh i x y :
  (i < length (_hash_table sh))%nat →
  _hash_table (claim sh i x y) !! i
    = Some (HashBucket.mk x y (_current_round sh) []).
Proof. intros Hi. unfold claim. simpl. apply list_lookup_insert_eq. exact Hi. Qed.

Lemma claim_lookup_ne sh i j x y :
  i ≠ j → _hash_table (claim sh i x y) !! j = _hash_table sh !! j.
Proof. intros Hne. unfold claim. simpl. apply list_lookup_insert_ne. exact Hne. Qed.

(** The resolver, once the stopping probe [k] is known. *)
Lemma get_bucket_probes_run sh x y salt (k : nat) b :
  (k ≤ REHASH_ROUNDS)%nat →
  (∀ j, (j < k)%nat →
     ∃ bj, _hash_table sh !! probe_index sh x y salt j = Some bj ∧
           foreign sh x y bj = true) →
  _hash_table sh !! probe_index sh x y salt k = Some b →
  foreign sh x y b = false ∨ k = REHASH_ROUNDS →
  get_bucket_probes REHASH_ROUNDS sh x y salt =
    Done (map (probe_index sh x y salt) (seq 0 (S k)),
          probe_index sh x y salt k,
          if claimed sh b then sh
          else claim sh (probe_index sh x y salt k) x y).
Proof.
  intros Hk Hpre Hb Hstop. unfold get_bucket_probes.
  rewrite (get_bucket_loop_run sh x y salt k (S REHASH_ROUNDS) 0 _ None [] b).
  - reflexivity.
  - lia.
  - apply key_before_0.
  - exact Hpre.
  - exact Hb.
  - destruct Hstop; [left; assumption | right; lia].
Qed.

(** C1: on a well-formed table [get_bucket] makes at most
    [REHASH_ROUNDS + 1] probes; probe [i] hashes the key
    [(x, y, salt, base_seed + i)] (the seeds of different probes differ) and
    reduces it to the index [probe_index i].  The probes before the last one
    all hit buckets claimed this generation by other cells.  At the last
    probe [k]: a bucket of another generation is claimed (generation set to
    the current one, coordinates set to [(x, y)], data cleared) and
    returned; a bucket of this generation with coordinates [(x, y)] is
    returned with the table unchanged; otherwise the loop had gone on to the
    next probe, and [k] is the last probe of the budget. *)
Theorem get_bucket_probe_sequence sh x y salt :
  wf sh → index_in_range →
  ∃ (k : nat) b sh',
    (k ≤ REHASH_ROUNDS)%nat ∧
    get_bucket_probes REHASH_ROUNDS sh x y salt =
      Done (map (probe_index sh x y salt) (seq 0 (S k)),
            probe_index sh x y salt k, sh') ∧
    get_bucket REHASH_ROUNDS sh x y salt =
      Done (probe_index sh x y salt k, sh') ∧
    (∀ i j : nat, (i < j ≤ k)%nat → Z.of_nat REHASH_ROUNDS < 2 ^ 32 →
       probe_seed sh i ≠ probe_seed sh j) ∧
    (∀ j, (j < k)%nat →
       ∃ bj, _hash_table sh !! probe_index sh x y salt j = Some bj ∧
             foreign sh x y bj = true) ∧
    _hash_table sh !! probe_index sh x y salt k = Some b ∧
    (claimed sh b = false ∧
       sh' = claim sh (probe_index sh x y salt k) x y ∧
       _hash_table sh' !! probe_index sh x y salt k
         = Some (HashBucket.mk x y (_current_round sh) [])
     ∨ claimed sh b = true ∧ same_cell x y b = true ∧ sh' = sh
     ∨ foreign sh x y b = true ∧ k = REHASH_ROUNDS ∧ sh' = sh).
Proof.
  intros Hwf Hrange.
  pose proof (probe_in_range sh x y salt Hwf Hrange) as Hin.
  destruct (stopping_probe_exists sh x y salt Hin REHASH_ROUNDS 0)
    as (k & b & Hk & Hpre & Hb & Hstop).
  simpl in Hpre, Hb.
  pose proof (get_bucket_probes_run sh x y salt k b Hk Hpre Hb Hstop) as Hrun.
  exists k, b,
    (if claimed sh b then sh else claim sh (probe_index sh x y salt k) x y).
  split; [exact Hk |]. split; [exact Hrun |].
  split; [unfold get_bucket; rewrite Hrun; reflexivity |].
  split.
  { intros i j Hij HR. apply probe_seed_distinct; lia. }
  split; [exact Hpre |]. split; [exact Hb |].
  unfold foreign in *. destruct (claimed sh b) eqn:Hc.
  - destruct (same_cell x y b) eqn:Hs.
    + right; left. auto.
    + right; right. destruct Hstop as [Hf | Hlast]; [discriminate | auto].
  - left. repeat split. apply claim_lookup.
    apply lookup_lt_is_Some. eauto.
Qed.

(** C2: when all [REHASH_ROUNDS + 1] probes land on buckets claimed this
    generation by cells with other coordinates, [get_bucket] returns the
    bucket of the last probe and the table it returns is the table it was
    given: no bucket is claimed, cleared or overwritten, and the outcome is
    a normal return. *)
Theorem get_bucket_exhausted sh x y salt :
  exhausted REHASH_ROUNDS sh x y salt →
  get_bucket_probes REHASH_ROUNDS sh x y salt =
    Done (map (probe_index sh x y salt) (seq 0 (S REHASH_ROUNDS)),
          probe_index sh x y salt REHASH_ROUNDS, sh) ∧
  get_bucket REHASH_ROUNDS sh x y salt =
    Done (probe_index sh x y salt REHASH_ROUNDS, sh).
Proof.
  intros Hex.
  destruct (Hex REHASH_ROUNDS (Nat.le_refl _)) as (b & Hb & Hf).
  assert (Hrun := get_bucket_probes_run sh x y salt REHASH_ROUNDS b
                    (Nat.le_refl _)
                    (λ j Hj, Hex j (Nat.lt_le_incl _ _ Hj)) Hb
                    (or_intror eq_refl)).
  apply foreign_true in Hf as [Hc _]. rewrite Hc in Hrun.
  split; [exact Hrun |]. unfold get_bucket. rewrite Hrun. reflexivity.
Qed.

(** *** What a returned bucket is, without assumptions on the table *)

Lemma get_bucket_loop_done sh x y :
  ∀ (n : nat) buf bucket probes probes' idx sh',
    (∀ i0, bucket = Some i0 →
       ∃ b0, _hash_table sh !! i0 = Some b0 ∧ claimed sh b0 = true) →
    get_bucket_loop n sh x y buf bucket probes = Done (probes', idx, sh') →
    ∃ b, _hash_table sh !! idx = Some b ∧
         sh' = if claimed sh b then sh else claim sh idx x y.
Proof.
  induction n as [| n IH]; intros buf bucket probes probes' idx sh' Hprev Hrun;
    cbn [get_bucket_loop] in Hrun.
  - destruct bucket as [i0 |]; [| discriminate].
    injection Hrun as _ <- <-.
    destruct (Hprev i0 eq_refl) as (b0 & Hb0 & Hc0).
    exists b0. rewrite Hc0. auto.
  - match type of Hrun with
    | context [_hash_table sh !! ?i] => set (index := i) in *
    end.
    destruct (_hash_table sh !! index) as [b |] eqn:Hb; [| discriminate].
    fold (claimed sh b) in Hrun. fold (same_cell x y b) in Hrun.
    destruct (claimed sh b) eqn:Hc; simpl in Hrun.
    + destruct (same_cell x y b) eqn:Hs; simpl in Hrun.
      * injection Hrun as _ <- <-. exists b. rewrite Hc. auto.
      * apply IH in Hrun; [exact Hrun |].
        intros i0 [= <-]. eauto.
    + injection Hrun as _ <- <-. exists b. rewrite Hc. auto.
Qed.

Lemma get_bucket_done sh x y salt idx sh' :
  get_bucket REHASH_ROUNDS sh x y salt = Done (idx, sh') →
  ∃ b, _hash_table sh !! idx = Some b ∧
       sh' = if claimed sh b then sh else claim sh idx x y.
Proof.
  unfold get_bucket, get_bucket_probes. intros H.
  destruct (get_bucket_loop _ _ _ _ _ _ _) as [[[probes i] s] | |] eqn:Hloop;
    simpl in H; try discriminate.
  injection H as -> ->.
  eapply get_bucket_loop_done; [| exact Hloop]. intros i0 [=].
Qed.

Lemma wf_claim sh i x y : wf sh → wf (claim sh i x y).
Proof.
  intros [Hsz Hlen]. unfold wf, claim. simpl. rewrite length_insert. auto.
Qed.

Lemma get_bucket_total sh x y salt :
  wf sh → index_in_range →
  ∃ idx sh', get_bucket REHASH_ROUNDS sh x y salt = Done (idx, sh').
Proof.
  intros Hwf Hrange.
  pose proof (probe_in_range sh x y salt Hwf Hrange) as Hin.
  destruct (stopping_probe_exists sh x y salt Hin REHASH_ROUNDS 0)
    as (k & b & Hk & Hpre & Hb & Hstop).
  simpl in Hpre, Hb.
  pose proof (get_bucket_probes_run sh x y salt k b Hk Hpre Hb Hstop) as Hrun.
  unfold get_bucket. rewrite Hrun. simpl. eauto.
Qed.

(** After [get_bucket] the returned bucket exists in the new table; the
    scalar fields of the table are untouched. *)
Lemma get_bucket_post sh x y salt idx sh' :
  get_bucket REHASH_ROUNDS sh x y salt = Done (idx, sh') →
  _current_round sh' = _current_round sh ∧
  _table_size sh' = _table_size sh ∧
  _inv_cell_size sh' = _inv_cell_size sh ∧
  length (_hash_table sh') = length (_hash_table sh) ∧
  is_Some (_hash_table sh' !! idx).
Proof.
  intros H. apply get_bucket_done in H as (b & Hb & ->).
  assert (Hlt : (idx < length (_hash_table sh))%nat)
    by (apply lookup_lt_is_Some; eauto).
  destruct (claimed sh b).
  - repeat split; eauto.
  - unfold claim. simpl. rewrite length_insert.
    repeat split. apply lookup_lt_is_Some. rewrite length_insert. exact Hlt.
Qed.

Lemma get_bucket_wf sh x y salt idx sh' :
  wf sh → get_bucket REHASH_ROUNDS sh x y salt = Done (idx, sh') → wf sh'.
Proof.
  intros Hwf H. apply get_bucket_post in H as (_ & Hsz & _ & Hlen & _).
  unfold wf in *. rewrite Hsz, Hlen. exact Hwf.
Qed.

(** A bucket claimed in the current generation stays claimed. *)
Lemma get_bucket_claimed_mono sh x y salt idx sh' :
  get_bucket REHASH_ROUNDS sh x y salt = Done (idx, sh') →
  ∀ i b, _hash_table sh !! i = Some b → claimed sh b = true →
    ∃ b', _hash_table sh' !! i = Some b' ∧ claimed sh' b' = true.
Proof.
  intros H i b Hb Hc. apply get_bucket_done in H as (b0 & Hb0 & ->).
  destruct (claimed sh b0) eqn:Hc0; [eauto |].
  destruct (decide (idx = i)) as [-> | Hne].
  - rewrite claim_lookup by (apply lookup_lt_is_Some; eauto).
    eexists. split; [reflexivity |]. unfold claimed, claim. simpl.
    apply Z.eqb_refl.
  - rewrite claim_lookup_ne by exact Hne. eauto.
Qed.

End GetBucket.

(** ** Loops *)

Lemma for_each_total {A S : Type} (P : S → Prop) (body : A → S → outcome S) l :
  (∀ a s, P s → ∃ s', body a s = Done s' ∧ P s') →
  ∀ s, P s → ∃ s', for_each body l s = Done s' ∧ P s'.
Proof.
  intros Hbody. induction l as [| a l IH]; intros s Hs; simpl.
  - eauto.
  - destruct (Hbody a s Hs) as (s1 & -> & Hs1). simpl. apply IH. exact Hs1.
Qed.

Lemma for_each_done {A S : Type} (P : S → Prop) (body : A → S → outcome S) l :
  (∀ a s s', P s → body a s = Done s' → P s') →
  ∀ s s', P s → for_each body l s = Done s' → P s'.
Proof.
  intros Hbody. induction l as [| a l IH]; intros s s' Hs H; simpl in H.
  - injection H as <-. exact Hs.
  - destruct (body a s) as [s1 | |] eqn:Hs1; simpl in H; try discriminate.
    eapply IH; [| exact H]. eapply Hbody; eauto.
Qed.

Lemma for_each_ext {A S : Type} (body body' : A → S → outcome S) l :
  (∀ a s, body a s = body' a s) →
  ∀ s, for_each body l s = for_each body' l s.
Proof.
  intros Hbody. induction l as [| a l IH]; intros s; simpl; [reflexivity |].
  rewrite Hbody. destruct (body' a s); simpl; auto.
Qed.

Lemma for_each_done_impl {A S : Type} (body body' : A → S → outcome S) l :
  (∀ a s s', body a s = Done s' → body' a s = Done s') →
  ∀ s s', for_each body l s = Done s' → for_each body' l s = Done s'.
Proof.
  intros Hbody. induction l as [| a l IH]; intros s s' H; simpl in *; [exact H |].
  destruct (body a s) as [s1 | |] eqn:Hs1; simpl in H; try discriminate.
  rewrite (Hbody _ _ _ Hs1). simpl. apply IH. exact H.
Qed.

(** A [for] loop over [int] that returns has run its body on the range and
    has not incremented [INT_MAX]. *)
Lemma for_int_done {S : Type} (body : Z → S → outcome S) first last s s' :
  for_int body first last s = Done s' →
  for_each body (seqZ first (last - first + 1)) s = Done s' ∧
  (first ≤ last → last ≠ INT_MAX).
Proof.
  unfold for_int. intros H.
  destruct (for_each body _ s) as [s1 | |]; simpl in H; try discriminate.
  destruct (Z.leb_spec first last) as [Hle | Hlt]; simpl in H.
  - destruct (Z.eqb_spec last INT_MAX) as [-> | Hne]; [discriminate |].
    injection H as <-. auto.
  - injection H as <-. split; [reflexivity | lia].
Qed.

(** Below [INT_MAX], or on an empty range, it is the loop over the range. *)
Lemma for_int_below {S : Type} (body : Z → S → outcome S) first last s :
  last < INT_MAX ∨ last < first →
  for_int body first last s = for_each body (seqZ first (last - first + 1)) s.
Proof.
  intros Hlast. unfold for_int.
  replace ((first <=? last) && (last =? INT_MAX)) with false.
  - destruct (for_each body _ s); reflexivity.
  - symmetry. apply andb_false_iff.
    destruct Hlast as [H | H]; [right; apply Z.eqb_neq | left; apply Z.leb_gt]; lia.
Qed.

(** At [INT_MAX] it does not return. *)
Lemma for_int_overflows {S : Type} (body : Z → S → outcome S) first s s' :
  first ≤ INT_MAX → for_int body first INT_MAX s ≠ Done s'.
Proof.
  intros Hle H. apply for_int_done in H as [_ H]. apply H; [exact Hle | reflexivity].
Qed.

(** The two nested loops of the box operations. *)
Lemma aabb_loops_done {S : Type} (body : Z → Z → S → outcome S) x0 y0 x1 y1 s s' :
  for_int (λ i, for_int (body i) y0 y1) x0 x1 s = Done s' →
  for_each (λ i, for_each (body i) (seqZ y0 (y1 - y0 + 1)))
    (seqZ x0 (x1 - x0 + 1)) s = Done s'.
Proof.
  intros H. apply for_int_done in H as [H _]. revert H.
  apply for_each_done_impl. intros i s1 s2 Hi.
  apply for_int_done in Hi as [Hi _]. exact Hi.
Qed.

Lemma aabb_loops_below {S : Type} (body : Z → Z → S → outcome S) x0 y0 x1 y1 s :
  x1 < x0 ∨ (x1 < INT_MAX ∧ (y1 < INT_MAX ∨ y1 < y0)) →
  for_int (λ i, for_int (body i) y0 y1) x0 x1 s =
  for_each (λ i, for_each (body i) (seqZ y0 (y1 - y0 + 1)))
    (seqZ x0 (x1 - x0 + 1)) s.
Proof.
  intros [Hx | [Hx Hy]].
  - rewrite for_int_below by auto.
    rewrite !seqZ_nil by lia. reflexivity.
  - rewrite for_int_below by auto.
    apply for_each_ext. intros i s1. apply for_int_below. exact Hy.
Qed.

(** ** Insertion and query at a cell *)

Section Cells.

Context {Value : Type}.
Context {HF : HashFunction} {RF : ReduceFunction}.
Variable REHASH_ROUNDS : nat.

Local Abbreviation Table := (SpatialHash Value).
Local Abbreviation Bucket := (HashBucket.t Value).

Implicit Types (sh : Table) (b : Bucket) (x y salt : Z) (result : list Value).

Lemma query_at_cell_inv sh result x y salt sh' result' :
  query_at_cell REHASH_ROUNDS sh result x y salt = Done (sh', result') →
  ∃ idx b, get_bucket REHASH_ROUNDS sh x y salt = Done (idx, sh') ∧
           _hash_table sh' !! idx = Some b ∧
           result' = HashBucket.data b ++ result.
Proof.
  unfold query_at_cell. intros H.
  destruct (get_bucket _ _ _ _ _) as [[idx s] | |]; simpl in H;
    try discriminate.
  destruct (_hash_table s !! idx) as [b |] eqn:Hb; [| discriminate].
  injection H as -> <-. eauto.
Qed.

Lemma query_at_cell_run sh result x y salt idx sh' b :
  get_bucket REHASH_ROUNDS sh x y salt = Done (idx, sh') →
  _hash_table sh' !! idx = Some b →
  query_at_cell REHASH_ROUNDS sh result x y salt
    = Done (sh', HashBucket.data b ++ result).
Proof. intros Hg Hb. unfold query_at_cell. rewrite Hg. simpl. rewrite Hb. reflexivity. Qed.

Lemma query_at_cell_total sh result x y salt :
  wf sh → index_in_range →
  ∃ idx sh' b,
    get_bucket REHASH_ROUNDS sh x y salt = Done (idx, sh') ∧
    _hash_table sh' !! idx = Some b ∧
    query_at_cell REHASH_ROUNDS sh result x y salt
      = Done (sh', HashBucket.data b ++ result) ∧
    wf sh'.
Proof.
  intros Hwf Hrange.
  destruct (get_bucket_total REHASH_ROUNDS sh x y salt Hwf Hrange)
    as (idx & sh' & Hg).
  destruct (get_bucket_post _ _ _ _ _ _ _ Hg) as (_ & _ & _ & _ & [b Hb]).
  exists idx, sh', b.
  split; [exact Hg |]. split; [exact Hb |].
  split; [apply (query_at_cell_run _ _ _ _ _ idx); assumption |].
  exact (get_bucket_wf _ _ _ _ _ _ _ Hwf Hg).
Qed.

Lemma query_at_cell_wf sh result x y salt sh' result' :
  wf sh →
  query_at_cell REHASH_ROUNDS sh result x y salt = Done (sh', result') →
  wf sh'.
Proof.
  intros Hwf H. apply query_at_cell_inv in H as (idx & b & Hg & _).
  exact (get_bucket_wf _ _ _ _ _ _ _ Hwf Hg).
Qed.

Lemma query_at_cell_suffix sh result x y salt sh' result' :
  query_at_cell REHASH_ROUNDS sh result x y salt = Done (sh', result') →
  ∃ matched, result' = matched ++ result.
Proof. intros H. apply query_at_cell_inv in H as (idx & b & _ & _ & ->). eauto. Qed.

Lemma insert_at_cell_inv sh x y value salt sh1 :
  insert_at_cell REHASH_ROUNDS sh x y value salt = Done sh1 →
  ∃ idx sh' b, get_bucket REHASH_ROUNDS sh x y salt = Done (idx, sh') ∧
               _hash_table sh' !! idx = Some b ∧
               sh1 = push_back sh' idx b value.
Proof.
  unfold insert_at_cell. intros H.
  destruct (get_bucket _ _ _ _ _) as [[idx s] | |]; simpl in H;
    try discriminate.
  destruct (_hash_table s !! idx) as [b |] eqn:Hb; [| discriminate].
  injection H as <-. exists idx, s, b. auto.
Qed.

Lemma insert_at_cell_run sh x y value salt idx sh' b :
  get_bucket REHASH_ROUNDS sh x y salt = Done (idx, sh') →
  _hash_table sh' !! idx = Some b →
  insert_at_cell REHASH_ROUNDS sh x y value salt
    = Done (push_back sh' idx b value).
Proof. intros Hg Hb. unfold insert_at_cell. rewrite Hg. simpl. rewrite Hb. reflexivity. Qed.

Lemma wf_push_back sh i b value : wf sh → wf (push_back sh i b value).
Proof.
  intros [Hsz Hlen]. unfold wf, push_back. simpl. rewrite length_insert. auto.
Qed.

Lemma insert_at_cell_total sh x y value salt :
  wf sh → index_in_range →
  ∃ sh1, insert_at_cell REHASH_ROUNDS sh x y value salt = Done sh1 ∧ wf sh1.
Proof.
  intros Hwf Hrange.
  destruct (get_bucket_total REHASH_ROUNDS sh x y salt Hwf Hrange)
    as (idx & sh' & Hg).
  destruct (get_bucket_post _ _ _ _ _ _ _ Hg) as (_ & _ & _ & _ & [b Hb]).
  exists (push_back sh' idx b value). split.
  - apply insert_at_cell_run; assumption.
  - apply wf_push_back. exact (get_bucket_wf _ _ _ _ _ _ _ Hwf Hg).
Qed.

End Cells.

(** ** Insert, then query *)

Section InsertQuery.

Context {Value : Type}.
Context {HF : HashFunction} {RF : ReduceFunction}.
Variable REHASH_ROUNDS : nat.

Local Abbreviation Table := (SpatialHash Value).
Local Abbreviation Bucket := (HashBucket.t Value).

Implicit Types (sh : Table) (b : Bucket) (x y salt : Z) (result : list Value).

Lemma probe_index_ext sh sh' x y salt i :
  _current_round sh' = _current_round sh →
  _table_size sh' = _table_size sh →
  probe_index sh' x y salt i = probe_index sh x y salt i.
Proof.
  intros Hr Hs. unfold probe_index, probe_key, probe_seed.
  rewrite Hr, Hs. reflexivity.
Qed.

Lemma foreign_ext sh sh' x y b :
  _current_round sh' = _current_round sh →
  foreign sh' x y b = foreign sh x y b.
Proof. intros Hr. unfold foreign, claimed. rewrite Hr. reflexivity. Qed.

(** [get_bucket] on a well-formed table, in one statement: it stops at some
    probe [k] of the budget, after foreign buckets only, and leaves
    [resolved] at the index of probe [k]. *)
Lemma get_bucket_resolves sh x y salt :
  wf sh → index_in_range →
  ∃ (k : nat) b sh',
    (k ≤ REHASH_ROUNDS)%nat ∧
    (∀ j, (j < k)%nat →
       ∃ bj, _hash_table sh !! probe_index sh x y salt j = Some bj ∧
             foreign sh x y bj = true) ∧
    _hash_table sh !! probe_index sh x y salt k = Some b ∧
    (foreign sh x y b = false ∨ k = REHASH_ROUNDS) ∧
    get_bucket REHASH_ROUNDS sh x y salt = Done (probe_index sh x y salt k, sh') ∧
    sh' = set_hash_table sh
            (<[probe_index sh x y salt k := resolved sh x y b]> (_hash_table sh)) ∧
    wf sh'.
Proof.
  intros Hwf Hrange.
  pose proof (probe_in_range sh x y salt Hwf Hrange) as Hin.
  destruct (stopping_probe_exists sh x y salt Hin REHASH_ROUNDS 0)
    as (k & b & Hk & Hpre & Hb & Hstop).
  simpl in Hpre, Hb.
  pose proof (get_bucket_probes_run REHASH_ROUNDS sh x y salt k b
                Hk Hpre Hb Hstop) as Hrun.
  assert (Hg : get_bucket REHASH_ROUNDS sh x y salt
               = Done (probe_index sh x y salt k,
                       if claimed sh b then sh
                       else claim sh (probe_index sh x y salt k) x y))
    by (unfold get_bucket; rewrite Hrun; reflexivity).
  eexists k, b, _. split; [exact Hk |]. split; [exact Hpre |].
  split; [exact Hb |]. split; [exact Hstop |]. split; [exact Hg |].
  split; [| exact (get_bucket_wf _ _ _ _ _ _ _ Hwf Hg)].
  unfold resolved. destruct (claimed sh b).
  - rewrite list_insert_id by exact Hb. destruct sh; reflexivity.
  - reflexivity.
Qed.

(** C6: on a well-formed table, when the resolution of [(x, y, salt)] does
    not exhaust its probe budget, [insert_at_cell] followed by
    [query_at_cell] on the same cell and salt (no [reset] in between)
    returns; the query's resolution does not exhaust its budget either, and
    the output sequence after the query contains the inserted value. *)
Theorem insert_then_query sh result x y value salt :
  wf sh → index_in_range →
  ¬ exhausted REHASH_ROUNDS sh x y salt →
  ∃ sh1 sh2 result',
    insert_at_cell REHASH_ROUNDS sh x y value salt = Done sh1 ∧
    ¬ exhausted REHASH_ROUNDS sh1 x y salt ∧
    query_at_cell REHASH_ROUNDS sh1 result x y salt = Done (sh2, result') ∧
    value ∈ result'.
Proof.
  intros Hwf Hrange Hnex.
  destruct (get_bucket_resolves sh x y salt Hwf Hrange)
    as (k & b & sh' & Hk & Hpre & Hb & Hstop & Hg & Hsh' & Hwf').
  set (idx := probe_index sh x y salt k) in *.
  assert (Hlt : (idx < length (_hash_table sh))%nat)
    by (apply lookup_lt_is_Some; eauto).
  (* the resolution stopped on a bucket that is not foreign *)
  assert (Hnf : foreign sh x y b = false).
  { destruct (foreign sh x y b) eqn:Hf; [| reflexivity].
    destruct Hstop as [? | ->]; [discriminate |].
    exfalso. apply Hnex. intros i Hi.
    destruct (decide (i = REHASH_ROUNDS)) as [-> | Hne]; [eauto |].
    apply Hpre. lia. }
  (* the bucket left at [idx] belongs to the cell *)
  set (b' := resolved sh x y b) in *.
  assert (Hb'c : claimed sh b' = true ∧ same_cell x y b' = true).
  { unfold b', resolved, foreign in *. destruct (claimed sh b) eqn:Hc.
    - split; [exact Hc |]. simpl in Hnf. apply negb_false_iff in Hnf. exact Hnf.
    - unfold claimed, same_cell. simpl. rewrite !Z.eqb_refl. auto. }
  assert (Hlk' : _hash_table sh' !! idx = Some b').
  { rewrite Hsh'. simpl. apply list_lookup_insert_eq. exact Hlt. }
  pose proof (insert_at_cell_run REHASH_ROUNDS sh x y value salt idx sh' b'
                Hg Hlk') as Hins.
  set (sh1 := push_back sh' idx b' value) in *.
  set (b1 := HashBucket.mk (HashBucket.x b') (HashBucket.y b')
               (HashBucket.last_claimed b') (HashBucket.data b' ++ [value])).
  assert (Hr1 : _current_round sh1 = _current_round sh)
    by (unfold sh1; rewrite Hsh'; reflexivity).
  assert (Hs1 : _table_size sh1 = _table_size sh)
    by (unfold sh1; rewrite Hsh'; reflexivity).
  assert (Hlk1 : _hash_table sh1 !! idx = Some b1).
  { unfold sh1, push_back. simpl. apply list_lookup_insert_eq.
    apply lookup_lt_is_Some. eauto. }
  assert (Hlk1ne : ∀ j, j ≠ idx → _hash_table sh1 !! j = _hash_table sh !! j).
  { intros j Hj. unfold sh1, push_back. simpl.
    rewrite list_lookup_insert_ne by auto.
    rewrite Hsh'. simpl. apply list_lookup_insert_ne. auto. }
  assert (Hb1c : claimed sh1 b1 = true ∧ same_cell x y b1 = true).
  { destruct Hb'c as [Hc Hs]. unfold claimed in *. rewrite Hr1. auto. }
  assert (Hb1f : foreign sh1 x y b1 = false).
  { unfold foreign. destruct Hb1c as [-> ->]. reflexivity. }
  assert (Hidx1 : ∀ j, probe_index sh1 x y salt j = probe_index sh x y salt j)
    by (intros j; apply probe_index_ext; assumption).
  (* the query walks the same probes and stops at [idx] *)
  assert (Hpre1 : ∀ j, (j < k)%nat →
            ∃ bj, _hash_table sh1 !! probe_index sh1 x y salt j = Some bj ∧
                  foreign sh1 x y bj = true).
  { intros j Hj. destruct (Hpre j Hj) as (bj & Hbj & Hfj).
    exists bj. rewrite Hidx1, (foreign_ext sh sh1) by exact Hr1.
    split; [| exact Hfj]. rewrite Hlk1ne; [exact Hbj |].
    intros Heq. fold idx in Hb. rewrite Heq, Hb in Hbj.
    injection Hbj as <-. congruence. }
  assert (Hbk1 : _hash_table sh1 !! probe_index sh1 x y salt k = Some b1)
    by (rewrite Hidx1; exact Hlk1).
  pose proof (get_bucket_probes_run REHASH_ROUNDS sh1 x y salt k b1
                Hk Hpre1 Hbk1 (or_introl Hb1f)) as Hrun1.
  destruct Hb1c as [Hc1 _]. rewrite Hc1, Hidx1 in Hrun1. fold idx in Hrun1.
  assert (Hg1 : get_bucket REHASH_ROUNDS sh1 x y salt = Done (idx, sh1))
    by (unfold get_bucket; rewrite Hrun1; reflexivity).
  exists sh1, sh1, (HashBucket.data b1 ++ result).
  split; [exact Hins |]. split.
  { intros Hex. destruct (Hex k Hk) as (bk & Hbk & Hfk).
    rewrite Hbk1 in Hbk. injection Hbk as <-. congruence. }
  split; [exact (query_at_cell_run REHASH_ROUNDS sh1 result x y salt idx sh1 b1 Hg1 Hlk1) |].
  unfold b1. simpl. rewrite !elem_of_app, list_elem_of_singleton. auto.
Qed.

End InsertQuery.

(** ** Queries over points, boxes and segments *)

Section Queries.

Context {Value : Type}.
Context {HF : HashFunction} {RF : ReduceFunction}.
Variable REHASH_ROUNDS : nat.

Local Abbreviation Table := (SpatialHash Value).
Local Abbreviation Bucket := (HashBucket.t Value).

Implicit Types (sh : Table) (b : Bucket) (x y salt : Z) (result : list Value).

Lemma query_at_point_cell sh result (px py : real) x y salt :
  cell sh px = Done x → cell sh py = Done y →
  query_at_point REHASH_ROUNDS sh result px py salt
    = query_at_cell REHASH_ROUNDS sh result x y salt.
Proof. intros Hx Hy. unfold query_at_point. rewrite Hx, Hy. reflexivity. Qed.

(** The loop of [query_at_segment] keeps whatever every [query_at_cell]
    keeps. *)
Lemma query_at_segment_loop_inv (P : Table * list Value → Prop) salt :
  (∀ sh result x y sh' result',
     P (sh, result) →
     query_at_cell REHASH_ROUNDS sh result x y salt = Done (sh', result') →
     P (sh', result')) →
  ∀ (fuel : nat) sh result x0 y0 x1 y1 dx dy sx sy err sh' result',
    P (sh, result) →
    query_at_segment_loop REHASH_ROUNDS fuel sh result
      x0 y0 x1 y1 dx dy sx sy err salt = Done (sh', result') →
    P (sh', result').
Proof.
  intros Hstep. induction fuel as [| fuel IH];
    intros sh result x0 y0 x1 y1 dx dy sx sy err sh' result' HP H;
    cbn [query_at_segment_loop] in H; [discriminate |].
  destruct (query_at_cell _ sh result x0 y0 salt) as [[sh1 r1] | |] eqn:Hq;
    simpl in H; try discriminate.
  pose proof (Hstep _ _ _ _ _ _ HP Hq) as HP1.
  destruct ((x0 =? x1) && (y0 =? y1)).
  - injection H as <- <-. exact HP1.
  - destruct (2 * err >? dy); [| destruct (2 * err <? dx)];
      eapply IH; eauto.
Qed.

(** The loops of [query_at_aabb] likewise. *)
Lemma query_at_aabb_loop_inv (P : Table * list Value → Prop) salt :
  (∀ sh result x y sh' result',
     P (sh, result) →
     query_at_cell REHASH_ROUNDS sh result x y salt = Done (sh', result') →
     P (sh', result')) →
  ∀ (xs ys : list Z) s s',
    P s →
    for_each
      (λ i, for_each (λ j '(sh, result),
                        query_at_cell REHASH_ROUNDS sh result i j salt) ys)
      xs s = Done s' →
    P s'.
Proof.
  intros Hstep xs ys. apply for_each_done. intros i.
  apply for_each_done. intros j [sh r] [sh' r']. apply Hstep.
Qed.

Lemma query_at_aabb_loop_total (P : Table * list Value → Prop) salt :
  (∀ sh result x y,
     P (sh, result) →
     ∃ s', query_at_cell REHASH_ROUNDS sh result x y salt = Done s' ∧ P s') →
  ∀ (xs ys : list Z) s,
    P s →
    ∃ s', for_each
            (λ i, for_each (λ j '(sh, result),
                              query_at_cell REHASH_ROUNDS sh result i j salt) ys)
            xs s = Done s' ∧ P s'.
Proof.
  intros Hstep xs ys. apply for_each_total. intros i.
  apply for_each_total. intros j [sh r]. apply Hstep.
Qed.

(** *** Where the matched values go *)

Lemma extends_step result0 salt sh result x y sh' result' :
  extends result0 (sh, result) →
  query_at_cell REHASH_ROUNDS sh result x y salt = Done (sh', result') →
  extends result0 (sh', result').
Proof.
  intros [m Hm] H. simpl in Hm. subst result.
  apply query_at_cell_suffix in H as [m' ->].
  exists (m' ++ m). simpl. apply app_assoc.
Qed.

Lemma query_at_aabb_total sh result (tlx tly brx bry : real) x0 y0 x1 y1 salt :
  wf sh → index_in_range →
  cell sh tlx = Done x0 → cell sh tly = Done y0 →
  cell sh brx = Done x1 → cell sh bry = Done y1 →
  x1 < INT_MAX → y1 < INT_MAX →
  ∃ sh' matched,
    query_at_aabb REHASH_ROUNDS sh result tlx tly brx bry salt
      = Done (sh', matched ++ result) ∧ wf sh'.
Proof.
  intros Hwf Hrange Hx0 Hy0 Hx1 Hy1 Hx1m Hy1m. unfold query_at_aabb.
  rewrite Hx0, Hy0, Hx1, Hy1. simpl.
  rewrite (aabb_loops_below
             (λ i j '(sh, result), query_at_cell REHASH_ROUNDS sh result i j salt))
    by auto.
  destruct (query_at_aabb_loop_total
              (λ s, wf s.1 ∧ extends result s) salt) with
    (xs := seqZ x0 (x1 - x0 + 1)) (ys := seqZ y0 (y1 - y0 + 1))
    (s := (sh, result)) as ([sh' r'] & Hrun & Hwf' & m & Hm).
  - intros s r x y [Hs Hext]. simpl in Hs.
    destruct (query_at_cell_total REHASH_ROUNDS s r x y salt Hs Hrange)
      as (idx & s' & b & _ & _ & Hq & Hs').
    eexists. split; [exact Hq |]. split; [exact Hs' |].
    eapply extends_step; eauto.
  - split; [exact Hwf |]. exists []. reflexivity.
  - simpl in Hm. subst r'. eauto.
Qed.

Lemma query_at_segment_suffix (fuel : nat) sh result (sx sy ex ey : real)
    salt sh' result' :
  query_at_segment REHASH_ROUNDS fuel sh result sx sy ex ey salt
    = Done (sh', result') →
  ∃ matched, result' = matched ++ result.
Proof.
  unfold query_at_segment. intros H.
  destruct (cell sh sx) as [x0 | |]; simpl in H; try discriminate.
  destruct (cell sh sy) as [y0 | |]; simpl in H; try discriminate.
  destruct (cell sh ex) as [x1 | |]; simpl in H; try discriminate.
  destruct (cell sh ey) as [y1 | |]; simpl in H; try discriminate.
  eapply (query_at_segment_loop_inv (extends result) salt) in H.
  - exact H.
  - intros. eapply extends_step; eauto.
  - exists []. reflexivity.
Qed.

End Queries.

(** ** Queries write to the table *)

Section QueryEffects.

Context {Value : Type}.
Context {HF : HashFunction} {RF : ReduceFunction}.
Variable REHASH_ROUNDS : nat.

Local Abbreviation Table := (SpatialHash Value).
Local Abbreviation Bucket := (HashBucket.t Value).

Implicit Types (sh : Table) (b : Bucket) (x y salt : Z) (result : list Value).

Lemma claimed_at_step round i salt sh result x y sh' result' :
  claimed_at round i (sh, result) →
  query_at_cell REHASH_ROUNDS sh result x y salt = Done (sh', result') →
  claimed_at round i (sh', result').
Proof.
  intros [Hr (b & Hb & Hc)] H. simpl in *.
  apply query_at_cell_inv in H as (idx & b0 & Hg & _).
  split; simpl.
  - apply get_bucket_post in Hg as (-> & _). exact Hr.
  - eapply get_bucket_claimed_mono; eauto.
Qed.

Lemma claimed_at_differs sh i b s :
  _hash_table sh !! i = Some b → claimed sh b = false →
  claimed_at (_current_round sh) i s → s.1 ≠ sh.
Proof.
  intros Hb Hc [_ (b' & Hb' & Hc')] Heq. rewrite Heq, Hb in Hb'.
  rewrite Heq in Hc'. injection Hb' as <-. congruence.
Qed.

(** What the first [query_at_cell] of a query does when the bucket it
    resolves to is of another generation. *)
Lemma query_at_cell_claims sh result x y salt bucket sh' b :
  get_bucket REHASH_ROUNDS sh x y salt = Done (bucket, sh') →
  _hash_table sh !! bucket = Some b →
  claimed sh b = false →
  sh' = claim sh bucket x y ∧
  _hash_table sh' !! bucket = Some (HashBucket.mk x y (_current_round sh) []) ∧
  query_at_cell REHASH_ROUNDS sh result x y salt = Done (sh', result) ∧
  claimed_at (_current_round sh) bucket (sh', result).
Proof.
  intros Hg Hb Hc.
  destruct (get_bucket_done _ _ _ _ _ _ _ Hg) as (b0 & Hb0 & Hsh').
  rewrite Hb in Hb0. injection Hb0 as <-. rewrite Hc in Hsh'.
  assert (Hlk : _hash_table sh' !! bucket
                = Some (HashBucket.mk x y (_current_round sh) [])).
  { rewrite Hsh'. apply claim_lookup. apply lookup_lt_is_Some. eauto. }
  split; [exact Hsh' |]. split; [exact Hlk |]. split.
  - rewrite (query_at_cell_run REHASH_ROUNDS sh result x y salt bucket sh' _ Hg Hlk).
    reflexivity.
  - split; [rewrite Hsh'; reflexivity |]. simpl.
    eexists. split; [exact Hlk |].
    unfold claimed. simpl. rewrite Hsh'. simpl. apply Z.eqb_refl.
Qed.

(** C9: queries are not read-only.  When the bucket that [get_bucket]
    resolves [(x, y, salt)] to is of another generation, [query_at_cell]
    (and [query_at_point] at a point of that cell) returns the table with
    that bucket claimed: generation set to the current one, coordinates set
    to [(x, y)], data cleared; the table differs from the one it was given,
    and the output sequence is returned as it was.  A [query_at_aabb] whose
    first cell is [(x, y)], and a [query_at_segment] that starts in it and
    returns, leave that bucket claimed too, in a table that differs from
    the one they were given. *)
Theorem query_claims_stale_bucket sh x y salt bucket sh' b :
  get_bucket REHASH_ROUNDS sh x y salt = Done (bucket, sh') →
  _hash_table sh !! bucket = Some b →
  claimed sh b = false →
  sh' = claim sh bucket x y ∧
  sh' ≠ sh ∧
  _hash_table sh' !! bucket = Some (HashBucket.mk x y (_current_round sh) []) ∧
  (∀ result,
     query_at_cell REHASH_ROUNDS sh result x y salt = Done (sh', result)) ∧
  (∀ result (px py : real),
     cell sh px = Done x → cell sh py = Done y →
     query_at_point REHASH_ROUNDS sh result px py salt = Done (sh', result)) ∧
  (∀ result (tlx tly brx bry : real) x1 y1 shF resultF,
     cell sh tlx = Done x → cell sh tly = Done y →
     cell sh brx = Done x1 → cell sh bry = Done y1 →
     x ≤ x1 → y ≤ y1 →
     query_at_aabb REHASH_ROUNDS sh result tlx tly brx bry salt
       = Done (shF, resultF) →
     shF ≠ sh ∧
     ∃ b', _hash_table shF !! bucket = Some b' ∧ claimed shF b' = true) ∧
  (∀ (fuel : nat) result (sx sy ex ey : real) x1 y1 shF resultF,
     cell sh sx = Done x → cell sh sy = Done y →
     cell sh ex = Done x1 → cell sh ey = Done y1 →
     query_at_segment REHASH_ROUNDS fuel sh result sx sy ex ey salt
       = Done (shF, resultF) →
     shF ≠ sh ∧
     ∃ b', _hash_table shF !! bucket = Some b' ∧ claimed shF b' = true).
Proof.
  intros Hg Hb Hc.
  pose proof (λ result, query_at_cell_claims sh result x y salt bucket sh' b
                          Hg Hb Hc) as Hq.
  destruct (Hq []) as (Hsh' & Hlk & _ & Hcl).
  split; [exact Hsh' |]. split.
  { exact (claimed_at_differs sh bucket b (sh', []) Hb Hc Hcl). }
  split; [exact Hlk |]. split.
  { intros result. apply Hq. }
  split.
  { intros result px py Hx Hy.
    rewrite (query_at_point_cell REHASH_ROUNDS sh result px py x y salt Hx Hy).
    apply Hq. }
  split.
  - intros result tlx tly brx bry x1 y1 shF resultF Hx0 Hy0 Hx1 Hy1 Hlex Hley H.
    unfold query_at_aabb in H. rewrite Hx0, Hy0, Hx1, Hy1 in H.
    cbn [mbind outcome_mbind outcome_bind] in H.
    apply (aabb_loops_done
             (λ i j '(sh, result), query_at_cell REHASH_ROUNDS sh result i j salt))
      in H.
    set (ys := seqZ y (y1 - y + 1)) in H.
    assert (Hys : ys = y :: seqZ (Z.succ y) (Z.pred (y1 - y + 1)))
      by (apply seqZ_cons; lia).
    rewrite (seqZ_cons x) in H by lia.
    cbn [for_each] in H.
    destruct (Hq result) as (_ & _ & Hq1 & Hcl1).
    match type of H with
    | context [for_each ?body ys (sh, result)] =>
        destruct (for_each body ys (sh, result)) as [s2 | |] eqn:Hinner
    end; simpl in H; try discriminate.
    assert (Hcl2 : claimed_at (_current_round sh) bucket s2).
    { rewrite Hys in Hinner. cbn [for_each] in Hinner.
      rewrite Hq1 in Hinner. simpl in Hinner.
      revert Hinner. apply for_each_done; [| exact Hcl1].
      intros j [s r] [s' r']. apply claimed_at_step. }
    assert (HclF : claimed_at (_current_round sh) bucket (shF, resultF)).
    { revert H. apply query_at_aabb_loop_inv; [| exact Hcl2].
      intros s r cx cy s' r'. apply claimed_at_step. }
    split.
    + exact (claimed_at_differs sh bucket b (shF, resultF) Hb Hc HclF).
    + apply HclF.
  - intros fuel result sx sy ex ey x1 y1 shF resultF Hx0 Hy0 Hx1 Hy1 H.
    unfold query_at_segment in H. rewrite Hx0, Hy0, Hx1, Hy1 in H. simpl in H.
    destruct fuel as [| fuel]; cbn [query_at_segment_loop] in H;
      [discriminate |].
    destruct (Hq result) as (_ & _ & Hq1 & Hcl1). rewrite Hq1 in H.
    simpl in H.
    assert (HclF : claimed_at (_current_round sh) bucket (shF, resultF)).
    { destruct ((x =? x1) && (y =? y1)).
      - injection H as <- <-. exact Hcl1.
      - destruct (_ >? _); [| destruct (_ <? _)];
          (eapply (query_at_segment_loop_inv REHASH_ROUNDS
                     (claimed_at (_current_round sh) bucket) salt);
           [| exact Hcl1 | exact H];
           intros s r cx cy s' r'; apply claimed_at_step). }
    split.
    + exact (claimed_at_differs sh bucket b (shF, resultF) Hb Hc HclF).
    + apply HclF.
Qed.

End QueryEffects.

(** ** Generations and [reset] *)

Section Reset.

Context {Value : Type}.
Context {HF : HashFunction} {RF : ReduceFunction}.
Variable REHASH_ROUNDS : nat.

Local Abbreviation Table := (SpatialHash Value).
Local Abbreviation Bucket := (HashBucket.t Value).

Implicit Types (sh : Table) (b : Bucket) (x y salt : Z) (result : list Value).

Lemma stamp_ok_mono r r' b : r ≤ r' → stamp_ok r b → stamp_ok r' b.
Proof. unfold stamp_ok. intros Hle [H | H]; [left; exact H | right; lia]. Qed.

Lemma generations_ok_make (cell_size : real) (table_size : Z) :
  generations_ok (make (Value := Value) cell_size table_size).
Proof.
  unfold generations_ok, make. simpl. split; [lia |].
  apply Forall_resize; [left; reflexivity | constructor].
Qed.

Lemma generations_ok_get_bucket sh x y salt idx sh' :
  generations_ok sh →
  get_bucket REHASH_ROUNDS sh x y salt = Done (idx, sh') →
  generations_ok sh'.
Proof.
  intros [Hr Hall] H. apply get_bucket_done in H as (b & Hb & ->).
  destruct (claimed sh b); [split; assumption |].
  unfold generations_ok, claim. simpl. split; [exact Hr |].
  apply Forall_insert; [exact Hall |]. right. simpl. lia.
Qed.

Lemma generations_ok_query_at_cell sh result x y salt sh' result' :
  generations_ok sh →
  query_at_cell REHASH_ROUNDS sh result x y salt = Done (sh', result') →
  generations_ok sh'.
Proof.
  intros Hok H. apply query_at_cell_inv in H as (idx & b & Hg & _).
  exact (generations_ok_get_bucket _ _ _ _ _ _ Hok Hg).
Qed.

Lemma generations_ok_insert_at_cell sh x y value salt sh1 :
  generations_ok sh →
  insert_at_cell REHASH_ROUNDS sh x y value salt = Done sh1 →
  generations_ok sh1.
Proof.
  intros Hok H. apply insert_at_cell_inv in H as (idx & sh' & b & Hg & Hb & ->).
  destruct (generations_ok_get_bucket _ _ _ _ _ _ Hok Hg) as [Hr Hall].
  unfold generations_ok, push_back. simpl. split; [exact Hr |].
  apply Forall_insert; [exact Hall |].
  exact (Forall_lookup_1 _ _ _ _ Hall Hb).
Qed.

Lemma reset_round sh (cell_size : real) (table_size : Z) :
  _current_round (reset sh cell_size table_size)
    = wrap32 (_current_round sh + 1).
Proof. unfold reset. destruct (negb _); reflexivity. Qed.

Lemma reset_table sh (cell_size : real) (table_size : Z) :
  _hash_table (reset sh cell_size table_size)
    = if _table_size sh =? table_size then _hash_table sh
      else resize (Z.to_nat table_size) HashBucket.default (_hash_table sh).
Proof. unfold reset. destruct (_table_size sh =? table_size); reflexivity. Qed.

Lemma reset_table_size sh (cell_size : real) (table_size : Z) :
  _table_size (reset sh cell_size table_size) = table_size.
Proof.
  unfold reset. destruct (Z.eqb_spec (_table_size sh) table_size); simpl; auto.
Qed.

Lemma reset_inv_cell_size sh (cell_size : real) (table_size : Z) :
  _inv_cell_size (reset sh cell_size table_size) = (1 / cell_size)%float.
Proof. unfold reset. destruct (negb _); reflexivity. Qed.

Lemma wf_reset sh (cell_size : real) (table_size : Z) :
  wf sh → 0 < table_size < 2 ^ 32 → wf (reset sh cell_size table_size).
Proof.
  intros [Hsz Hlen] Hn. unfold wf.
  rewrite reset_table_size, reset_table. split; [exact Hn |].
  destruct (Z.eqb_spec (_table_size sh) table_size) as [<- | Hne].
  - exact Hlen.
  - apply length_resize.
Qed.

(** Past a [reset] every stamp is that of an earlier generation. *)
Lemma reset_stale sh (cell_size : real) (table_size : Z) :
  generations_ok sh → _current_round sh + 1 < 2 ^ 32 - 1 →
  _current_round (reset sh cell_size table_size) = _current_round sh + 1 ∧
  Forall (λ b, claimed (reset sh cell_size table_size) b = false)
    (_hash_table (reset sh cell_size table_size)).
Proof.
  intros [Hr Hall] Hlt.
  assert (Hround : _current_round (reset sh cell_size table_size)
                   = _current_round sh + 1)
    by (rewrite reset_round; apply wrap32_small; lia).
  split; [exact Hround |].
  assert (Hstale : ∀ b, stamp_ok (_current_round sh) b →
                        claimed (reset sh cell_size table_size) b = false).
  { intros b Hb. unfold claimed. rewrite Hround. apply Z.eqb_neq.
    destruct Hb as [Hb | Hb]; [rewrite Hb; vm_compute wrap32; lia | lia]. }
  rewrite reset_table. destruct (_table_size sh =? table_size).
  - eapply Forall_impl; [exact Hstale | exact Hall].
  - apply Forall_resize.
    + apply Hstale. left. reflexivity.
    + eapply Forall_impl; [exact Hstale | exact Hall].
Qed.

Lemma generations_ok_reset sh (cell_size : real) (table_size : Z) :
  generations_ok sh → _current_round sh + 1 < 2 ^ 32 →
  generations_ok (reset sh cell_size table_size).
Proof.
  intros [Hr Hall] Hlt. unfold generations_ok.
  rewrite reset_round, reset_table, wrap32_small by lia. split; [lia |].
  assert (Hall' : Forall (stamp_ok (_current_round sh + 1)) (_hash_table sh)).
  { eapply Forall_impl; [| exact Hall]. intros b. apply stamp_ok_mono. lia. }
  destruct (_table_size sh =? table_size); [exact Hall' |].
  apply Forall_resize; [left; reflexivity | exact Hall'].
Qed.

(** C7: [reset] always advances the generation and stores the new cell
    scale; the bucket array is the one it was when [table_size] is the
    current size, and is resized otherwise.  While the generation counter
    is not exhausted, a query of any cell right after the [reset], with an
    empty output sequence, returns an empty sequence: every bucket carries
    the stamp of an earlier generation, whatever data it still holds. *)
Theorem reset_clears_all_cells sh (cell_size : real) (table_size : Z) :
  wf sh → generations_ok sh → index_in_range →
  _current_round sh + 1 < 2 ^ 32 - 1 →
  0 < table_size < 2 ^ 32 →
  let sh' := reset sh cell_size table_size in
  _current_round sh' = _current_round sh + 1 ∧
  _inv_cell_size sh' = (1 / cell_size)%float ∧
  _table_size sh' = table_size ∧
  (table_size = _table_size sh → _hash_table sh' = _hash_table sh) ∧
  (table_size ≠ _table_size sh →
     _hash_table sh' =
       resize (Z.to_nat table_size) HashBucket.default (_hash_table sh)) ∧
  (∀ x y salt,
     ∃ sh'', query_at_cell REHASH_ROUNDS sh' [] x y salt = Done (sh'', [])).
Proof.
  intros Hwf Hok Hrange Hlt Hn sh'.
  destruct (reset_stale sh cell_size table_size Hok Hlt) as [Hround Hstale].
  fold sh' in Hround, Hstale.
  split; [exact Hround |].
  split; [apply reset_inv_cell_size |].
  split; [apply reset_table_size |].
  split.
  { intros ->. unfold sh'. rewrite reset_table, Z.eqb_refl. reflexivity. }
  split.
  { intros Hne. unfold sh'. rewrite reset_table.
    destruct (Z.eqb_spec (_table_size sh) table_size); congruence. }
  intros x y salt.
  assert (Hwf' : wf sh') by (apply wf_reset; assumption).
  destruct (probe_in_range sh' x y salt Hwf' Hrange 0%nat) as [b0 Hb0].
  assert (Hc0 : claimed sh' b0 = false)
    by exact (Forall_lookup_1 _ _ _ _ Hstale Hb0).
  assert (Hrun := get_bucket_probes_run REHASH_ROUNDS sh' x y salt 0 b0
                    (Nat.le_0_l _) (λ j Hj, match Nat.nlt_0_r j Hj with end)
                    Hb0).
  rewrite Hc0 in Hrun.
  assert (Hg : get_bucket REHASH_ROUNDS sh' x y salt
               = Done (probe_index sh' x y salt 0,
                       claim sh' (probe_index sh' x y salt 0) x y)).
  { unfold get_bucket. rewrite Hrun; [reflexivity |].
    left. unfold foreign. rewrite Hc0. reflexivity. }
  eexists.
  rewrite (query_at_cell_run REHASH_ROUNDS sh' [] x y salt _ _ _ Hg
             (claim_lookup sh' _ x y (proj1 (lookup_lt_is_Some _ _)
                                        (ex_intro _ b0 Hb0)))).
  reflexivity.
Qed.

End Reset.

(** ** Segment traversal *)

Section Segments.

Context {Value : Type}.
Context {HF : HashFunction} {RF : ReduceFunction}.
Variable REHASH_ROUNDS : nat.

Local Abbreviation Table := (SpatialHash Value).

Implicit Types (sh : Table) (salt : Z) (result : list Value).

(** The loops of the two operations visit [segment_loop_cells]. *)
Lemma insert_at_segment_loop_cells value salt :
  ∀ (fuel : nat) sh x0 y0 x1 y1 dx dy sx sy err,
    insert_at_segment_loop REHASH_ROUNDS fuel sh
      x0 y0 x1 y1 dx dy sx sy err value salt =
    let path := segment_loop_cells fuel x0 y0 x1 y1 dx dy sx sy err in
    sh' ← for_each (λ c sh, insert_at_cell REHASH_ROUNDS sh c.1 c.2 value salt)
            path.1 sh;
    if path.2 then Done sh' else OutOfFuel.
Proof.
  induction fuel as [| fuel IH]; intros sh x0 y0 x1 y1 dx dy sx sy err;
    cbn [insert_at_segment_loop segment_loop_cells]; [reflexivity |].
  cbv zeta.
  destruct ((x0 =? x1) && (y0 =? y1)).
  - cbn [fst snd for_each].
    destruct (insert_at_cell _ sh x0 y0 value salt); reflexivity.
  - cbn [fst snd for_each].
    destruct (insert_at_cell _ sh x0 y0 value salt) as [sh1 | |];
      [| reflexivity | reflexivity].
    cbn [mbind outcome_mbind outcome_bind].
    destruct (2 * err >? dy); [| destruct (2 * err <? dx)]; apply IH.
Qed.

Lemma query_at_segment_loop_cells salt :
  ∀ (fuel : nat) sh result x0 y0 x1 y1 dx dy sx sy err,
    query_at_segment_loop REHASH_ROUNDS fuel sh result
      x0 y0 x1 y1 dx dy sx sy err salt =
    let path := segment_loop_cells fuel x0 y0 x1 y1 dx dy sx sy err in
    s' ← for_each (λ c '(sh, result),
                     query_at_cell REHASH_ROUNDS sh result c.1 c.2 salt)
           path.1 (sh, result);
    if path.2 then Done s' else OutOfFuel.
Proof.
  induction fuel as [| fuel IH]; intros sh result x0 y0 x1 y1 dx dy sx sy err;
    cbn [query_at_segment_loop segment_loop_cells]; [reflexivity |].
  cbv zeta.
  destruct ((x0 =? x1) && (y0 =? y1)).
  - cbn [fst snd for_each].
    destruct (query_at_cell _ sh result x0 y0 salt) as [[sh1 r1] | |];
      reflexivity.
  - cbn [fst snd for_each].
    destruct (query_at_cell _ sh result x0 y0 salt) as [[sh1 r1] | |];
      [| reflexivity | reflexivity].
    cbn [mbind outcome_mbind outcome_bind].
    destruct (2 * err >? dy); [| destruct (2 * err <? dx)]; apply IH.
Qed.

End Segments.

Lemma segment_loop_cells_S (fuel : nat) (x0 y0 x1 y1 dx dy sx sy err : Z) :
  segment_loop_cells (S fuel) x0 y0 x1 y1 dx dy sx sy err =
    if (x0 =? x1) && (y0 =? y1) then ([(x0, y0)], true)
    else
      let rest :=
        if 2 * err >? dy then
          segment_loop_cells fuel (x0 + sx) y0 x1 y1 dx dy sx sy (err + dy)
        else if 2 * err <? dx then
          segment_loop_cells fuel x0 (y0 + sy) x1 y1 dx dy sx sy (err + dx)
        else
          segment_loop_cells fuel x0 y0 x1 y1 dx dy sx sy err in
      ((x0, y0) :: rest.1, rest.2).
Proof. reflexivity. Qed.

(** *** The traversal of [insert_at_segment]

    From [(x0, y0)] to [(x0 + D * sx, y0 + E * sy)]; after [a] steps along x
    and [b] steps along y the error term is [(b + 1) * D - (a + 1) * E]. *)

Section Bresenham.

Variables (x0 y0 D E sx sy : Z).
Hypothesis D_nonneg : 0 ≤ D.
Hypothesis E_nonneg : 0 ≤ E.
Hypothesis sx_unit : sx = 1 ∨ sx = -1.
Hypothesis sy_unit : sy = 1 ∨ sy = -1.

Lemma on_path_weaken a b a0 b0 c :
  a0 ≤ a → b0 ≤ b → on_path x0 y0 D E sx sy a b c → on_path x0 y0 D E sx sy a0 b0 c.
Proof.
  intros Ha Hb (a' & b' & Ha' & Hb' & ->). exists a', b'.
  repeat split; lia.
Qed.

Lemma segment_loop_cells_finishes :
  ∀ (n : nat) (a b : Z),
    0 ≤ a ≤ D → 0 ≤ b ≤ E → D - a + (E - b) = Z.of_nat n →
    ∃ cells,
      segment_loop_cells (S n) (x0 + a * sx) (y0 + b * sy)
        (x0 + D * sx) (y0 + E * sy) D (- E) sx sy
        ((b + 1) * D - (a + 1) * E) = (cells, true) ∧
      length cells = S n ∧
      head cells = Some (x0 + a * sx, y0 + b * sy) ∧
      list.last cells = Some (x0 + D * sx, y0 + E * sy) ∧
      Forall (on_path x0 y0 D E sx sy a b) cells ∧
      NoDup cells.
Proof.
  induction n as [| n IH]; intros a b Ha Hb Hn.
  - assert (a = D) as -> by lia. assert (b = E) as -> by lia.
    rewrite segment_loop_cells_S, !Z.eqb_refl. simpl.
    eexists. split; [reflexivity |]. repeat split.
    + constructor; [| constructor]. exists D, E. repeat split; lia.
    + apply NoDup_singleton.
  - rewrite segment_loop_cells_S.
    assert (Hgo : (x0 + a * sx =? x0 + D * sx) && (y0 + b * sy =? y0 + E * sy)
                  = false).
    { apply andb_false_iff.
      destruct (Z.eq_dec a D) as [-> | Hne].
      - right. apply Z.eqb_neq. destruct sy_unit as [-> | ->]; lia.
      - left. apply Z.eqb_neq. destruct sx_unit as [-> | ->]; lia. }
    rewrite Hgo. cbv zeta. rewrite Z.gtb_ltb.
    destruct (Z.ltb_spec (- E) (2 * ((b + 1) * D - (a + 1) * E))) as [Hx | Hx].
    + (* a step along x *)
      assert (Ha' : a < D) by nia.
      destruct (IH (a + 1) b ltac:(lia) ltac:(lia) ltac:(lia))
        as (cells & Hrun & Hlen & Hhd & Hlast & Hon & Hnd).
      replace (x0 + (a + 1) * sx) with (x0 + a * sx + sx) in Hrun by lia.
      replace ((b + 1) * D - (a + 1 + 1) * E)
        with ((b + 1) * D - (a + 1) * E + - E) in Hrun by lia.
      rewrite Hrun. simpl fst; simpl snd.
      eexists. split; [reflexivity |]. repeat split.
      * simpl. lia.
      * destruct cells; [discriminate |]. exact Hlast.
      * constructor.
        -- exists a, b. repeat split; lia.
        -- eapply Forall_impl; [| exact Hon]. intros c.
           apply on_path_weaken; lia.
      * constructor; [| exact Hnd].
        intros Hin. apply list_elem_of_In in Hin. rewrite Forall_forall in Hon.
        destruct (Hon _ Hin) as (a' & b' & Ha'' & Hb'' & Heq).
        injection Heq as Hex Hey.
        destruct sx_unit as [-> | ->]; lia.
    + destruct (Z.ltb_spec (2 * ((b + 1) * D - (a + 1) * E)) D) as [Hy | Hy].
      * (* a step along y *)
        assert (Hb' : b < E) by nia.
        destruct (IH a (b + 1) ltac:(lia) ltac:(lia) ltac:(lia))
          as (cells & Hrun & Hlen & Hhd & Hlast & Hon & Hnd).
        replace (y0 + (b + 1) * sy) with (y0 + b * sy + sy) in Hrun by lia.
        replace ((b + 1 + 1) * D - (a + 1) * E)
          with ((b + 1) * D - (a + 1) * E + D) in Hrun by lia.
        rewrite Hrun. simpl fst; simpl snd.
        eexists. split; [reflexivity |]. repeat split.
        -- simpl. lia.
        -- destruct cells; [discriminate |]. exact Hlast.
        -- constructor.
           ++ exists a, b. repeat split; lia.
           ++ eapply Forall_impl; [| exact Hon]. intros c.
              apply on_path_weaken; lia.
        -- constructor; [| exact Hnd].
           intros Hin. apply list_elem_of_In in Hin. rewrite Forall_forall in Hon.
           destruct (Hon _ Hin) as (a' & b' & Ha'' & Hb'' & Heq).
           injection Heq as Hex Hey.
           destruct sy_unit as [-> | ->]; lia.
      * (* neither test holds only at the end point *)
        exfalso. nia.
Qed.

End Bresenham.

Lemma insert_at_segment_cells_finishes (x0 y0 x1 y1 : Z) :
  ∃ cells,
    insert_at_segment_cells
      (S (Z.to_nat (Z.abs (x1 - x0) + Z.abs (y1 - y0)))) x0 y0 x1 y1
      = (cells, true) ∧
    length cells = S (Z.to_nat (Z.abs (x1 - x0) + Z.abs (y1 - y0))) ∧
    list.head cells = Some (x0, y0) ∧
    list.last cells = Some (x1, y1) ∧
    NoDup cells.
Proof.
  unfold insert_at_segment_cells. cbv zeta.
  set (D := Z.abs (x1 - x0)). set (E := Z.abs (y1 - y0)).
  set (sx := if x0 <? x1 then 1 else -1).
  set (sy := if y0 <? y1 then 1 else -1).
  assert (Hsx : sx = 1 ∨ sx = -1) by (unfold sx; destruct (x0 <? x1); auto).
  assert (Hsy : sy = 1 ∨ sy = -1) by (unfold sy; destruct (y0 <? y1); auto).
  assert (Hx1 : x1 = x0 + D * sx)
    by (unfold sx, D; destruct (Z.ltb_spec x0 x1); lia).
  assert (Hy1 : y1 = y0 + E * sy)
    by (unfold sy, E; destruct (Z.ltb_spec y0 y1); lia).
  destruct (segment_loop_cells_finishes x0 y0 D E sx sy
              ltac:(unfold D; lia) ltac:(unfold E; lia) Hsx Hsy
              (Z.to_nat (D + E)) 0 0
              ltac:(unfold D; lia) ltac:(unfold E; lia)
              ltac:(unfold D, E; lia))
    as (cells & Hrun & Hlen & Hhd & Hlast & _ & Hnd).
  rewrite <- Hx1, <- Hy1 in Hrun, Hlast.
  replace (x0 + 0 * sx) with x0 in Hrun, Hhd by lia.
  replace (y0 + 0 * sy) with y0 in Hrun, Hhd by lia.
  replace ((0 + 1) * D - (0 + 1) * E) with (D + - E) in Hrun by lia.
  exists cells. auto.
Qed.

(** *** The traversal of [query_at_segment] *)

(** With [dy > 0] and the end point on another row, the first test of the
    body always holds: the loop steps along x and never leaves. *)
Lemma segment_loop_cells_stuck (y0 x1 y1 dx dy sx sy : Z) :
  y0 ≠ y1 → 0 < dy →
  ∀ (fuel : nat) (x0 err : Z),
    dy ≤ err →
    let path := segment_loop_cells fuel x0 y0 x1 y1 dx dy sx sy err in
    path.2 = false ∧
    length path.1 = fuel ∧
    ∀ i : nat, (i < fuel)%nat →
      path.1 !! i = Some (x0 + Z.of_nat i * sx, y0).
Proof.
  intros Hy Hdy. induction fuel as [| fuel IH]; intros x0 err Herr.
  - simpl. repeat split. intros i Hi. lia.
  - cbv zeta. rewrite segment_loop_cells_S.
    replace (y0 =? y1) with false by (symmetry; apply Z.eqb_neq; exact Hy).
    rewrite andb_false_r. cbv zeta.
    replace (2 * err >? dy) with true by (symmetry; apply Z.gtb_lt; lia).
    destruct (IH (x0 + sx) (err + dy) ltac:(lia)) as (Hfin & Hlen & Hcells).
    cbn [fst snd]. split; [exact Hfin |]. split; [simpl; lia |].
    intros [| i] Hi.
    + simpl. f_equal. f_equal. lia.
    + simpl. rewrite Hcells by lia. f_equal. f_equal. lia.
Qed.

Lemma query_at_segment_cells_stuck (fuel : nat) (x0 y0 x1 y1 : Z) :
  y0 ≠ y1 →
  let path := query_at_segment_cells fuel x0 y0 x1 y1 in
  path.2 = false ∧
  length path.1 = fuel ∧
  ∀ i : nat, (i < fuel)%nat →
    path.1 !! i
      = Some (x0 + Z.of_nat i * (if x0 <? x1 then 1 else -1), y0).
Proof.
  intros Hy. unfold query_at_segment_cells. cbv zeta.
  apply segment_loop_cells_stuck; [exact Hy | lia | lia].
Qed.

(** On one row the two traversals are the same. *)
Lemma query_at_segment_cells_row (fuel : nat) (x0 y x1 : Z) :
  query_at_segment_cells fuel x0 y x1 y
    = insert_at_segment_cells fuel x0 y x1 y.
Proof.
  unfold query_at_segment_cells, insert_at_segment_cells.
  rewrite Z.sub_diag. reflexivity.
Qed.

(** ** Which operations return *)

Section Termination.

Context {Value : Type}.
Context {HF : HashFunction} {RF : ReduceFunction}.
Variable REHASH_ROUNDS : nat.

Local Abbreviation Table := (SpatialHash Value).

Implicit Types (sh : Table) (salt : Z) (result : list Value).

Lemma insert_at_aabb_total sh (tlx tly brx bry : real) x0 y0 x1 y1 value salt :
  wf sh → index_in_range →
  cell sh tlx = Done x0 → cell sh tly = Done y0 →
  cell sh brx = Done x1 → cell sh bry = Done y1 →
  x1 < INT_MAX → y1 < INT_MAX →
  ∃ sh', insert_at_aabb REHASH_ROUNDS sh tlx tly brx bry value salt = Done sh' ∧
         wf sh'.
Proof.
  intros Hwf Hrange Hx0 Hy0 Hx1 Hy1 Hx1m Hy1m. unfold insert_at_aabb.
  rewrite Hx0, Hy0, Hx1, Hy1. simpl.
  rewrite (aabb_loops_below
             (λ i j sh, insert_at_cell REHASH_ROUNDS sh i j value salt))
    by auto.
  apply (for_each_total wf); [| exact Hwf]. intros i s Hs.
  apply (for_each_total wf); [| exact Hs]. intros j s' Hs'.
  apply insert_at_cell_total; assumption.
Qed.

(** [insert_at_segment] leaves its loop after one iteration per cell of the
    path. *)
Lemma insert_at_segment_terminates sh (sx sy ex ey : real) x0 y0 x1 y1
    value salt :
  wf sh → index_in_range →
  cell sh sx = Done x0 → cell sh sy = Done y0 →
  cell sh ex = Done x1 → cell sh ey = Done y1 →
  ∃ (fuel : nat) sh',
    insert_at_segment REHASH_ROUNDS fuel sh sx sy ex ey value salt = Done sh' ∧
    wf sh'.
Proof.
  intros Hwf Hrange Hx0 Hy0 Hx1 Hy1.
  destruct (insert_at_segment_cells_finishes x0 y0 x1 y1)
    as (cells & Hrun & _).
  exists (S (Z.to_nat (Z.abs (x1 - x0) + Z.abs (y1 - y0)))).
  unfold insert_at_segment. rewrite Hx0, Hy0, Hx1, Hy1.
  cbn [mbind outcome_mbind outcome_bind]. cbv zeta.
  rewrite insert_at_segment_loop_cells. cbv zeta.
  unfold insert_at_segment_cells in Hrun. cbv zeta in Hrun. rewrite Hrun.
  cbn [fst snd].
  destruct (for_each_total wf
              (λ c sh, insert_at_cell REHASH_ROUNDS sh c.1 c.2 value salt)
              cells) with (s := sh) as (sh' & Hfold & Hwf').
  - intros c s Hs. apply insert_at_cell_total; assumption.
  - exact Hwf.
  - rewrite Hfold. simpl. eauto.
Qed.

(** [query_at_segment] between cells of different rows runs out of any
    fuel. *)
Lemma query_at_segment_loop_stuck salt (y0 x1 y1 dx dy sx sy : Z) :
  index_in_range → y0 ≠ y1 → 0 < dy →
  ∀ (fuel : nat) sh result (x0 err : Z),
    wf sh → dy ≤ err →
    query_at_segment_loop REHASH_ROUNDS fuel sh result
      x0 y0 x1 y1 dx dy sx sy err salt = OutOfFuel.
Proof.
  intros Hrange Hy Hdy. induction fuel as [| fuel IH];
    intros sh result x0 err Hwf Herr; cbn [query_at_segment_loop];
    [reflexivity |].
  destruct (query_at_cell_total REHASH_ROUNDS sh result x0 y0 salt Hwf Hrange)
    as (idx & sh' & b & _ & _ & -> & Hwf').
  cbn [mbind outcome_mbind outcome_bind].
  replace (y0 =? y1) with false by (symmetry; apply Z.eqb_neq; exact Hy).
  rewrite andb_false_r. cbv zeta.
  replace (2 * err >? dy) with true by (symmetry; apply Z.gtb_lt; lia).
  apply IH; [exact Hwf' | lia].
Qed.

Lemma query_at_segment_stuck (fuel : nat) sh result (sx sy ex ey : real)
    x0 y0 x1 y1 salt :
  wf sh → index_in_range →
  cell sh sx = Done x0 → cell sh sy = Done y0 →
  cell sh ex = Done x1 → cell sh ey = Done y1 →
  y0 ≠ y1 →
  query_at_segment REHASH_ROUNDS fuel sh result sx sy ex ey salt = OutOfFuel.
Proof.
  intros Hwf Hrange Hx0 Hy0 Hx1 Hy1 Hy.
  unfold query_at_segment. rewrite Hx0, Hy0, Hx1, Hy1.
  cbn [mbind outcome_mbind outcome_bind]. cbv zeta.
  apply query_at_segment_loop_stuck; try assumption; lia.
Qed.

(** Between cells of one row it returns, as [insert_at_segment] does. *)
Lemma query_at_segment_row_terminates sh result (sx sy ex ey : real)
    x0 y x1 salt :
  wf sh → index_in_range →
  cell sh sx = Done x0 → cell sh sy = Done y →
  cell sh ex = Done x1 → cell sh ey = Done y →
  ∃ (fuel : nat) s',
    query_at_segment REHASH_ROUNDS fuel sh result sx sy ex ey salt = Done s' ∧
    wf s'.1.
Proof.
  intros Hwf Hrange Hx0 Hy0 Hx1 Hy1.
  destruct (insert_at_segment_cells_finishes x0 y x1 y)
    as (cells & Hrun & _).
  rewrite <- query_at_segment_cells_row in Hrun.
  exists (S (Z.to_nat (Z.abs (x1 - x0) + Z.abs (y - y)))).
  unfold query_at_segment. rewrite Hx0, Hy0, Hx1, Hy1.
  cbn [mbind outcome_mbind outcome_bind]. cbv zeta.
  rewrite query_at_segment_loop_cells. cbv zeta.
  unfold query_at_segment_cells in Hrun. cbv zeta in Hrun. rewrite Hrun.
  cbn [fst snd].
  destruct (for_each_total (λ s : Table * list Value, wf s.1)
              (λ c '(sh, result),
                 query_at_cell REHASH_ROUNDS sh result c.1 c.2 salt)
              cells) with (s := (sh, result)) as (s' & Hfold & Hwf').
  - intros c [s r] Hs. simpl in Hs.
    destruct (query_at_cell_total REHASH_ROUNDS s r c.1 c.2 salt Hs Hrange)
      as (idx & s1 & b & _ & _ & Hq & Hs1).
    eexists. split; [exact Hq | exact Hs1].
  - exact Hwf.
  - rewrite Hfold. simpl. eauto.
Qed.

End Termination.

(** ** The test harness *)

Lemma wf_make {Value : Type} (cell_size : real) (table_size : Z) :
  0 < table_size < 2 ^ 32 → wf (make (Value := Value) cell_size table_size).
Proof. intros H. unfold wf, make. simpl. split; [exact H | apply length_resize]. Qed.

Section TestHarness.

#[local] Existing Instance Murmur.
#[local] Existing Instance FastRange.

Lemma wf_spatial_hash : wf spatial_hash.
Proof. apply wf_make. lia. Qed.

(** C8: the scenario of [test_insert_query_aabb] (1000 buckets, cell size
    1.0, [REHASH_ROUNDS = 10], Murmur hashing, FastRange reduction): after
    value 1 is inserted in the box (0,0)-(20,20) and value 2 in the box
    (10,10)-(30,30), both with salt 1, the box query (18,18)-(20,20)
    returns 18 entries and the point queries at (20,20), (1,1) and (25,25)
    return 2, 1 and 1 entries, each from an empty output sequence; the
    sizes are the same whether the queries run one after the other or each
    on the table as the insertions left it. *)
Theorem test_insert_query_aabb_sizes :
  test_insert_query_aabb = Done [18; 2; 1; 1]%nat ∧
  aabb_queries_apart = Done [18; 2; 1; 1]%nat.
Proof. split; vm_compute; reflexivity. Qed.

(** C5, the claim as stated fails: with the output sequence holding [9]
    before the call, a query of a cell that holds the value 1 leaves
    [[1; 9]], which does not begin with the prior contents. *)
Lemma query_at_cell_puts_values_first :
  ∃ sh1 : SpatialHash Id,
    insert_at_cell 10 spatial_hash 0 0 1 0 = Done sh1 ∧
    query_at_cell 10 sh1 [9] 0 0 0 = Done (sh1, [1; 9]) ∧
    ¬ ∃ matched, [1; 9] = [9] ++ matched.
Proof.
  exists (push_back (claim spatial_hash 336 0 0) 336 (HashBucket.mk 0 0 0 []) 1).
  split; [vm_compute; reflexivity |]. split; [vm_compute; reflexivity |].
  intros [m Hm]. discriminate.
Qed.

(** C10: buckets carry no salt.  In the test configuration, cell (0,0) is
    inserted with salt 0 into a fresh table and claims bucket 336; the
    first probe for cell (0,0) with salt 790 lands on the same bucket,
    finds it claimed this generation with equal coordinates, and returns
    it after that single probe (no exhaustion): the query with salt 790
    returns the value inserted with salt 0. *)
Theorem salts_share_a_bucket :
  ∃ (sh1 : SpatialHash Id) (x y salt1 salt2 : Z) (bucket : nat),
    salt1 ≠ salt2 ∧
    get_bucket_probes 10 spatial_hash x y salt1
      = Done ([bucket], bucket, claim spatial_hash bucket x y) ∧
    insert_at_cell 10 spatial_hash x y 7 salt1 = Done sh1 ∧
    get_bucket_probes 10 sh1 x y salt2 = Done ([bucket], bucket, sh1) ∧
    ¬ exhausted 10 sh1 x y salt2 ∧
    query_at_cell 10 sh1 [] x y salt2 = Done (sh1, [7]) ∧
    query_at_cell 10 spatial_hash [] x y salt2
      = Done (claim spatial_hash bucket x y, []).
Proof.
  exists (push_back (claim spatial_hash 336 0 0) 336 (HashBucket.mk 0 0 0 []) 7),
    0, 0, 0, 790, 336%nat.
  split; [lia |].
  split; [vm_compute; reflexivity |].
  split; [vm_compute; reflexivity |].
  split; [vm_compute; reflexivity |].
  split.
  { intros Hex. destruct (Hex 0%nat ltac:(lia)) as (b & Hb & Hf).
    vm_compute in Hb. injection Hb as <-. vm_compute in Hf. discriminate. }
  split; vm_compute; reflexivity.
Qed.

(** C3, at the segment of [test_insert_query_segment]: [query_at_segment]
    from (0,0) to (20,20) on the test table does not return, whatever the
    number of iterations allowed, and neither does it from (0,0) to (0,20),
    two points that share their x coordinate; [insert_at_segment] along the
    first segment returns after 41 iterations. *)
Theorem query_at_segment_does_not_return :
  (∀ fuel : nat,
     query_at_segment 10 fuel spatial_hash [] 0 0 20 20 1 = OutOfFuel) ∧
  (∀ fuel : nat,
     query_at_segment 10 fuel spatial_hash [] 0 0 0 20 1 = OutOfFuel) ∧
  (∃ sh' : SpatialHash Id,
     insert_at_segment 10 41 spatial_hash 0 0 20 20 1 1 = Done sh').
Proof.
  split; [| split].
  - intros fuel.
    apply (query_at_segment_stuck 10 fuel spatial_hash [] 0 0 20 20 0 0 20 20 1).
    + exact wf_spatial_hash.
    + exact Murmur_FastRange_in_range.
    + vm_compute; reflexivity.
    + vm_compute; reflexivity.
    + vm_compute; reflexivity.
    + vm_compute; reflexivity.
    + lia.
  - intros fuel.
    apply (query_at_segment_stuck 10 fuel spatial_hash [] 0 0 0 20 0 0 0 20 1).
    + exact wf_spatial_hash.
    + exact Murmur_FastRange_in_range.
    + vm_compute; reflexivity.
    + vm_compute; reflexivity.
    + vm_compute; reflexivity.
    + vm_compute; reflexivity.
    + lia.
  - destruct (insert_at_segment 10 41 spatial_hash 0 0 20 20 1 1)
      as [sh' | |] eqn:H.
    + eauto.
    + vm_compute in H. discriminate.
    + vm_compute in H. discriminate.
Qed.

(** C4, at the same segment: the traversal of [insert_at_segment] from
    (0,0) to (20,20) leaves its loop after 41 cells, the third of which is
    (1,1) and the last (20,20); the traversal of [query_at_segment] never
    leaves its loop, its third cell is (2,0), and every cell it visits is
    in row 0. *)
Theorem segment_traversals_differ :
  (insert_at_segment_cells 41 0 0 20 20).2 = true ∧
  (insert_at_segment_cells 41 0 0 20 20).1 !! 2%nat = Some (1, 1) ∧
  list.last (insert_at_segment_cells 41 0 0 20 20).1 = Some (20, 20) ∧
  ∀ fuel : nat,
    (query_at_segment_cells fuel 0 0 20 20).2 = false ∧
    ((2 < fuel)%nat →
       (query_at_segment_cells fuel 0 0 20 20).1 !! 2%nat = Some (2, 0)) ∧
    ∀ c, c ∈ (query_at_segment_cells fuel 0 0 20 20).1 → c.2 = 0.
Proof.
  split; [vm_compute; reflexivity |].
  split; [vm_compute; reflexivity |].
  split; [vm_compute; reflexivity |].
  intros fuel.
  destruct (query_at_segment_cells_stuck fuel 0 0 20 20 ltac:(lia))
    as (Hfin & Hlen & Hcells).
  split; [exact Hfin |]. split.
  - intros Hfuel. rewrite (Hcells 2%nat Hfuel). reflexivity.
  - intros c Hc. apply list_elem_of_lookup in Hc as [i Hi].
    assert (Hlt : (i < fuel)%nat)
      by (rewrite <- Hlen; apply lookup_lt_is_Some; eauto).
    rewrite (Hcells i Hlt) in Hi. injection Hi as <-. reflexivity.
Qed.

End TestHarness.

(** ** The theorems at concrete inputs *)

Section Instances.

#[local] Existing Instance Murmur.
#[local] Existing Instance FastRange.

Lemma exhausted_full_table : exhausted 10 full_table 0 0 0.
Proof.
  intros i Hi.
  do 11 (destruct i as [| i];
         [eexists; split; vm_compute; reflexivity |]).
  lia.
Qed.

Lemma wf_populated_table : wf populated_table.
Proof. split; [vm_compute; split; reflexivity | vm_compute; reflexivity]. Qed.

Lemma generations_ok_populated_table : generations_ok populated_table.
Proof.
  unfold populated_table.
  destruct (insert_at_cell 10 (make 1 8) 3 4 7 0) as [sh | |] eqn:H;
    try apply generations_ok_make.
  eapply (generations_ok_insert_at_cell 10); [| exact H].
  apply generations_ok_make.
Qed.

(** C1 at the first resolution on the test table. *)
Lemma get_bucket_probe_sequence_fresh :
  ∃ (k : nat) b sh',
    (k ≤ 10)%nat ∧
    get_bucket_probes 10 spatial_hash 0 0 0 =
      Done (map (probe_index spatial_hash 0 0 0) (seq 0 (S k)),
            probe_index spatial_hash 0 0 0 k, sh') ∧
    _hash_table spatial_hash !! probe_index spatial_hash 0 0 0 k = Some b ∧
    (claimed spatial_hash b = false ∧
       sh' = claim spatial_hash (probe_index spatial_hash 0 0 0 k) 0 0 ∧
       _hash_table sh' !! probe_index spatial_hash 0 0 0 k
         = Some (HashBucket.mk 0 0 (_current_round spatial_hash) [])
     ∨ claimed spatial_hash b = true ∧ same_cell 0 0 b = true ∧
       sh' = spatial_hash
     ∨ foreign spatial_hash 0 0 b = true ∧ k = 10%nat ∧ sh' = spatial_hash).
Proof.
  destruct (get_bucket_probe_sequence 10 spatial_hash 0 0 0
              wf_spatial_hash Murmur_FastRange_in_range)
    as (k & b & sh' & Hk & Hrun & _ & _ & _ & Hb & Hcases).
  exists k, b, sh'. auto.
Defined.

(** C2 on a table whose two buckets are claimed by the cells (5,5) and
    (6,6). *)
Lemma get_bucket_exhausted_full_table :
  get_bucket_probes 10 full_table 0 0 0 =
    Done (map (probe_index full_table 0 0 0) (seq 0 11),
          probe_index full_table 0 0 0 10, full_table) ∧
  get_bucket 10 full_table 0 0 0 =
    Done (probe_index full_table 0 0 0 10, full_table).
Proof.
  apply (get_bucket_exhausted 10 full_table 0 0 0). exact exhausted_full_table.
Defined.

Lemma not_exhausted_fresh : ¬ exhausted 10 spatial_hash 0 0 0.
Proof.
  intros Hex. destruct (Hex 0%nat ltac:(lia)) as (b & Hb & Hf).
  vm_compute in Hb. injection Hb as <-. vm_compute in Hf. discriminate.
Qed.

(** C6 on the test table. *)
Lemma insert_then_query_fresh :
  ∃ sh1 sh2 result',
    insert_at_cell 10 spatial_hash 0 0 7 0 = Done sh1 ∧
    ¬ exhausted 10 sh1 0 0 0 ∧
    query_at_cell 10 sh1 [] 0 0 0 = Done (sh2, result') ∧
    7 ∈ result'.
Proof.
  exact (insert_then_query 10 spatial_hash [] 0 0 7 0
           wf_spatial_hash Murmur_FastRange_in_range not_exhausted_fresh).
Defined.

(** C7 on a table with a cell populated in generation 0. *)
Lemma reset_clears_populated_table :
  let sh' := reset populated_table 1 8 in
  _current_round sh' = _current_round populated_table + 1 ∧
  _inv_cell_size sh' = (1 / 1)%float ∧
  _table_size sh' = 8 ∧
  (8 = _table_size populated_table →
     _hash_table sh' = _hash_table populated_table) ∧
  (8 ≠ _table_size populated_table →
     _hash_table sh' =
       resize (Z.to_nat 8) HashBucket.default (_hash_table populated_table)) ∧
  (∀ x y salt,
     ∃ sh'', query_at_cell 10 sh' [] x y salt = Done (sh'', [])).
Proof.
  apply (reset_clears_all_cells 10 populated_table 1 8).
  - exact wf_populated_table.
  - exact generations_ok_populated_table.
  - exact Murmur_FastRange_in_range.
  - vm_compute. reflexivity.
  - lia.
Defined.

(** C9 at the first query of the test table. *)
Lemma query_claims_stale_bucket_fresh :
  claim spatial_hash 336 0 0 ≠ spatial_hash ∧
  ∀ result,
    query_at_cell 10 spatial_hash result 0 0 0
      = Done (claim spatial_hash 336 0 0, result).
Proof.
  destruct (query_claims_stale_bucket 10 spatial_hash 0 0 0 336
              (claim spatial_hash 336 0 0) HashBucket.default)
    as (_ & Hne & _ & Hcell & _).
  - vm_compute. reflexivity.
  - vm_compute. reflexivity.
  - reflexivity.
  - split; [exact Hne | exact Hcell].
Defined.

End Instances.

(** * More of the code *)

(** ** Tables within one generation *)

Section EvolutionFacts.

Context {Value : Type}.
Context {HF : HashFunction} {RF : ReduceFunction}.
Variable REHASH_ROUNDS : nat.

Local Abbreviation Table := (SpatialHash Value).
Local Abbreviation Bucket := (HashBucket.t Value).

Implicit Types (sh : Table) (b : Bucket) (x y salt : Z) (result : list Value).

Lemma grows_refl b : grows b b.
Proof. repeat split. exists []. symmetry. apply app_nil_r. Qed.

Lemma grows_trans b1 b2 b3 : grows b1 b2 → grows b2 b3 → grows b1 b3.
Proof.
  intros (Hx & Hy & Hc & m & Hm) (Hx' & Hy' & Hc' & m' & Hm').
  repeat split; try congruence.
  exists (m ++ m'). rewrite Hm', Hm. symmetry. apply app_assoc.
Qed.

Lemma grows_claimed sh sh' b b' :
  _current_round sh' = _current_round sh → grows b b' →
  claimed sh' b' = claimed sh b.
Proof. intros Hr (_ & _ & Hc & _). unfold claimed. rewrite Hr, Hc. reflexivity. Qed.

Lemma grows_same_cell x y b b' : grows b b' → same_cell x y b' = same_cell x y b.
Proof. intros (Hx & Hy & _). unfold same_cell. rewrite Hx, Hy. reflexivity. Qed.

Lemma grows_foreign sh sh' x y b b' :
  _current_round sh' = _current_round sh → grows b b' →
  foreign sh' x y b' = foreign sh x y b.
Proof.
  intros Hr Hg. unfold foreign.
  rewrite (grows_claimed sh sh' b b' Hr Hg), (grows_same_cell x y b b' Hg).
  reflexivity.
Qed.

Lemma evolves_refl sh : evolves sh sh.
Proof. repeat split. intros i b Hb _. exists b. split; [exact Hb | apply grows_refl]. Qed.

Lemma evolves_trans sh1 sh2 sh3 :
  evolves sh1 sh2 → evolves sh2 sh3 → evolves sh1 sh3.
Proof.
  intros (Hr & Hs & Hc & Hl & Hb) (Hr' & Hs' & Hc' & Hl' & Hb').
  repeat split; try congruence.
  intros i b Hi Hcl. destruct (Hb i b Hi Hcl) as (b2 & Hi2 & Hg).
  destruct (Hb' i b2 Hi2) as (b3 & Hi3 & Hg').
  - rewrite (grows_claimed sh1 sh2 b b2 Hr Hg). exact Hcl.
  - exists b3. split; [exact Hi3 | exact (grows_trans _ _ _ Hg Hg')].
Qed.

Lemma wf_evolves sh sh' : wf sh → evolves sh sh' → wf sh'.
Proof.
  intros [Hsz Hlen] (_ & Hs & _ & Hl & _). unfold wf. rewrite Hs, Hl. auto.
Qed.

Lemma get_bucket_evolves sh x y salt i sh' :
  get_bucket REHASH_ROUNDS sh x y salt = Done (i, sh') → evolves sh sh'.
Proof.
  intros H. apply get_bucket_done in H as (b & Hb & ->).
  destruct (claimed sh b) eqn:Hc; [apply evolves_refl |].
  unfold evolves, claim. simpl. rewrite length_insert. repeat split.
  intros j bj Hj Hcj. exists bj. split; [| apply grows_refl].
  rewrite list_lookup_insert_ne; [exact Hj |].
  intros ->. rewrite Hb in Hj. injection Hj as <-. congruence.
Qed.

Lemma push_back_evolves sh i b value :
  _hash_table sh !! i = Some b → evolves sh (push_back sh i b value).
Proof.
  intros Hb. unfold evolves, push_back. simpl. rewrite length_insert.
  repeat split. intros j bj Hj _.
  destruct (decide (i = j)) as [<- | Hne].
  - rewrite Hb in Hj. injection Hj as <-.
    rewrite list_lookup_insert_eq by (apply lookup_lt_is_Some; eauto).
    eexists. split; [reflexivity |]. repeat split. simpl. eauto.
  - rewrite list_lookup_insert_ne by exact Hne.
    exists bj. split; [exact Hj | apply grows_refl].
Qed.

Lemma insert_at_cell_evolves sh x y value salt sh1 :
  insert_at_cell REHASH_ROUNDS sh x y value salt = Done sh1 → evolves sh sh1.
Proof.
  intros H. apply insert_at_cell_inv in H as (i & sh' & b & Hg & Hb & ->).
  eapply evolves_trans; [exact (get_bucket_evolves _ _ _ _ _ _ Hg) |].
  apply push_back_evolves. exact Hb.
Qed.

Lemma query_at_cell_evolves sh result x y salt sh' result' :
  query_at_cell REHASH_ROUNDS sh result x y salt = Done (sh', result') →
  evolves sh sh'.
Proof.
  intros H. apply query_at_cell_inv in H as (i & b & Hg & _).
  exact (get_bucket_evolves _ _ _ _ _ _ Hg).
Qed.

(** *** Settled resolutions *)

Lemma get_bucket_settles sh x y salt i sh1 :
  wf sh → index_in_range →
  get_bucket REHASH_ROUNDS sh x y salt = Done (i, sh1) →
  settled REHASH_ROUNDS sh1 x y salt i.
Proof.
  intros Hwf Hrange Hg.
  destruct (get_bucket_resolves REHASH_ROUNDS sh x y salt Hwf Hrange)
    as (k & b & sh' & Hk & Hpre & Hb & Hstop & Hg' & Hsh' & _).
  rewrite Hg in Hg'. injection Hg' as -> ->.
  set (idx := probe_index sh x y salt k) in *.
  assert (Hlt : (idx < length (_hash_table sh))%nat)
    by (apply lookup_lt_is_Some; eauto).
  assert (Hr : _current_round sh' = _current_round sh) by (rewrite Hsh'; reflexivity).
  assert (Hidx : ∀ j, probe_index sh' x y salt j = probe_index sh x y salt j).
  { intros j. apply probe_index_ext; rewrite Hsh'; reflexivity. }
  assert (Hlk : _hash_table sh' !! idx = Some (resolved sh x y b)).
  { rewrite Hsh'. simpl. apply list_lookup_insert_eq. exact Hlt. }
  assert (Hres : claimed sh (resolved sh x y b) = true ∧
                 same_cell x y (resolved sh x y b)
                   = (if claimed sh b then same_cell x y b else true)).
  { unfold resolved. destruct (claimed sh b) eqn:Hc; [auto |].
    unfold claimed, same_cell. simpl. rewrite !Z.eqb_refl. auto. }
  destruct Hres as [Hrc Hrs].
  exists k, (resolved sh x y b). split; [exact Hk |].
  split; [rewrite Hidx; reflexivity |]. split.
  { intros j Hj. destruct (Hpre j Hj) as (bj & Hbj & Hfj).
    rewrite Hidx.
    destruct (decide (probe_index sh x y salt j = idx)) as [Heq | Hne].
    - rewrite Heq in Hbj |- *. rewrite Hb in Hbj. injection Hbj as <-.
      exists (resolved sh x y b). split; [exact Hlk |].
      rewrite (foreign_ext sh sh') by exact Hr.
      unfold resolved. destruct (foreign_true _ _ _ _ Hfj) as [Hc _].
      rewrite Hc. exact Hfj.
    - exists bj. split.
      + rewrite Hsh'. simpl. rewrite list_lookup_insert_ne by auto. exact Hbj.
      + rewrite (foreign_ext sh sh') by exact Hr. exact Hfj. }
  split; [exact Hlk |]. split.
  { unfold claimed in *. rewrite Hr. exact Hrc. }
  rewrite Hrs. unfold foreign in Hstop.
  destruct (claimed sh b); [| left; reflexivity].
  destruct (same_cell x y b); [left; reflexivity |].
  destruct Hstop as [? | ?]; [discriminate | right; assumption].
Qed.

Lemma settled_evolves sh sh' x y salt i :
  settled REHASH_ROUNDS sh x y salt i → evolves sh sh' →
  settled REHASH_ROUNDS sh' x y salt i.
Proof.
  intros (k & b & Hk & Hi & Hpre & Hb & Hc & Hs) (Hr & Hsz & _ & _ & Hev).
  assert (Hidx : ∀ j, probe_index sh' x y salt j = probe_index sh x y salt j)
    by (intros j; apply probe_index_ext; assumption).
  destruct (Hev i b Hb Hc) as (b' & Hb' & Hg).
  exists k, b'. split; [exact Hk |]. split; [rewrite Hidx; exact Hi |].
  split.
  { intros j Hj. destruct (Hpre j Hj) as (bj & Hbj & Hfj).
    destruct (Hev _ bj Hbj) as (bj' & Hbj' & Hgj).
    { apply foreign_true in Hfj. tauto. }
    exists bj'. rewrite Hidx. split; [exact Hbj' |].
    rewrite (grows_foreign sh sh' x y bj bj' Hr Hgj). exact Hfj. }
  split; [exact Hb' |]. split.
  - rewrite (grows_claimed sh sh' b b' Hr Hg). exact Hc.
  - rewrite (grows_same_cell x y b b' Hg). exact Hs.
Qed.

Lemma settled_run sh x y salt i :
  settled REHASH_ROUNDS sh x y salt i →
  get_bucket REHASH_ROUNDS sh x y salt = Done (i, sh).
Proof.
  intros (k & b & Hk & -> & Hpre & Hb & Hc & Hs).
  unfold get_bucket.
  rewrite (get_bucket_probes_run REHASH_ROUNDS sh x y salt k b Hk Hpre Hb).
  - rewrite Hc. reflexivity.
  - destruct Hs as [Hs | Hs]; [left | right; exact Hs].
    unfold foreign. rewrite Hs, Hc. reflexivity.
Qed.

End EvolutionFacts.

(** ** What the operations keep within a generation *)

Section Generation.

Context {Value : Type}.
Context {HF : HashFunction} {RF : ReduceFunction}.
Variable REHASH_ROUNDS : nat.

Local Abbreviation Table := (SpatialHash Value).
Local Abbreviation Bucket := (HashBucket.t Value).

Implicit Types (sh : Table) (b : Bucket) (x y salt : Z) (result : list Value).

Lemma for_each_evolves {A : Type} (body : A → Table → outcome Table) l :
  (∀ a s s', body a s = Done s' → evolves s s') →
  ∀ s s', for_each body l s = Done s' → evolves s s'.
Proof.
  intros Hbody s s'. apply (for_each_done (evolves s)); [| apply evolves_refl].
  intros a s1 s2 Hs1 H. eapply evolves_trans; [exact Hs1 | eauto].
Qed.

Lemma insert_at_aabb_evolves sh (tlx tly brx bry : real) value salt sh' :
  insert_at_aabb REHASH_ROUNDS sh tlx tly brx bry value salt = Done sh' →
  evolves sh sh'.
Proof.
  unfold insert_at_aabb. intros H.
  destruct (cell sh tlx) as [x0 | |]; simpl in H; try discriminate.
  destruct (cell sh tly) as [y0 | |]; simpl in H; try discriminate.
  destruct (cell sh brx) as [x1 | |]; simpl in H; try discriminate.
  destruct (cell sh bry) as [y1 | |]; simpl in H; try discriminate.
  apply (aabb_loops_done
           (λ i j sh, insert_at_cell REHASH_ROUNDS sh i j value salt)) in H.
  revert H. apply for_each_evolves. intros i s s'.
  apply for_each_evolves. intros j s1 s2. apply insert_at_cell_evolves.
Qed.

Lemma query_at_aabb_evolves sh result (tlx tly brx bry : real) salt sh' result' :
  query_at_aabb REHASH_ROUNDS sh result tlx tly brx bry salt
    = Done (sh', result') →
  evolves sh sh'.
Proof.
  unfold query_at_aabb. intros H.
  destruct (cell sh tlx) as [x0 | |]; simpl in H; try discriminate.
  destruct (cell sh tly) as [y0 | |]; simpl in H; try discriminate.
  destruct (cell sh brx) as [x1 | |]; simpl in H; try discriminate.
  destruct (cell sh bry) as [y1 | |]; simpl in H; try discriminate.
  apply (aabb_loops_done
           (λ i j '(sh, result), query_at_cell REHASH_ROUNDS sh result i j salt))
    in H.
  apply (query_at_aabb_loop_inv REHASH_ROUNDS (λ p, evolves sh p.1) salt)
    in H; [exact H | | apply evolves_refl].
  intros s r cx cy s' r' Hs Hq. simpl in *.
  eapply evolves_trans; [exact Hs |].
  exact (query_at_cell_evolves _ _ _ _ _ _ _ _ Hq).
Qed.

Lemma insert_at_segment_evolves (fuel : nat) sh (sx sy ex ey : real)
    value salt sh' :
  insert_at_segment REHASH_ROUNDS fuel sh sx sy ex ey value salt = Done sh' →
  evolves sh sh'.
Proof.
  unfold insert_at_segment. intros H.
  destruct (cell sh sx) as [x0 | |]; simpl in H; try discriminate.
  destruct (cell sh sy) as [y0 | |]; simpl in H; try discriminate.
  destruct (cell sh ex) as [x1 | |]; simpl in H; try discriminate.
  destruct (cell sh ey) as [y1 | |]; simpl in H; try discriminate.
  cbv zeta in H. rewrite insert_at_segment_loop_cells in H. cbv zeta in H.
  match type of H with
  | context [for_each ?body ?l sh] =>
      destruct (for_each body l sh) as [s1 | |] eqn:Hfold
  end; simpl in H; try discriminate.
  destruct (segment_loop_cells _ _ _ _ _ _ _ _ _ _).2; [| discriminate].
  injection H as <-. revert Hfold. apply for_each_evolves.
  intros c s s'. apply insert_at_cell_evolves.
Qed.

Lemma query_at_segment_evolves (fuel : nat) sh result (sx sy ex ey : real)
    salt sh' result' :
  query_at_segment REHASH_ROUNDS fuel sh result sx sy ex ey salt
    = Done (sh', result') →
  evolves sh sh'.
Proof.
  unfold query_at_segment. intros H.
  destruct (cell sh sx) as [x0 | |]; simpl in H; try discriminate.
  destruct (cell sh sy) as [y0 | |]; simpl in H; try discriminate.
  destruct (cell sh ex) as [x1 | |]; simpl in H; try discriminate.
  destruct (cell sh ey) as [y1 | |]; simpl in H; try discriminate.
  cbv zeta in H.
  apply (query_at_segment_loop_inv REHASH_ROUNDS (λ p, evolves sh p.1) salt)
    in H; [exact H | | apply evolves_refl].
  intros s r cx cy s' r' Hs Hq. simpl in *.
  eapply evolves_trans; [exact Hs |].
  exact (query_at_cell_evolves _ _ _ _ _ _ _ _ Hq).
Qed.

End Generation.

(** ** Cells within a generation *)

Section CellsInAGeneration.

Context {Value : Type}.
Context {HF : HashFunction} {RF : ReduceFunction}.
Variable REHASH_ROUNDS : nat.

Local Abbreviation Table := (SpatialHash Value).
Local Abbreviation Bucket := (HashBucket.t Value).

Implicit Types (sh : Table) (b : Bucket) (x y salt : Z) (result : list Value).

(** X1: no operation takes a value out of a bucket of the current
    generation or hands the bucket to another cell.  Whatever [get_bucket],
    an insertion or a query returns is a later table of the same
    generation: same scalar members, and every bucket that was claimed is
    still claimed by the same cell, its values followed by those pushed
    since. *)
Theorem operations_keep_claimed_buckets :
  (∀ sh x y salt i sh',
     get_bucket REHASH_ROUNDS sh x y salt = Done (i, sh') → evolves sh sh') ∧
  (∀ sh x y value salt sh',
     insert_at_cell REHASH_ROUNDS sh x y value salt = Done sh' →
     evolves sh sh') ∧
  (∀ sh (tlx tly brx bry : real) value salt sh',
     insert_at_aabb REHASH_ROUNDS sh tlx tly brx bry value salt = Done sh' →
     evolves sh sh') ∧
  (∀ (fuel : nat) sh (sx sy ex ey : real) value salt sh',
     insert_at_segment REHASH_ROUNDS fuel sh sx sy ex ey value salt = Done sh' →
     evolves sh sh') ∧
  (∀ sh result x y salt sh' result',
     query_at_cell REHASH_ROUNDS sh result x y salt = Done (sh', result') →
     evolves sh sh') ∧
  (∀ sh result (tlx tly brx bry : real) salt sh' result',
     query_at_aabb REHASH_ROUNDS sh result tlx tly brx bry salt
       = Done (sh', result') →
     evolves sh sh') ∧
  (∀ (fuel : nat) sh result (sx sy ex ey : real) salt sh' result',
     query_at_segment REHASH_ROUNDS fuel sh result sx sy ex ey salt
       = Done (sh', result') →
     evolves sh sh').
Proof.
  repeat apply conj.
  - apply get_bucket_evolves.
  - apply insert_at_cell_evolves.
  - apply insert_at_aabb_evolves.
  - apply insert_at_segment_evolves.
  - apply query_at_cell_evolves.
  - apply query_at_aabb_evolves.
  - apply query_at_segment_evolves.
Qed.

(** X2: [get_bucket] can be repeated.  Once it has resolved [(x, y, salt)]
    to bucket [i], it resolves the same key to the same bucket in every
    later table of the generation, and leaves that table as it is: the
    bucket is not claimed or cleared a second time. *)
Theorem get_bucket_repeatable sh x y salt i sh1 sh2 :
  wf sh → index_in_range →
  get_bucket REHASH_ROUNDS sh x y salt = Done (i, sh1) →
  evolves sh1 sh2 →
  get_bucket REHASH_ROUNDS sh2 x y salt = Done (i, sh2).
Proof.
  intros Hwf Hrange Hg Hev. apply settled_run.
  eapply settled_evolves; [| exact Hev].
  exact (get_bucket_settles REHASH_ROUNDS sh x y salt i sh1 Hwf Hrange Hg).
Qed.

Lemma inserted_value_settled sh x y value salt sh1 :
  wf sh → index_in_range →
  insert_at_cell REHASH_ROUNDS sh x y value salt = Done sh1 →
  ∃ i b1 old,
    settled REHASH_ROUNDS sh1 x y salt i ∧
    _hash_table sh1 !! i = Some b1 ∧ claimed sh1 b1 = true ∧
    HashBucket.data b1 = old ++ [value].
Proof.
  intros Hwf Hrange H.
  apply insert_at_cell_inv in H as (i & sh' & b & Hg & Hb & ->).
  pose proof (get_bucket_settles REHASH_ROUNDS sh x y salt i sh' Hwf Hrange Hg)
    as Hset.
  pose proof (push_back_evolves sh' i b value Hb) as Hev.
  pose proof (settled_evolves REHASH_ROUNDS _ _ x y salt i Hset Hev) as Hset1.
  destruct Hset1 as (k & b1 & Hk & Hi & Hpre & Hb1 & Hc1 & Hs1).
  exists i, b1, (HashBucket.data b). split.
  - exists k, b1. auto 7.
  - split; [exact Hb1 |]. split; [exact Hc1 |].
    unfold push_back in Hb1. simpl in Hb1.
    rewrite list_lookup_insert_eq in Hb1 by (apply lookup_lt_is_Some; eauto).
    injection Hb1 as <-. reflexivity.
Qed.

(** A query finds what was inserted earlier in the generation. *)
Lemma insert_then_later_query sh result x y value salt sh1 sh2 :
  wf sh → index_in_range →
  insert_at_cell REHASH_ROUNDS sh x y value salt = Done sh1 →
  evolves sh1 sh2 →
  ∃ found,
    query_at_cell REHASH_ROUNDS sh2 result x y salt
      = Done (sh2, found ++ result) ∧
    value ∈ found.
Proof.
  intros Hwf Hrange Hins Hev.
  destruct (inserted_value_settled sh x y value salt sh1 Hwf Hrange Hins)
    as (i & b1 & old & Hset & Hb1 & Hc1 & Hd1).
  pose proof (settled_run REHASH_ROUNDS sh2 x y salt i
                (settled_evolves REHASH_ROUNDS _ _ _ _ _ _ Hset Hev)) as Hg2.
  destruct Hev as (_ & _ & _ & _ & Hev).
  destruct (Hev i b1 Hb1 Hc1) as (b2 & Hb2 & _ & _ & _ & more & Hd2).
  exists (HashBucket.data b2). split.
  - exact (query_at_cell_run REHASH_ROUNDS sh2 result x y salt i sh2 b2 Hg2 Hb2).
  - rewrite Hd2, Hd1, !elem_of_app, list_elem_of_singleton. auto.
Qed.

(** X3: an inserted value stays.  After [insert_at_cell] of [value] at
    [(x, y, salt)], a query of the same cell and salt on any later table of
    the generation, whatever was inserted or queried in between, leaves
    that table as it is and puts [value] in the output sequence. *)
Theorem inserted_value_stays sh result x y value salt sh1 sh2 :
  wf sh → index_in_range →
  insert_at_cell REHASH_ROUNDS sh x y value salt = Done sh1 →
  evolves sh1 sh2 →
  ∃ found,
    query_at_cell REHASH_ROUNDS sh2 result x y salt
      = Done (sh2, found ++ result) ∧
    value ∈ found.
Proof. apply insert_then_later_query. Qed.

(** X4: a bucket keeps the order of insertion, duplicates included.  Two
    insertions at the same cell and salt, then a query: the two values are
    in the output sequence next to each other, the first inserted first,
    behind the values the bucket held and in front of the prior contents
    of the output sequence. *)
Theorem inserts_keep_order sh result x y value1 value2 salt :
  wf sh → index_in_range →
  ∃ sh1 sh2 old,
    insert_at_cell REHASH_ROUNDS sh x y value1 salt = Done sh1 ∧
    insert_at_cell REHASH_ROUNDS sh1 x y value2 salt = Done sh2 ∧
    query_at_cell REHASH_ROUNDS sh2 result x y salt
      = Done (sh2, old ++ [value1; value2] ++ result).
Proof.
  intros Hwf Hrange.
  destruct (insert_at_cell_total REHASH_ROUNDS sh x y value1 salt Hwf Hrange)
    as (sh1 & Hins1 & Hwf1).
  destruct (inserted_value_settled sh x y value1 salt sh1 Hwf Hrange Hins1)
    as (i & b1 & old & Hset & Hb1 & Hc1 & Hd1).
  pose proof (settled_run REHASH_ROUNDS sh1 x y salt i Hset) as Hg1.
  pose proof (insert_at_cell_run REHASH_ROUNDS sh1 x y value2 salt i sh1 b1
                Hg1 Hb1) as Hins2.
  pose proof (push_back_evolves sh1 i b1 value2 Hb1) as Hev.
  pose proof (settled_run REHASH_ROUNDS _ x y salt i
                (settled_evolves REHASH_ROUNDS _ _ _ _ _ _ Hset Hev)) as Hg2.
  exists sh1, (push_back sh1 i b1 value2), old.
  split; [exact Hins1 |]. split; [exact Hins2 |].
  erewrite query_at_cell_run; [| exact Hg2 |].
  2:{ unfold push_back. simpl. apply list_lookup_insert_eq.
      apply lookup_lt_is_Some. eauto. }
  simpl. rewrite Hd1, <- !app_assoc. reflexivity.
Qed.

(** The bucket that a resolution within its probe budget returns is the
    cell's own. *)
Lemma get_bucket_owner sh x y salt i sh1 :
  wf sh → index_in_range →
  ¬ exhausted REHASH_ROUNDS sh x y salt →
  get_bucket REHASH_ROUNDS sh x y salt = Done (i, sh1) →
  ∃ b1, _hash_table sh1 !! i = Some b1 ∧ claimed sh1 b1 = true ∧
        same_cell x y b1 = true.
Proof.
  intros Hwf Hrange Hnex Hg.
  destruct (get_bucket_resolves REHASH_ROUNDS sh x y salt Hwf Hrange)
    as (k & b & sh' & Hk & Hpre & Hb & Hstop & Hg' & Hsh' & _).
  rewrite Hg in Hg'. injection Hg' as -> ->.
  assert (Hnf : foreign sh x y b = false).
  { destruct (foreign sh x y b) eqn:Hf; [| reflexivity].
    destruct Hstop as [? | ->]; [discriminate |].
    exfalso. apply Hnex. intros j Hj.
    destruct (decide (j = REHASH_ROUNDS)) as [-> | Hne]; [eauto |].
    apply Hpre. lia. }
  exists (resolved sh x y b). split.
  - rewrite Hsh'. simpl. apply list_lookup_insert_eq.
    apply lookup_lt_is_Some. eauto.
  - unfold claimed at 1. rewrite Hsh'. simpl. fold (claimed sh (resolved sh x y b)).
    unfold resolved, foreign in *. destruct (claimed sh b) eqn:Hc.
    + split; [exact Hc |]. simpl in Hnf. apply negb_false_iff in Hnf. exact Hnf.
    + unfold claimed, same_cell. simpl. rewrite !Z.eqb_refl. auto.
Qed.

(** X5: cells with different coordinates have different buckets, unless a
    probe budget is exhausted.  If [(xa, ya, sa)] is resolved within its
    budget to bucket [i] and later in the generation [(xb, yb, sb)], of
    other coordinates, is resolved within its budget to bucket [j], then
    [i] and [j] differ. *)
Theorem cells_do_not_share sh xa ya sa xb yb sb i j sh1 sh2 sh3 :
  wf sh → index_in_range →
  (xa, ya) ≠ (xb, yb) →
  ¬ exhausted REHASH_ROUNDS sh xa ya sa →
  get_bucket REHASH_ROUNDS sh xa ya sa = Done (i, sh1) →
  evolves sh1 sh2 →
  ¬ exhausted REHASH_ROUNDS sh2 xb yb sb →
  get_bucket REHASH_ROUNDS sh2 xb yb sb = Done (j, sh3) →
  i ≠ j.
Proof.
  intros Hwf Hrange Hne HnA HgA Hev HnB HgB Heq. subst j.
  assert (Hwf2 : wf sh2).
  { eapply wf_evolves; [| exact Hev].
    exact (get_bucket_wf REHASH_ROUNDS _ _ _ _ _ _ Hwf HgA). }
  destruct (get_bucket_owner sh xa ya sa i sh1 Hwf Hrange HnA HgA)
    as (b1 & Hb1 & Hc1 & Hs1).
  destruct (get_bucket_owner sh2 xb yb sb i sh3 Hwf2 Hrange HnB HgB)
    as (b3 & Hb3 & Hc3 & Hs3).
  pose proof (evolves_trans _ _ _ Hev (get_bucket_evolves REHASH_ROUNDS _ _ _ _ _ _ HgB))
    as (_ & _ & _ & _ & Hev3).
  destruct (Hev3 i b1 Hb1 Hc1) as (b3' & Hb3' & Hx & Hy & _).
  rewrite Hb3 in Hb3'. injection Hb3' as <-.
  unfold same_cell in *.
  apply andb_true_iff in Hs1 as [Hx1 Hy1]. apply andb_true_iff in Hs3 as [Hx3 Hy3].
  apply Z.eqb_eq in Hx1, Hy1, Hx3, Hy3. apply Hne. f_equal; congruence.
Qed.

(** X6: [insert_at_cell] and [query_at_cell] write to one bucket at most,
    the one [get_bucket] returns: every other bucket, the number of buckets,
    the generation and the cell scale are as they were. *)
Theorem cell_operations_touch_one_bucket sh x y salt :
  (∀ value sh1,
     insert_at_cell REHASH_ROUNDS sh x y value salt = Done sh1 →
     ∃ i sh', get_bucket REHASH_ROUNDS sh x y salt = Done (i, sh') ∧
       (∀ j, j ≠ i → _hash_table sh1 !! j = _hash_table sh !! j) ∧
       length (_hash_table sh1) = length (_hash_table sh) ∧
       _table_size sh1 = _table_size sh ∧
       _current_round sh1 = _current_round sh ∧
       _inv_cell_size sh1 = _inv_cell_size sh) ∧
  (∀ result sh1 result',
     query_at_cell REHASH_ROUNDS sh result x y salt = Done (sh1, result') →
     ∃ i, get_bucket REHASH_ROUNDS sh x y salt = Done (i, sh1) ∧
       (∀ j, j ≠ i → _hash_table sh1 !! j = _hash_table sh !! j) ∧
       length (_hash_table sh1) = length (_hash_table sh) ∧
       _table_size sh1 = _table_size sh ∧
       _current_round sh1 = _current_round sh ∧
       _inv_cell_size sh1 = _inv_cell_size sh).
Proof.
  assert (Hframe : ∀ i sh',
            get_bucket REHASH_ROUNDS sh x y salt = Done (i, sh') →
            ∀ j, j ≠ i → _hash_table sh' !! j = _hash_table sh !! j).
  { intros i sh' Hg j Hj. apply get_bucket_done in Hg as (b & Hb & ->).
    destruct (claimed sh b); [reflexivity |].
    apply claim_lookup_ne. auto. }
  split.
  - intros value sh1 H.
    apply insert_at_cell_inv in H as (i & sh' & b & Hg & Hb & ->).
    destruct (get_bucket_post _ _ _ _ _ _ _ Hg) as (Hr & Hs & Hc & Hl & _).
    exists i, sh'. split; [exact Hg |].
    unfold push_back. simpl. rewrite length_insert.
    repeat split; try assumption.
    intros j Hj. rewrite list_lookup_insert_ne by auto. eauto.
  - intros result sh1 result' H.
    apply query_at_cell_inv in H as (i & b & Hg & _).
    destruct (get_bucket_post _ _ _ _ _ _ _ Hg) as (Hr & Hs & Hc & Hl & _).
    exists i. repeat split; eauto.
Qed.

(** X7: under probe exhaustion a cell uses the bucket of another cell.
    When every probe of [(x, y, salt)] lands on a foreign bucket,
    [insert_at_cell] pushes the value into the bucket of the last probe,
    which keeps the coordinates of the cell that claimed it, and
    [query_at_cell] returns the values of that bucket. *)
Theorem exhausted_cell_aliases sh result x y value salt :
  exhausted REHASH_ROUNDS sh x y salt →
  ∃ b, _hash_table sh !! probe_index sh x y salt REHASH_ROUNDS = Some b ∧
       same_cell x y b = false ∧
       insert_at_cell REHASH_ROUNDS sh x y value salt
         = Done (push_back sh (probe_index sh x y salt REHASH_ROUNDS) b value) ∧
       query_at_cell REHASH_ROUNDS sh result x y salt
         = Done (sh, HashBucket.data b ++ result).
Proof.
  intros Hex.
  destruct (Hex REHASH_ROUNDS (Nat.le_refl _)) as (b & Hb & Hf).
  assert (Hg : get_bucket REHASH_ROUNDS sh x y salt
               = Done (probe_index sh x y salt REHASH_ROUNDS, sh)).
  { unfold get_bucket.
    rewrite (get_bucket_probes_run REHASH_ROUNDS sh x y salt REHASH_ROUNDS b
               (Nat.le_refl _) (λ j Hj, Hex j (Nat.lt_le_incl _ _ Hj)) Hb
               (or_intror eq_refl)).
    apply foreign_true in Hf as [-> _]. reflexivity. }
  exists b. split; [exact Hb |]. split; [apply foreign_true in Hf; tauto |].
  split.
  - exact (insert_at_cell_run REHASH_ROUNDS sh x y value salt _ sh b Hg Hb).
  - exact (query_at_cell_run REHASH_ROUNDS sh result x y salt _ sh b Hg Hb).
Qed.

End CellsInAGeneration.

(** ** Values of earlier generations *)

Section CurrentValues.

Context {Value : Type}.
Context {HF : HashFunction} {RF : ReduceFunction}.
Variable REHASH_ROUNDS : nat.

Local Abbreviation Table := (SpatialHash Value).
Local Abbreviation Bucket := (HashBucket.t Value).

Implicit Types (sh : Table) (b : Bucket) (x y salt : Z) (result : list Value).

Lemma get_bucket_current_only (P : Value → Prop) sh x y salt i sh' :
  current_only P sh →
  get_bucket REHASH_ROUNDS sh x y salt = Done (i, sh') →
  current_only P sh' ∧
  ∃ b', _hash_table sh' !! i = Some b' ∧ Forall P (HashBucket.data b').
Proof.
  intros HP Hg. apply get_bucket_done in Hg as (b & Hb & ->).
  destruct (claimed sh b) eqn:Hc; [eauto |].
  assert (Hlt : (i < length (_hash_table sh))%nat)
    by (apply lookup_lt_is_Some; eauto).
  split.
  - intros j bj Hj Hcj. destruct (decide (i = j)) as [<- | Hne].
    + rewrite claim_lookup in Hj by exact Hlt. injection Hj as <-. constructor.
    + rewrite claim_lookup_ne in Hj by exact Hne. exact (HP j bj Hj Hcj).
  - rewrite claim_lookup by exact Hlt. eexists. split; [reflexivity | constructor].
Qed.

Lemma insert_at_cell_current_only (P : Value → Prop) sh x y value salt sh1 :
  current_only P sh → P value →
  insert_at_cell REHASH_ROUNDS sh x y value salt = Done sh1 →
  current_only P sh1.
Proof.
  intros HP Hv H.
  apply insert_at_cell_inv in H as (i & sh' & b & Hg & Hb & ->).
  destruct (get_bucket_current_only P sh x y salt i sh' HP Hg)
    as (HP' & b' & Hb' & Hdata).
  rewrite Hb in Hb'. injection Hb' as <-.
  intros j bj Hj Hcj. unfold push_back in Hj. simpl in Hj.
  destruct (decide (i = j)) as [<- | Hne].
  - rewrite list_lookup_insert_eq in Hj by (apply lookup_lt_is_Some; eauto).
    injection Hj as <-. simpl. apply Forall_app. split; [exact Hdata |].
    constructor; [exact Hv | constructor].
  - rewrite list_lookup_insert_ne in Hj by exact Hne. exact (HP' j bj Hj Hcj).
Qed.

Lemma reset_current_only (P : Value → Prop) sh (cell_size : real)
    (table_size : Z) :
  generations_ok sh → _current_round sh + 1 < 2 ^ 32 - 1 →
  current_only P (reset sh cell_size table_size).
Proof.
  intros Hok Hlt i b Hb Hc.
  destruct (reset_stale sh cell_size table_size Hok Hlt) as [_ Hstale].
  pose proof (Forall_lookup_1 _ _ _ _ Hstale Hb) as Hf. simpl in Hf. congruence.
Qed.

Lemma insertions_current_only (P : Value → Prop)
    (l : list (Z * Z * Value * Z)) :
  ∀ s0 s1,
    current_only P s0 →
    Forall (λ '(_, _, value, _), P value) l →
    for_each (λ '(cx, cy, value, s) sh,
                insert_at_cell REHASH_ROUNDS sh cx cy value s) l s0 = Done s1 →
    current_only P s1.
Proof.
  induction l as [| [[[cx cy] value] s] l IH]; intros s0 s1 HP0 Hall H;
    simpl in H.
  - injection H as <-. exact HP0.
  - destruct (insert_at_cell _ s0 cx cy value s) as [s' | |] eqn:H1;
      simpl in H; try discriminate.
    inversion Hall as [| e l' Hv Hall']; subst.
    eapply IH; [| exact Hall' | exact H].
    eapply insert_at_cell_current_only; [exact HP0 | exact Hv | exact H1].
Qed.

(** X8: no value of an earlier generation comes out of a query.  After
    [reset], while the generation counter is not exhausted, whatever values
    are inserted at whatever cells, the values that a query puts in the
    output sequence are among those inserted since the [reset]. *)
Theorem queries_return_this_generation_only sh (cell_size : real)
    (table_size : Z) (insertions : list (Z * Z * Value * Z))
    sh1 result x y salt sh2 result' :
  generations_ok sh → _current_round sh + 1 < 2 ^ 32 - 1 →
  for_each (λ '(cx, cy, value, s) sh, insert_at_cell REHASH_ROUNDS sh cx cy value s)
    insertions (reset sh cell_size table_size) = Done sh1 →
  query_at_cell REHASH_ROUNDS sh1 result x y salt = Done (sh2, result') →
  ∃ found, result' = found ++ result ∧
    ∀ v, v ∈ found → v ∈ map (λ '(_, _, value, _), value) insertions.
Proof.
  intros Hok Hlt Hins Hq.
  set (P := λ v : Value, v ∈ map (λ '(_, _, value, _), value) insertions).
  assert (HP1 : current_only P sh1).
  { eapply insertions_current_only; [| | exact Hins].
    - exact (reset_current_only P sh cell_size table_size Hok Hlt).
    - apply Forall_forall. intros [[[cx cy] value] s] He. unfold P.
      apply list_elem_of_fmap. exists (cx, cy, value, s).
      split; [reflexivity | apply list_elem_of_In; exact He]. }
  apply query_at_cell_inv in Hq as (i & b & Hg & Hb & ->).
  destruct (get_bucket_current_only P sh1 x y salt i sh2 HP1 Hg)
    as (_ & b' & Hb' & Hdata).
  rewrite Hb in Hb'. injection Hb' as <-.
  exists (HashBucket.data b). split; [reflexivity |].
  intros v Hv. rewrite Forall_forall in Hdata. apply Hdata.
  apply list_elem_of_In. exact Hv.
Qed.

(** X9: a table is empty when constructed.  On
    [SpatialHash(cell_size, table_size)] the first probe of any key lands on
    a bucket that was never claimed: [get_bucket] claims it after that one
    probe, and a query returns the output sequence as it was given. *)
Theorem fresh_table_is_empty (cell_size : real) (table_size : Z)
    result x y salt :
  0 < table_size < 2 ^ 32 → index_in_range →
  ∃ i : nat,
    get_bucket_probes REHASH_ROUNDS (make cell_size table_size) x y salt
      = Done ([i], i, claim (make (Value := Value) cell_size table_size) i x y) ∧
    query_at_cell REHASH_ROUNDS (make cell_size table_size) result x y salt
      = Done (claim (make cell_size table_size) i x y, result).
Proof.
  intros Hn Hrange.
  set (sh := make (Value := Value) cell_size table_size).
  assert (Hwf : wf sh) by (apply wf_make; exact Hn).
  destruct (probe_in_range sh x y salt Hwf Hrange 0%nat) as [b0 Hb0].
  assert (Hdef : b0 = HashBucket.default).
  { unfold sh, make in Hb0. simpl in Hb0. rewrite resize_nil in Hb0.
    apply lookup_replicate in Hb0. tauto. }
  assert (Hc0 : claimed sh b0 = false) by (subst b0; reflexivity).
  assert (Hrun := get_bucket_probes_run REHASH_ROUNDS sh x y salt 0 b0
                    (Nat.le_0_l _) (λ j Hj, match Nat.nlt_0_r j Hj with end)
                    Hb0).
  rewrite Hc0 in Hrun.
  specialize (Hrun ltac:(left; unfold foreign; rewrite Hc0; reflexivity)).
  exists (probe_index sh x y salt 0). split; [exact Hrun |].
  assert (Hg : get_bucket REHASH_ROUNDS sh x y salt
               = Done (probe_index sh x y salt 0,
                       claim sh (probe_index sh x y salt 0) x y))
    by (unfold get_bucket; rewrite Hrun; reflexivity).
  rewrite (query_at_cell_run REHASH_ROUNDS sh result x y salt _ _ _ Hg
             (claim_lookup sh _ x y (proj1 (lookup_lt_is_Some _ _)
                                       (ex_intro _ b0 Hb0)))).
  reflexivity.
Qed.

End CurrentValues.

(** ** Where the matched values go *)

Lemma for_each_app {A S : Type} (body : A → S → outcome S) l1 l2 s :
  for_each body (l1 ++ l2) s = s' ← for_each body l1 s; for_each body l2 s'.
Proof.
  revert s. induction l1 as [| a l1 IH]; intros s; simpl; [reflexivity |].
  destruct (body a s) as [s1 | |]; simpl; [apply IH | reflexivity | reflexivity].
Qed.

Lemma for_each_map {A B S : Type} (f : A → B) (body : B → S → outcome S) l s :
  for_each body (map f l) s = for_each (λ a, body (f a)) l s.
Proof.
  revert s. induction l as [| a l IH]; intros s; simpl; [reflexivity |].
  destruct (body (f a) s); simpl; auto.
Qed.

Lemma for_each_flat_map {A B S : Type} (f : A → list B)
    (body : B → S → outcome S) l s :
  for_each body (flat_map f l) s = for_each (λ a, for_each body (f a)) l s.
Proof.
  revert s. induction l as [| a l IH]; intros s; simpl; [reflexivity |].
  rewrite for_each_app.
  destruct (for_each body (f a) s); simpl; auto.
Qed.

(** The nested loops of the box operations are one loop over
    [aabb_cells]. *)
Lemma for_each_aabb_cells {S : Type} (body : Z → Z → S → outcome S)
    x0 y0 x1 y1 s :
  for_each (λ i, for_each (body i) (seqZ y0 (y1 - y0 + 1)))
    (seqZ x0 (x1 - x0 + 1)) s
  = for_each (λ c, body c.1 c.2) (aabb_cells x0 y0 x1 y1) s.
Proof.
  unfold aabb_cells. rewrite for_each_flat_map.
  apply for_each_ext. intros i s1. rewrite for_each_map. reflexivity.
Qed.

Section QueryOutput.

Context {Value : Type}.
Context {HF : HashFunction} {RF : ReduceFunction}.
Variable REHASH_ROUNDS : nat.

Local Abbreviation Table := (SpatialHash Value).
Local Abbreviation Bucket := (HashBucket.t Value).

Implicit Types (sh : Table) (b : Bucket) (x y salt : Z) (result : list Value).

Lemma keeps_refl sh : keeps sh sh.
Proof. repeat split. auto. Qed.

Lemma keeps_evolves sh sh' : keeps sh sh' → evolves sh sh'.
Proof.
  intros (Hr & Hs & Hc & Hl & Hb). repeat split; try assumption.
  intros i b Hi Hcl. exists b. split; [auto | apply grows_refl].
Qed.

Lemma keeps_trans sh1 sh2 sh3 : keeps sh1 sh2 → keeps sh2 sh3 → keeps sh1 sh3.
Proof.
  intros (Hr & Hs & Hc & Hl & Hb) (Hr' & Hs' & Hc' & Hl' & Hb').
  repeat split; try congruence.
  intros i b Hi Hcl. apply Hb'; [apply Hb; assumption |].
  unfold claimed in *. rewrite Hr. exact Hcl.
Qed.

(** [get_bucket] writes to a bucket that is not claimed, if it writes. *)
Lemma get_bucket_keeps sh x y salt i sh' :
  get_bucket REHASH_ROUNDS sh x y salt = Done (i, sh') → keeps sh sh'.
Proof.
  intros H. apply get_bucket_done in H as (b & Hb & ->).
  destruct (claimed sh b) eqn:Hc; [apply keeps_refl |].
  unfold keeps, claim. simpl. rewrite length_insert. repeat split.
  intros j bj Hj Hcj.
  rewrite list_lookup_insert_ne; [exact Hj |].
  intros ->. rewrite Hb in Hj. injection Hj as <-. congruence.
Qed.

(** The values that a query of cell [c] puts in front of the output
    sequence on [sh], which it leaves as it is. *)
Local Abbreviation answers sh salt :=
  (λ (c : Z * Z) (values : list Value),
     query_at_cell REHASH_ROUNDS sh [] c.1 c.2 salt = Done (sh, values)).

(** Queries of a sequence of cells: what each cell contributes goes in
    front of what the cells before it contributed, and is what a query of
    that cell returns on the table the sequence leaves. *)
Lemma query_cells_output salt :
  index_in_range →
  ∀ (cells : list (Z * Z)) sh result sh' result',
    wf sh →
    for_each (λ c '(sh, result),
                query_at_cell REHASH_ROUNDS sh result c.1 c.2 salt)
      cells (sh, result) = Done (sh', result') →
    keeps sh sh' ∧
    ∃ matched : list (list Value),
      result' = concat (reverse matched) ++ result ∧
      Forall2 (answers sh' salt) cells matched.
Proof.
  intros Hrange. induction cells as [| c cells IH];
    intros sh result sh' result' Hwf H; simpl in H.
  - injection H as <- <-. split; [apply keeps_refl |].
    exists []. split; [reflexivity | constructor].
  - destruct (query_at_cell _ sh result c.1 c.2 salt) as [[sh1 r1] | |] eqn:Hq;
      simpl in H; try discriminate.
    apply query_at_cell_inv in Hq as (i & b & Hg & Hb & ->).
    pose proof (get_bucket_settles REHASH_ROUNDS sh c.1 c.2 salt i sh1
                  Hwf Hrange Hg) as Hset.
    pose proof (get_bucket_wf REHASH_ROUNDS _ _ _ _ _ _ Hwf Hg) as Hwf1.
    destruct (IH sh1 _ sh' result' Hwf1 H) as (Hk & ms & -> & Hall).
    split.
    { eapply keeps_trans; [exact (get_bucket_keeps _ _ _ _ _ _ Hg) | exact Hk]. }
    exists (HashBucket.data b :: ms). split.
    + rewrite reverse_cons, concat_app. simpl.
      rewrite app_nil_r, <- app_assoc. reflexivity.
    + constructor; [| exact Hall].
      pose proof (settled_evolves REHASH_ROUNDS sh1 sh' c.1 c.2 salt i Hset
                    (keeps_evolves _ _ Hk)) as Hset'.
      assert (Hb' : _hash_table sh' !! i = Some b).
      { destruct Hk as (_ & _ & _ & _ & Hkeep). apply Hkeep; [exact Hb |].
        destruct Hset as (k & b0 & _ & _ & _ & Hb0 & Hc0 & _).
        rewrite Hb in Hb0. injection Hb0 as <-. exact Hc0. }
      rewrite (query_at_cell_run REHASH_ROUNDS sh' [] c.1 c.2 salt i sh' b
                 (settled_run REHASH_ROUNDS sh' c.1 c.2 salt i Hset') Hb').
      rewrite app_nil_r. reflexivity.
Qed.

(** C5 (as amended): what [result.insert(result.begin(), ...)] does.  On a
    well-formed table [query_at_cell] returns with the values of the
    resolved bucket, in bucket order, placed in front of the prior contents
    of the output sequence, which stay unchanged and in order at its end;
    so does [query_at_point] wherever the coordinates convert to cells.
    [query_at_aabb] over a box whose second corner is in a column and a row
    below [INT_MAX] returns, and a [query_at_segment] call that returns
    has, with the values of the cells they visited in front of the prior
    contents: those of the cell visited last first, for each cell the
    values that a query of that cell returns on the table they leave. *)
Theorem query_prepends sh salt :
  wf sh → index_in_range →
  (∀ result x y,
     ∃ idx sh' b,
       get_bucket REHASH_ROUNDS sh x y salt = Done (idx, sh') ∧
       _hash_table sh' !! idx = Some b ∧
       query_at_cell REHASH_ROUNDS sh result x y salt
         = Done (sh', HashBucket.data b ++ result)) ∧
  (∀ result (px py : real) x y,
     cell sh px = Done x → cell sh py = Done y →
     ∃ idx sh' b,
       get_bucket REHASH_ROUNDS sh x y salt = Done (idx, sh') ∧
       _hash_table sh' !! idx = Some b ∧
       query_at_point REHASH_ROUNDS sh result px py salt
         = Done (sh', HashBucket.data b ++ result)) ∧
  (∀ result (tlx tly brx bry : real) x0 y0 x1 y1,
     cell sh tlx = Done x0 → cell sh tly = Done y0 →
     cell sh brx = Done x1 → cell sh bry = Done y1 →
     x1 < INT_MAX → y1 < INT_MAX →
     ∃ sh' (matched : list (list Value)),
       query_at_aabb REHASH_ROUNDS sh result tlx tly brx bry salt
         = Done (sh', concat (reverse matched) ++ result) ∧
       Forall2 (λ (c : Z * Z) values,
                  query_at_cell REHASH_ROUNDS sh' [] c.1 c.2 salt
                    = Done (sh', values))
         (aabb_cells x0 y0 x1 y1) matched) ∧
  (∀ (fuel : nat) result (sx sy ex ey : real) x0 y0 x1 y1 sh' result',
     cell sh sx = Done x0 → cell sh sy = Done y0 →
     cell sh ex = Done x1 → cell sh ey = Done y1 →
     query_at_segment REHASH_ROUNDS fuel sh result sx sy ex ey salt
       = Done (sh', result') →
     ∃ matched : list (list Value),
       result' = concat (reverse matched) ++ result ∧
       Forall2 (λ (c : Z * Z) values,
                  query_at_cell REHASH_ROUNDS sh' [] c.1 c.2 salt
                    = Done (sh', values))
         (query_at_segment_cells fuel x0 y0 x1 y1).1 matched).
Proof.
  intros Hwf Hrange. repeat apply conj.
  - intros result x y.
    destruct (query_at_cell_total REHASH_ROUNDS sh result x y salt Hwf Hrange)
      as (idx & sh' & b & Hg & Hb & Hq & _).
    eauto 6.
  - intros result px py x y Hx Hy.
    destruct (query_at_cell_total REHASH_ROUNDS sh result x y salt Hwf Hrange)
      as (idx & sh' & b & Hg & Hb & Hq & _).
    rewrite (query_at_point_cell REHASH_ROUNDS sh result px py x y salt Hx Hy).
    eauto 6.
  - intros result tlx tly brx bry x0 y0 x1 y1 Hx0 Hy0 Hx1 Hy1 Hx1m Hy1m.
    destruct (query_at_aabb_total REHASH_ROUNDS sh result tlx tly brx bry
                x0 y0 x1 y1 salt Hwf Hrange Hx0 Hy0 Hx1 Hy1 Hx1m Hy1m)
      as (sh' & m & Hq & _).
    pose proof Hq as Hrun. unfold query_at_aabb in Hrun.
    rewrite Hx0, Hy0, Hx1, Hy1 in Hrun.
    cbn [mbind outcome_mbind outcome_bind] in Hrun.
    apply (aabb_loops_done
             (λ i j '(sh, result), query_at_cell REHASH_ROUNDS sh result i j salt))
      in Hrun.
    rewrite (for_each_aabb_cells
               (λ i j '(sh, result),
                  query_at_cell REHASH_ROUNDS sh result i j salt)) in Hrun.
    apply (query_cells_output salt Hrange) in Hrun as (_ & ms & Hms & Hall);
      [| exact Hwf].
    exists sh', ms. rewrite Hq, Hms. auto.
  - intros fuel result sx sy ex ey x0 y0 x1 y1 sh' result' Hx0 Hy0 Hx1 Hy1 H.
    unfold query_at_segment in H. rewrite Hx0, Hy0, Hx1, Hy1 in H.
    cbn [mbind outcome_mbind outcome_bind] in H. cbv zeta in H.
    rewrite query_at_segment_loop_cells in H. cbv zeta in H.
    change (segment_loop_cells fuel x0 y0 x1 y1 (Z.abs (x1 - x0))
              (Z.abs (y1 - y0)) (if x0 <? x1 then 1 else -1)
              (if y0 <? y1 then 1 else -1)
              (Z.abs (x1 - x0) + Z.abs (y1 - y0)))
      with (query_at_segment_cells fuel x0 y0 x1 y1) in H.
    destruct (for_each _ (query_at_segment_cells fuel x0 y0 x1 y1).1 (sh, result))
      as [[s r] | |] eqn:Hrun;
      cbn [mbind outcome_mbind outcome_bind] in H; try discriminate.
    destruct (query_at_segment_cells fuel x0 y0 x1 y1).2; [| discriminate].
    injection H as <- <-.
    apply (query_cells_output salt Hrange) in Hrun as (_ & ms & Hms & Hall);
      [| exact Hwf].
    exists ms. auto.
Qed.

End QueryOutput.

(** ** Boxes and segments *)

Section Shapes.

Context {Value : Type}.
Context {HF : HashFunction} {RF : ReduceFunction}.
Variable REHASH_ROUNDS : nat.

Local Abbreviation Table := (SpatialHash Value).
Local Abbreviation Bucket := (HashBucket.t Value).

Implicit Types (sh : Table) (b : Bucket) (x y salt : Z) (result : list Value).

(** A loop over [l] runs its body on every element of [l]. *)
Lemma for_each_reaches {A : Type} (body : A → Table → outcome Table) a :
  (∀ a s s', body a s = Done s' → evolves s s') →
  ∀ l s s', a ∈ l → for_each body l s = Done s' →
    ∃ s1 s2, evolves s s1 ∧ body a s1 = Done s2 ∧ evolves s2 s'.
Proof.
  intros Hbody. induction l as [| a0 l IH]; intros s s' Ha H.
  - apply elem_of_nil in Ha. contradiction.
  - simpl in H. destruct (body a0 s) as [s0 | |] eqn:H0; simpl in H;
      try discriminate.
    apply elem_of_cons in Ha as [-> | Ha].
    + exists s, s0. split; [apply evolves_refl |]. split; [exact H0 |].
      exact (for_each_evolves body l Hbody s0 s' H).
    + destruct (IH s0 s' Ha H) as (s1 & s2 & Hev1 & Hb & Hev2).
      exists s1, s2. split; [| auto].
      eapply evolves_trans; [exact (Hbody _ _ _ H0) | exact Hev1].
Qed.

Lemma for_each_skip {A S : Type} (body : A → S → outcome S) l s :
  (∀ a s, body a s = Done s) → for_each body l s = Done s.
Proof.
  intros Hbody. induction l as [| a l IH]; simpl; [reflexivity |].
  rewrite Hbody. simpl. exact IH.
Qed.

(** X10: [insert_at_aabb] reaches every cell of the box.  After the
    insertion, on any later table of the generation, a query of any cell
    [(i, j)] with [i] between the columns and [j] between the rows of the
    two corners puts the inserted value in the output sequence. *)
Theorem insert_at_aabb_covers sh result (tlx tly brx bry : real)
    x0 y0 x1 y1 value salt sh1 sh2 (i j : Z) :
  wf sh → index_in_range →
  cell sh tlx = Done x0 → cell sh tly = Done y0 →
  cell sh brx = Done x1 → cell sh bry = Done y1 →
  insert_at_aabb REHASH_ROUNDS sh tlx tly brx bry value salt = Done sh1 →
  evolves sh1 sh2 →
  x0 ≤ i ≤ x1 → y0 ≤ j ≤ y1 →
  ∃ found,
    query_at_cell REHASH_ROUNDS sh2 result i j salt
      = Done (sh2, found ++ result) ∧
    value ∈ found.
Proof.
  intros Hwf Hrange Hx0 Hy0 Hx1 Hy1 Hins Hev Hi Hj.
  unfold insert_at_aabb in Hins. rewrite Hx0, Hy0, Hx1, Hy1 in Hins.
  cbn [mbind outcome_mbind outcome_bind] in Hins.
  apply (aabb_loops_done
           (λ i j sh, insert_at_cell REHASH_ROUNDS sh i j value salt)) in Hins.
  assert (Hinner : ∀ (a : Z) s s',
            for_each (λ j0 sh0, insert_at_cell REHASH_ROUNDS sh0 a j0 value salt)
              (seqZ y0 (y1 - y0 + 1)) s = Done s' → evolves s s').
  { intros a. apply for_each_evolves. intros j0 s s'.
    apply insert_at_cell_evolves. }
  destruct (for_each_reaches
              (λ a, for_each (λ j0 sh0,
                                insert_at_cell REHASH_ROUNDS sh0 a j0 value salt)
                      (seqZ y0 (y1 - y0 + 1)))
              i Hinner (seqZ x0 (x1 - x0 + 1)) sh sh1)
    as (s1 & s2 & Hev1 & Hrow & Hev2).
  { apply elem_of_seqZ. lia. }
  { exact Hins. }
  destruct (for_each_reaches
              (λ j0 sh0, insert_at_cell REHASH_ROUNDS sh0 i j0 value salt) j
              (λ j0 s s', insert_at_cell_evolves REHASH_ROUNDS s i j0 value salt s')
              (seqZ y0 (y1 - y0 + 1)) s1 s2) as (s3 & s4 & Hev3 & Hcell & Hev4).
  { apply elem_of_seqZ. lia. }
  { exact Hrow. }
  apply (insert_then_later_query REHASH_ROUNDS s3 result i j value salt s4 sh2).
  - eapply wf_evolves; [exact Hwf |].
    eapply evolves_trans; [exact Hev1 | exact Hev3].
  - exact Hrange.
  - exact Hcell.
  - eapply evolves_trans; [exact Hev4 |].
    eapply evolves_trans; [exact Hev2 | exact Hev].
Qed.

(** X11: the corners of a box are not put in order.  When the cell of the
    second corner is in a column to the left of the first one's, or in a
    row above it and in a column below [INT_MAX] (at [INT_MAX] the
    increment of the outer loop overflows), [insert_at_aabb] inserts
    nothing and [query_at_aabb] finds nothing: the table and the output
    sequence are returned as they were. *)
Theorem aabb_of_swapped_corners sh result (tlx tly brx bry : real)
    x0 y0 x1 y1 value salt :
  cell sh tlx = Done x0 → cell sh tly = Done y0 →
  cell sh brx = Done x1 → cell sh bry = Done y1 →
  x1 < x0 ∨ (y1 < y0 ∧ x1 < INT_MAX) →
  insert_at_aabb REHASH_ROUNDS sh tlx tly brx bry value salt = Done sh ∧
  query_at_aabb REHASH_ROUNDS sh result tlx tly brx bry salt
    = Done (sh, result).
Proof.
  intros Hx0 Hy0 Hx1 Hy1 Hswap.
  unfold insert_at_aabb, query_at_aabb. rewrite Hx0, Hy0, Hx1, Hy1.
  cbn [mbind outcome_mbind outcome_bind].
  rewrite (aabb_loops_below
             (λ i j sh, insert_at_cell REHASH_ROUNDS sh i j value salt)),
    (aabb_loops_below
       (λ i j '(sh, result), query_at_cell REHASH_ROUNDS sh result i j salt))
    by (destruct Hswap as [H | [H H']]; auto).
  destruct Hswap as [Hx | [Hy _]].
  - rewrite (seqZ_nil x0) by lia. split; reflexivity.
  - rewrite (seqZ_nil y0) by lia.
    split; apply for_each_skip; reflexivity.
Qed.

(** X12: a box, or a segment, within one cell is that cell.  With both
    points in the cell [(x, y)], [insert_at_segment] (one iteration of its
    loop) does what [insert_at_cell] and [insert_at_point] do, and
    [query_at_segment] what [query_at_cell] and [query_at_point] do; so do
    [insert_at_aabb] and [query_at_aabb] when neither the column nor the
    row of the cell is [INT_MAX], where the increment after the one
    iteration overflows and they do not return. *)
Theorem shapes_within_one_cell sh result (px py qx qy : real) x y value salt
    (fuel : nat) :
  cell sh px = Done x → cell sh py = Done y →
  cell sh qx = Done x → cell sh qy = Done y →
  insert_at_point REHASH_ROUNDS sh px py value salt
    = insert_at_cell REHASH_ROUNDS sh x y value salt ∧
  insert_at_segment REHASH_ROUNDS (S fuel) sh px py qx qy value salt
    = insert_at_cell REHASH_ROUNDS sh x y value salt ∧
  query_at_point REHASH_ROUNDS sh result px py salt
    = query_at_cell REHASH_ROUNDS sh result x y salt ∧
  query_at_segment REHASH_ROUNDS (S fuel) sh result px py qx qy salt
    = query_at_cell REHASH_ROUNDS sh result x y salt ∧
  (x < INT_MAX → y < INT_MAX →
   insert_at_aabb REHASH_ROUNDS sh px py qx qy value salt
     = insert_at_cell REHASH_ROUNDS sh x y value salt ∧
   query_at_aabb REHASH_ROUNDS sh result px py qx qy salt
     = query_at_cell REHASH_ROUNDS sh result x y salt) ∧
  (x = INT_MAX ∨ y = INT_MAX →
   (∀ sh', insert_at_aabb REHASH_ROUNDS sh px py qx qy value salt ≠ Done sh') ∧
   (∀ s', query_at_aabb REHASH_ROUNDS sh result px py qx qy salt ≠ Done s')).
Proof.
  intros Hpx Hpy Hqx Hqy.
  unfold insert_at_point, insert_at_aabb, insert_at_segment,
    query_at_point, query_at_aabb, query_at_segment.
  rewrite Hpx, Hpy, Hqx, Hqy.
  cbn [mbind outcome_mbind outcome_bind]. cbv zeta.
  cbn [insert_at_segment_loop query_at_segment_loop].
  rewrite !Z.eqb_refl. cbn [andb].
  split; [reflexivity |]. split.
  { destruct (insert_at_cell _ sh x y value salt); reflexivity. }
  split; [reflexivity |]. split.
  { destruct (query_at_cell _ sh result x y salt) as [[s r] | |]; reflexivity. }
  split.
  - intros Hx Hy.
    rewrite (aabb_loops_below
               (λ i j sh, insert_at_cell REHASH_ROUNDS sh i j value salt)),
      (aabb_loops_below
         (λ i j '(sh, result), query_at_cell REHASH_ROUNDS sh result i j salt))
      by auto.
    replace (x - x + 1) with 1 by lia. replace (y - y + 1) with 1 by lia.
    change (seqZ x 1) with [x]. change (seqZ y 1) with [y].
    cbn [for_each]. split.
    + destruct (insert_at_cell _ sh x y value salt); reflexivity.
    + destruct (query_at_cell _ sh result x y salt) as [[s r] | |]; reflexivity.
  - intros Hmax. split.
    + intros sh' H. apply for_int_done in H as [H Hxm].
      destruct Hmax as [-> | ->]; [apply Hxm; [lia | reflexivity] |].
      replace (x - x + 1) with 1 in H by lia. change (seqZ x 1) with [x] in H.
      cbn [for_each] in H.
      destruct (for_int _ INT_MAX INT_MAX sh) as [s1 | |] eqn:Hin;
        try discriminate.
      apply for_int_overflows in Hin; [exact Hin | lia].
    + intros s' H. apply for_int_done in H as [H Hxm].
      destruct Hmax as [-> | ->]; [apply Hxm; [lia | reflexivity] |].
      replace (x - x + 1) with 1 in H by lia. change (seqZ x 1) with [x] in H.
      cbn [for_each] in H.
      destruct (for_int _ INT_MAX INT_MAX (sh, result)) as [s1 | |] eqn:Hin;
        try discriminate.
      apply for_int_overflows in Hin; [exact Hin | lia].
Qed.

End Shapes.

(** ** The path of [insert_at_segment] *)

Lemma segment_loop_cells_head (fuel : nat) (x0 y0 x1 y1 dx dy sx sy err : Z) :
  (segment_loop_cells (S fuel) x0 y0 x1 y1 dx dy sx sy err).1 !! 0%nat
    = Some (x0, y0).
Proof.
  rewrite segment_loop_cells_S.
  destruct ((x0 =? x1) && (y0 =? y1)); reflexivity.
Qed.

Lemma segment_loop_cells_ends (x1 y1 dx dy sx sy : Z) :
  ∀ (fuel : nat) (x0 y0 err : Z),
    (segment_loop_cells fuel x0 y0 x1 y1 dx dy sx sy err).2 = true →
    list.last (segment_loop_cells fuel x0 y0 x1 y1 dx dy sx sy err).1
      = Some (x1, y1).
Proof.
  induction fuel as [| fuel IH]; intros x0 y0 err H; [discriminate |].
  rewrite segment_loop_cells_S in H |- *.
  destruct ((x0 =? x1) && (y0 =? y1)) eqn:Hstop.
  - apply andb_true_iff in Hstop as [Hx Hy].
    apply Z.eqb_eq in Hx, Hy. subst. reflexivity.
  - cbv zeta in H |- *. cbn [fst snd] in H |- *.
    match goal with
    | |- list.last (_ :: ?rest.1) = _ =>
        assert (Hlast : list.last rest.1 = Some (x1, y1))
    end.
    { destruct (2 * err >? dy); [| destruct (2 * err <? dx)];
        apply IH; exact H. }
    match goal with
    | |- list.last (_ :: ?l) = _ => destruct l; [discriminate | exact Hlast]
    end.
Qed.

(** Each iteration moves one cell along x, one cell along y, or not at
    all. *)
Lemma segment_loop_cells_steps (x1 y1 dx dy sx sy : Z) :
  ∀ (fuel : nat) (x0 y0 err : Z) (i : nat) c d,
    (segment_loop_cells fuel x0 y0 x1 y1 dx dy sx sy err).1 !! i = Some c →
    (segment_loop_cells fuel x0 y0 x1 y1 dx dy sx sy err).1 !! S i = Some d →
    d = (c.1 + sx, c.2) ∨ d = (c.1, c.2 + sy) ∨ d = c.
Proof.
  induction fuel as [| fuel IH]; intros x0 y0 err i c d Hc Hd;
    [discriminate |].
  rewrite segment_loop_cells_S in Hc, Hd.
  destruct ((x0 =? x1) && (y0 =? y1)); [discriminate |].
  cbv zeta in Hc, Hd. cbn [fst snd] in Hc, Hd.
  destruct i as [| i].
  - simpl in Hc. injection Hc as <-. simpl in Hd.
    destruct fuel as [| fuel].
    { destruct (2 * err >? dy); [| destruct (2 * err <? dx)]; discriminate. }
    destruct (2 * err >? dy); [| destruct (2 * err <? dx)];
      rewrite segment_loop_cells_head in Hd; injection Hd as <-; auto.
  - simpl in Hc, Hd.
    destruct (2 * err >? dy); [| destruct (2 * err <? dx)];
      eapply IH; eauto.
Qed.

(** *** No overflow on the way

    From [(x0, y0)] to [(x0 + D * sx, y0 + E * sy)], both representable,
    with [2 * D] and [3 * E] representable: the error term stays between
    [- 3 * E / 2] and [D], so that [2 * err], the new error term and the
    new coordinate are representable at every iteration. *)

Lemma int_of_in_range (z : Z) : INT_MIN ≤ z ≤ INT_MAX → int_of z = Done z.
Proof.
  intros H. unfold int_of.
  destruct (Z.leb_spec INT_MIN z); [| lia].
  destruct (Z.leb_spec z INT_MAX); [reflexivity | lia].
Qed.

Lemma int_of_done (z z' : Z) : int_of z = Done z' → z' = z ∧ INT_MIN ≤ z ≤ INT_MAX.
Proof.
  unfold int_of. intros H.
  destruct (Z.leb_spec INT_MIN z); [| discriminate].
  destruct (Z.leb_spec z INT_MAX); [| discriminate].
  injection H as <-. auto.
Qed.

Lemma segment_loop_cells_int_S (fuel : nat) (x0 y0 x1 y1 dx dy sx sy err : Z) :
  segment_loop_cells_int (S fuel) x0 y0 x1 y1 dx dy sx sy err =
    if (x0 =? x1) && (y0 =? y1) then Done ([(x0, y0)], true)
    else
      e2 ← int_of (2 * err);
      rest ←
        (if e2 >? dy then
           err' ← int_of (err + dy);
           x0' ← int_of (x0 + sx);
           segment_loop_cells_int fuel x0' y0 x1 y1 dx dy sx sy err'
         else if e2 <? dx then
           err' ← int_of (err + dx);
           y0' ← int_of (y0 + sy);
           segment_loop_cells_int fuel x0 y0' x1 y1 dx dy sx sy err'
         else
           segment_loop_cells_int fuel x0 y0 x1 y1 dx dy sx sy err);
      Done ((x0, y0) :: rest.1, rest.2).
Proof. reflexivity. Qed.

Section BresenhamInt.

Variables (x0 y0 D E sx sy : Z).
Hypothesis D_nonneg : 0 ≤ D.
Hypothesis E_nonneg : 0 ≤ E.
Hypothesis sx_unit : sx = 1 ∨ sx = -1.
Hypothesis sy_unit : sy = 1 ∨ sy = -1.
Hypothesis x0_int : INT_MIN ≤ x0 ≤ INT_MAX.
Hypothesis y0_int : INT_MIN ≤ y0 ≤ INT_MAX.
Hypothesis x1_int : INT_MIN ≤ x0 + D * sx ≤ INT_MAX.
Hypothesis y1_int : INT_MIN ≤ y0 + E * sy ≤ INT_MAX.
Hypothesis D_small : 2 * D ≤ INT_MAX.
Hypothesis E_small : 3 * E ≤ INT_MAX.

Lemma segment_loop_cells_int_agrees :
  ∀ (n : nat) (a b : Z),
    0 ≤ a ≤ D → 0 ≤ b ≤ E → D - a + (E - b) = Z.of_nat n →
    - 3 * E ≤ 2 * ((b + 1) * D - (a + 1) * E) →
    (b + 1) * D - (a + 1) * E ≤ D →
    segment_loop_cells_int (S n) (x0 + a * sx) (y0 + b * sy)
      (x0 + D * sx) (y0 + E * sy) D (- E) sx sy
      ((b + 1) * D - (a + 1) * E)
    = Done (segment_loop_cells (S n) (x0 + a * sx) (y0 + b * sy)
              (x0 + D * sx) (y0 + E * sy) D (- E) sx sy
              ((b + 1) * D - (a + 1) * E)).
Proof.
  induction n as [| n IH]; intros a b Ha Hb Hn Hlow Hhigh.
  - assert (a = D) as -> by lia. assert (b = E) as -> by lia.
    rewrite segment_loop_cells_int_S, segment_loop_cells_S, !Z.eqb_refl.
    reflexivity.
  - rewrite segment_loop_cells_int_S, segment_loop_cells_S.
    assert (Hgo : (x0 + a * sx =? x0 + D * sx) && (y0 + b * sy =? y0 + E * sy)
                  = false).
    { apply andb_false_iff.
      destruct (Z.eq_dec a D) as [-> | Hne].
      - right. apply Z.eqb_neq. destruct sy_unit as [-> | ->]; lia.
      - left. apply Z.eqb_neq. destruct sx_unit as [-> | ->]; lia. }
    rewrite Hgo. cbv zeta.
    set (err := (b + 1) * D - (a + 1) * E) in *.
    rewrite (int_of_in_range (2 * err)) by (unfold INT_MIN, INT_MAX in *; lia).
    cbn [mbind outcome_mbind outcome_bind].
    rewrite Z.gtb_ltb.
    destruct (Z.ltb_spec (- E) (2 * err)) as [Hx | Hx].
    + (* a step along x *)
      assert (Ha' : a < D) by (unfold err in Hx; nia).
      rewrite (int_of_in_range (err + - E))
        by (unfold INT_MIN, INT_MAX in *; lia).
      cbn [mbind outcome_mbind outcome_bind].
      rewrite (int_of_in_range (x0 + a * sx + sx))
        by (destruct sx_unit as [-> | ->]; lia).
      cbn [mbind outcome_mbind outcome_bind].
      pose proof (IH (a + 1) b ltac:(lia) ltac:(lia) ltac:(lia)) as Hrun.
      replace (x0 + (a + 1) * sx) with (x0 + a * sx + sx) in Hrun by lia.
      replace ((b + 1) * D - (a + 1 + 1) * E) with (err + - E) in Hrun
        by (unfold err; lia).
      rewrite Hrun by lia. reflexivity.
    + destruct (Z.ltb_spec (2 * err) D) as [Hy | Hy].
      * (* a step along y *)
        assert (Hb' : b < E) by (unfold err in Hx; nia).
        rewrite (int_of_in_range (err + D))
          by (unfold INT_MIN, INT_MAX in *; lia).
        cbn [mbind outcome_mbind outcome_bind].
        rewrite (int_of_in_range (y0 + b * sy + sy))
          by (destruct sy_unit as [-> | ->]; lia).
        cbn [mbind outcome_mbind outcome_bind].
        pose proof (IH a (b + 1) ltac:(lia) ltac:(lia) ltac:(lia)) as Hrun.
        replace (y0 + (b + 1) * sy) with (y0 + b * sy + sy) in Hrun by lia.
        replace ((b + 1 + 1) * D - (a + 1) * E) with (err + D) in Hrun
          by (unfold err; lia).
        rewrite Hrun by lia. reflexivity.
      * (* neither test holds only at the end point *)
        exfalso. unfold err in Hx, Hy. nia.
Qed.

End BresenhamInt.

(** The declarations before the loop, and the loop. *)
Lemma insert_at_segment_cells_int_agrees (fuel : nat) (x0 y0 x1 y1 : Z) :
  INT_MIN ≤ x0 ≤ INT_MAX → INT_MIN ≤ y0 ≤ INT_MAX →
  INT_MIN ≤ x1 ≤ INT_MAX → INT_MIN ≤ y1 ≤ INT_MAX →
  2 * Z.abs (x1 - x0) ≤ INT_MAX → 3 * Z.abs (y1 - y0) ≤ INT_MAX →
  fuel = S (Z.to_nat (Z.abs (x1 - x0) + Z.abs (y1 - y0))) →
  insert_at_segment_cells_int fuel x0 y0 x1 y1
    = Done (insert_at_segment_cells fuel x0 y0 x1 y1).
Proof.
  intros Hx0 Hy0 Hx1 Hy1 HD HE ->.
  unfold insert_at_segment_cells_int, insert_at_segment_cells, int_abs.
  rewrite (int_of_in_range (x1 - x0)) by (unfold INT_MIN, INT_MAX in *; lia).
  cbn [mbind outcome_mbind outcome_bind].
  rewrite (int_of_in_range (Z.abs (x1 - x0)))
    by (unfold INT_MIN, INT_MAX in *; lia).
  cbn [mbind outcome_mbind outcome_bind].
  rewrite (int_of_in_range (y1 - y0)) by (unfold INT_MIN, INT_MAX in *; lia).
  cbn [mbind outcome_mbind outcome_bind].
  rewrite (int_of_in_range (Z.abs (y1 - y0)))
    by (unfold INT_MIN, INT_MAX in *; lia).
  cbn [mbind outcome_mbind outcome_bind].
  rewrite (int_of_in_range (- Z.abs (y1 - y0)))
    by (unfold INT_MIN, INT_MAX in *; lia).
  cbn [mbind outcome_mbind outcome_bind]. cbv zeta.
  rewrite (int_of_in_range (Z.abs (x1 - x0) + - Z.abs (y1 - y0)))
    by (unfold INT_MIN, INT_MAX in *; lia).
  cbn [mbind outcome_mbind outcome_bind].
  set (D := Z.abs (x1 - x0)) in *. set (E := Z.abs (y1 - y0)) in *.
  set (sx := if x0 <? x1 then 1 else -1).
  set (sy := if y0 <? y1 then 1 else -1).
  assert (Hsx : sx = 1 ∨ sx = -1) by (unfold sx; destruct (x0 <? x1); auto).
  assert (Hsy : sy = 1 ∨ sy = -1) by (unfold sy; destruct (y0 <? y1); auto).
  assert (Ex1 : x1 = x0 + D * sx)
    by (unfold sx, D; destruct (Z.ltb_spec x0 x1); lia).
  assert (Ey1 : y1 = y0 + E * sy)
    by (unfold sy, E; destruct (Z.ltb_spec y0 y1); lia).
  pose proof (segment_loop_cells_int_agrees x0 y0 D E sx sy
                ltac:(unfold D; lia) ltac:(unfold E; lia) Hsx Hsy
                Hx0 Hy0 ltac:(rewrite <- Ex1; exact Hx1)
                ltac:(rewrite <- Ey1; exact Hy1) HD HE
                (Z.to_nat (D + E)) 0 0
                ltac:(unfold D; lia) ltac:(unfold E; lia)
                ltac:(unfold D, E; lia)
                ltac:(unfold D, E; lia) ltac:(unfold D, E; lia)) as Hrun.
  rewrite <- Ex1, <- Ey1 in Hrun.
  replace (x0 + 0 * sx) with x0 in Hrun by lia.
  replace (y0 + 0 * sy) with y0 in Hrun by lia.
  replace ((0 + 1) * D - (0 + 1) * E) with (D + - E) in Hrun by lia.
  exact Hrun.
Qed.

(** X13: the path of [insert_at_segment], where its [int] arithmetic does
    not overflow.  Between two cells with [2 * |x1 - x0|] and
    [3 * |y1 - y0|] at most [INT_MAX], no operation of the loop overflows,
    and the loop leaves after one iteration per cell of a path that starts
    in the first cell, ends in the second, moves one cell along one axis at
    each step (it has no diagonal step), visits
    [|x1 - x0| + |y1 - y0| + 1] cells, no cell twice, and stays inside the
    box of the two cells. *)
Theorem insert_at_segment_path (x0 y0 x1 y1 : Z) :
  INT_MIN ≤ x0 ≤ INT_MAX → INT_MIN ≤ y0 ≤ INT_MAX →
  INT_MIN ≤ x1 ≤ INT_MAX → INT_MIN ≤ y1 ≤ INT_MAX →
  2 * Z.abs (x1 - x0) ≤ INT_MAX → 3 * Z.abs (y1 - y0) ≤ INT_MAX →
  let steps := Z.to_nat (Z.abs (x1 - x0) + Z.abs (y1 - y0)) in
  ∃ cells,
    insert_at_segment_cells_int (S steps) x0 y0 x1 y1 = Done (cells, true) ∧
    insert_at_segment_cells (S steps) x0 y0 x1 y1 = (cells, true) ∧
    length cells = S steps ∧
    list.head cells = Some (x0, y0) ∧
    list.last cells = Some (x1, y1) ∧
    NoDup cells ∧
    connected cells ∧
    Forall (in_box x0 y0 x1 y1) cells.
Proof.
  intros Ix0 Iy0 Ix1 Iy1 HD HE steps.
  rewrite (insert_at_segment_cells_int_agrees (S steps) x0 y0 x1 y1)
    by (assumption || reflexivity).
  unfold insert_at_segment_cells. cbv zeta.
  set (D := Z.abs (x1 - x0)) in *. set (E := Z.abs (y1 - y0)) in *.
  set (sx := if x0 <? x1 then 1 else -1).
  set (sy := if y0 <? y1 then 1 else -1).
  assert (Hsx : sx = 1 ∨ sx = -1) by (unfold sx; destruct (x0 <? x1); auto).
  assert (Hsy : sy = 1 ∨ sy = -1) by (unfold sy; destruct (y0 <? y1); auto).
  assert (Hx1 : x1 = x0 + D * sx)
    by (unfold sx, D; destruct (Z.ltb_spec x0 x1); lia).
  assert (Hy1 : y1 = y0 + E * sy)
    by (unfold sy, E; destruct (Z.ltb_spec y0 y1); lia).
  destruct (segment_loop_cells_finishes x0 y0 D E sx sy
              ltac:(unfold D; lia) ltac:(unfold E; lia) Hsx Hsy
              (Z.to_nat (D + E)) 0 0
              ltac:(unfold D; lia) ltac:(unfold E; lia)
              ltac:(unfold D, E; lia))
    as (cells & Hrun & Hlen & Hhd & Hlast & Hon & Hnd).
  rewrite <- Hx1, <- Hy1 in Hrun, Hlast.
  replace (x0 + 0 * sx) with x0 in Hrun, Hhd by lia.
  replace (y0 + 0 * sy) with y0 in Hrun, Hhd by lia.
  replace ((0 + 1) * D - (0 + 1) * E) with (D + - E) in Hrun by lia.
  exists cells. fold steps in Hrun, Hlen.
  split; [f_equal; exact Hrun |].
  split; [exact Hrun |]. split; [exact Hlen |]. split; [exact Hhd |].
  split; [exact Hlast |]. split; [exact Hnd |]. split.
  - intros i c d Hc Hd.
    assert (Hne : d ≠ c).
    { intros ->. pose proof (NoDup_lookup _ _ _ _ Hnd Hc Hd). lia. }
    pose proof (segment_loop_cells_steps x1 y1 D (- E) sx sy
                  (S steps)
                  x0 y0 (D + - E) i c d) as Hstep.
    rewrite Hrun in Hstep. specialize (Hstep Hc Hd).
    unfold adjacent. destruct Hstep as [-> | [-> | ->]]; [| | contradiction];
      simpl; [destruct Hsx as [-> | ->] | destruct Hsy as [-> | ->]]; lia.
  - eapply Forall_impl; [| exact Hon]. intros c (a' & b' & Ha & Hb & ->).
    unfold in_box. simpl. rewrite Hx1, Hy1.
    destruct Hsx as [-> | ->], Hsy as [-> | ->]; lia.
Qed.

(** ** Segments in the table *)

Section SegmentsInTheTable.

Context {Value : Type}.
Context {HF : HashFunction} {RF : ReduceFunction}.
Variable REHASH_ROUNDS : nat.

Local Abbreviation Table := (SpatialHash Value).

Implicit Types (sh : Table) (salt : Z) (result : list Value).

(** X14: [insert_at_segment] reaches every cell of its path, the two end
    cells among them.  After an insertion that returned, on any later table
    of the generation, a query of any cell of the path puts the inserted
    value in the output sequence. *)
Theorem insert_at_segment_covers (fuel : nat) sh result (sx sy ex ey : real)
    x0 y0 x1 y1 value salt sh1 sh2 :
  wf sh → index_in_range →
  cell sh sx = Done x0 → cell sh sy = Done y0 →
  cell sh ex = Done x1 → cell sh ey = Done y1 →
  insert_at_segment REHASH_ROUNDS fuel sh sx sy ex ey value salt = Done sh1 →
  evolves sh1 sh2 →
  let path := (insert_at_segment_cells fuel x0 y0 x1 y1).1 in
  (x0, y0) ∈ path ∧ (x1, y1) ∈ path ∧
  ∀ c, c ∈ path →
    ∃ found,
      query_at_cell REHASH_ROUNDS sh2 result c.1 c.2 salt
        = Done (sh2, found ++ result) ∧
      value ∈ found.
Proof.
  intros Hwf Hrange Hx0 Hy0 Hx1 Hy1 Hins Hev path.
  unfold insert_at_segment in Hins. rewrite Hx0, Hy0, Hx1, Hy1 in Hins.
  cbn [mbind outcome_mbind outcome_bind] in Hins. cbv zeta in Hins.
  rewrite insert_at_segment_loop_cells in Hins. cbv zeta in Hins.
  change (segment_loop_cells fuel x0 y0 x1 y1 (Z.abs (x1 - x0))
            (- Z.abs (y1 - y0)) (if x0 <? x1 then 1 else -1)
            (if y0 <? y1 then 1 else -1)
            (Z.abs (x1 - x0) + - Z.abs (y1 - y0)))
    with (insert_at_segment_cells fuel x0 y0 x1 y1) in Hins.
  fold path in Hins.
  destruct (for_each _ path sh) as [s1 | |] eqn:Hfold;
    cbn [mbind outcome_mbind outcome_bind] in Hins; try discriminate.
  destruct (insert_at_segment_cells fuel x0 y0 x1 y1).2 eqn:Hfin;
    [| discriminate].
  injection Hins as ->.
  split; [| split].
  - destruct fuel as [| fuel]; [discriminate |].
    apply list_elem_of_lookup. exists 0%nat. apply segment_loop_cells_head.
  - apply last_Some_elem_of. apply segment_loop_cells_ends. exact Hfin.
  - intros c Hc.
    destruct (for_each_reaches
                (λ c sh, insert_at_cell REHASH_ROUNDS sh c.1 c.2 value salt) c
                (λ a s s', insert_at_cell_evolves REHASH_ROUNDS s a.1 a.2 value salt s')
                path sh sh1 Hc Hfold) as (s3 & s4 & Hev3 & Hcell & Hev4).
    apply (insert_then_later_query REHASH_ROUNDS s3 result c.1 c.2 value salt s4 sh2).
    + exact (wf_evolves _ _ Hwf Hev3).
    + exact Hrange.
    + exact Hcell.
    + eapply evolves_trans; [exact Hev4 | exact Hev].
Qed.

End SegmentsInTheTable.

(** ** The tests on arbitrary data *)

Section TestsPass.

#[local] Existing Instance Murmur.
#[local] Existing Instance FastRange.

Implicit Types (sh : SpatialHash Id) (e : Object.t).

Lemma cell_evolves sh sh' (c : real) : evolves sh sh' → cell sh' c = cell sh c.
Proof. intros (_ & _ & Hinv & _). unfold cell. rewrite Hinv. reflexivity. Qed.

(** The coordinates of [e] convert to the cell [(cx, cy)] on [sh]. *)
Lemma convertible_cells (cell_size : real) data sh e :
  convertible cell_size data → _inv_cell_size sh = (1 / cell_size)%float →
  e ∈ data →
  ∃ cx cy, cell sh (Object.x e) = Done cx ∧ cell sh (Object.y e) = Done cy.
Proof.
  intros Hconv Hinv He. unfold convertible in Hconv.
  rewrite Forall_forall in Hconv.
  destruct (Hconv e (proj1 (list_elem_of_In _ _) He)) as (cx & cy & Hx & Hy).
  exists cx, cy. unfold cell. rewrite Hinv. auto.
Qed.

Lemma push_test_data_eq sh data :
  push_test_data sh data = insert_test_data sh data.
Proof. reflexivity. Qed.

Lemma insert_at_point_evolves sh (px py : real) value salt sh' :
  insert_at_point 5 sh px py value salt = Done sh' → evolves sh sh'.
Proof.
  unfold insert_at_point. intros H.
  destruct (cell sh px) as [cx | |]; simpl in H; try discriminate.
  destruct (cell sh py) as [cy | |]; simpl in H; try discriminate.
  exact (insert_at_cell_evolves 5 _ _ _ _ _ _ H).
Qed.

Lemma insert_test_data_total (cell_size : real) data :
  convertible cell_size data →
  ∀ l sh, wf sh → _inv_cell_size sh = (1 / cell_size)%float →
    (∀ e, e ∈ l → e ∈ data) →
    ∃ sh1, insert_test_data sh l = Done sh1.
Proof.
  intros Hconv. induction l as [| e l IH]; intros sh Hwf Hinv Hsub.
  - exists sh. reflexivity.
  - destruct (convertible_cells cell_size data sh e Hconv Hinv)
      as (cx & cy & Hx & Hy); [apply Hsub; left |].
    destruct (insert_at_cell_total 5 sh cx cy (Object.value e)
                (Object.category e) Hwf Murmur_FastRange_in_range)
      as (s1 & Hins & Hwf1).
    assert (Hpt : insert_at_point 5 sh (Object.x e) (Object.y e)
                    (Object.value e) (Object.category e) = Done s1)
      by (unfold insert_at_point; rewrite Hx, Hy; exact Hins).
    unfold insert_test_data in *. cbn [for_each]. rewrite Hpt. simpl.
    apply IH; [exact Hwf1 | |].
    + destruct (insert_at_point_evolves _ _ _ _ _ _ Hpt) as (_ & _ & -> & _).
      exact Hinv.
    + intros e' He'. apply Hsub. right. exact He'.
Qed.

(** After the first loop, the resolution of every element is settled and
    its bucket holds its value. *)
Lemma inserted_test_data_found (cell_size : real) data sh sh1 e :
  convertible cell_size data →
  wf sh → _inv_cell_size sh = (1 / cell_size)%float →
  insert_test_data sh data = Done sh1 →
  e ∈ data →
  ∃ cx cy i b,
    cell sh1 (Object.x e) = Done cx ∧ cell sh1 (Object.y e) = Done cy ∧
    get_bucket 5 sh1 cx cy (Object.category e) = Done (i, sh1) ∧
    _hash_table sh1 !! i = Some b ∧
    Object.value e ∈ HashBucket.data b.
Proof.
  intros Hconv Hwf Hinv Hins He.
  destruct (for_each_reaches
              (λ e sh, insert_at_point 5 sh (Object.x e) (Object.y e)
                         (Object.value e) (Object.category e)) e
              (λ a s s', insert_at_point_evolves s _ _ _ _ s')
              data sh sh1 He Hins) as (s3 & s4 & Hev3 & Hpt & Hev4).
  assert (Hev1 : evolves sh sh1).
  { eapply evolves_trans; [exact Hev3 |].
    eapply evolves_trans; [exact (insert_at_point_evolves _ _ _ _ _ _ Hpt) |].
    exact Hev4. }
  destruct (convertible_cells cell_size data sh e Hconv Hinv He)
    as (cx & cy & Hx & Hy).
  unfold insert_at_point in Hpt.
  rewrite !(cell_evolves sh s3) in Hpt by exact Hev3.
  rewrite Hx, Hy in Hpt. simpl in Hpt.
  destruct (insert_then_later_query 5 s3 [] cx cy (Object.value e)
              (Object.category e) s4 sh1
              (wf_evolves _ _ Hwf Hev3) Murmur_FastRange_in_range Hpt Hev4)
    as (found & Hq & Hin).
  apply query_at_cell_inv in Hq as (i & b & Hg & Hb & Heq).
  apply app_inv_tail in Heq. subst found.
  exists cx, cy, i, b.
  rewrite !(cell_evolves sh sh1) by exact Hev1. auto 6.
Qed.

Lemma existsb_value (v : Id) (l : list Id) :
  v ∈ l → existsb (Z.eqb v) l = true.
Proof.
  intros Hin. apply existsb_exists. exists v.
  split; [apply list_elem_of_In; exact Hin | apply Z.eqb_refl].
Qed.

Lemma query_test_data_passes sh1 :
  ∀ l,
    (∀ e, e ∈ l →
       ∃ cx cy i b,
         cell sh1 (Object.x e) = Done cx ∧ cell sh1 (Object.y e) = Done cy ∧
         get_bucket 5 sh1 cx cy (Object.category e) = Done (i, sh1) ∧
         _hash_table sh1 !! i = Some b ∧
         Object.value e ∈ HashBucket.data b) →
    query_test_data sh1 l = Done (true, sh1) ∧
    ∃ collisions, check_test_data sh1 0 l = Done (true, collisions, sh1).
Proof.
  intros l Hl.
  assert (Hgen : ∀ c0, query_test_data sh1 l = Done (true, sh1) ∧
            ∃ collisions, check_test_data sh1 c0 l = Done (true, collisions, sh1));
    [| exact (Hgen 0)].
  induction l as [| e l IH]; intros c0; [simpl; eauto |].
  destruct (Hl e ltac:(left)) as (cx & cy & i & b & Hx & Hy & Hg & Hb & Hin).
  assert (Hl' : ∀ e', e' ∈ l → _) by (intros e' He'; apply (Hl e'); right; exact He').
  split.
  - cbn [query_test_data]. unfold query_at_point. rewrite Hx, Hy.
    cbn [mbind outcome_mbind outcome_bind].
    rewrite (query_at_cell_run 5 sh1 [] cx cy _ i sh1 b Hg Hb).
    cbn [mbind outcome_mbind outcome_bind].
    rewrite app_nil_r, (existsb_value _ _ Hin). simpl.
    apply (IH Hl' 0).
  - destruct (IH Hl' (if negb (HashBucket.x b =? cx) || negb (HashBucket.y b =? cy)
                      then c0 + 1 else c0)) as [_ [collisions Hrest]].
    exists collisions.
    cbn [check_test_data]. rewrite Hx, Hy.
    cbn [mbind outcome_mbind outcome_bind]. rewrite Hg.
    cbn [mbind outcome_mbind outcome_bind]. unfold Id in *. rewrite Hb.
    cbv zeta. rewrite (existsb_value _ _ Hin). simpl.
    exact Hrest.
Qed.

(** X15: [test_insert_query_point] cannot fail.  Whatever the test data
    (with coordinates that convert to cells) and whatever the positive
    bucket counts of the load factors, every element is found by the query
    at its own point and category after all elements have been inserted,
    collisions and exhausted probe budgets included: the test returns 1. *)
Theorem test_insert_query_point_passes (_cell_size : real)
    (_test_data : list Object.t) (table_sizes : list Z) :
  convertible _cell_size _test_data →
  Forall (λ n, 0 < n < 2 ^ 32) table_sizes →
  test_insert_query_point _cell_size _test_data table_sizes = Done 1.
Proof.
  intros Hconv Hsizes. unfold test_insert_query_point.
  assert (Hwf : wf (make (Value := Id) _cell_size 42)) by (apply wf_make; lia).
  revert Hwf. generalize (make (Value := Id) _cell_size 42).
  induction Hsizes as [| n sizes Hn Hsizes IH]; intros sh Hwf; [reflexivity |].
  cbn [test_insert_query_point_loads]. cbv zeta.
  set (sh0 := reset sh _cell_size n).
  assert (Hwf0 : wf sh0) by (apply wf_reset; assumption).
  assert (Hinv0 : _inv_cell_size sh0 = (1 / _cell_size)%float)
    by apply reset_inv_cell_size.
  destruct (insert_test_data_total _cell_size _test_data Hconv _test_data sh0
              Hwf0 Hinv0 (λ e He, He)) as (sh1 & Hins).
  rewrite Hins. cbn [mbind outcome_mbind outcome_bind].
  destruct (query_test_data_passes sh1 _test_data) as [Hq _].
  { intros e He.
    exact (inserted_test_data_found _cell_size _test_data sh0 sh1 e
             Hconv Hwf0 Hinv0 Hins He). }
  rewrite Hq. cbn [mbind outcome_mbind outcome_bind]. apply IH.
  refine (wf_evolves sh0 sh1 Hwf0 _).
  revert Hins. apply for_each_evolves. intros e s s'.
  apply insert_at_point_evolves.
Qed.

(** X16: [test_get_cell] cannot fail either.  Its first loop is the first
    loop of [test_insert_query_point] written with [get_bucket] and
    [push_back]; in its second loop [get_bucket] returns for every element
    a bucket that holds its value, whatever the counter of collisions
    reaches: the test returns 1. *)
Theorem test_get_cell_passes (_cell_size : real)
    (_test_data : list Object.t) (table_sizes : list Z) :
  convertible _cell_size _test_data →
  Forall (λ n, 0 < n < 2 ^ 32) table_sizes →
  test_get_cell _cell_size _test_data table_sizes = Done 1.
Proof.
  intros Hconv Hsizes. unfold test_get_cell.
  assert (Hwf : wf (make (Value := Id) _cell_size 42)) by (apply wf_make; lia).
  revert Hwf. generalize (make (Value := Id) _cell_size 42).
  induction Hsizes as [| n sizes Hn Hsizes IH]; intros sh Hwf; [reflexivity |].
  cbn [test_get_cell_loads]. cbv zeta. rewrite push_test_data_eq.
  set (sh0 := reset sh _cell_size n).
  assert (Hwf0 : wf sh0) by (apply wf_reset; assumption).
  assert (Hinv0 : _inv_cell_size sh0 = (1 / _cell_size)%float)
    by apply reset_inv_cell_size.
  destruct (insert_test_data_total _cell_size _test_data Hconv _test_data sh0
              Hwf0 Hinv0 (λ e He, He)) as (sh1 & Hins).
  rewrite Hins. cbn [mbind outcome_mbind outcome_bind].
  destruct (query_test_data_passes sh1 _test_data) as [_ [collisions Hq]].
  { intros e He.
    exact (inserted_test_data_found _cell_size _test_data sh0 sh1 e
             Hconv Hwf0 Hinv0 Hins He). }
  rewrite Hq. cbn [mbind outcome_mbind outcome_bind]. apply IH.
  refine (wf_evolves sh0 sh1 Hwf0 _).
  revert Hins. apply for_each_evolves. intros e s s'.
  apply insert_at_point_evolves.
Qed.

End TestsPass.

(** ** The strategies of the header *)

Lemma header_strategies_in_range (HF : HashFunction) (RF : ReduceFunction) :
  HF ∈ [Murmur; xxHash; Custom; Knuth] → RF ∈ [Mod; FastRange] →
  @index_in_range HF RF.
Proof.
  intros HHF HRF.
  apply elem_of_cons in HRF as [-> | HRF]; [apply Mod_in_range |].
  apply list_elem_of_singleton in HRF as ->.
  repeat (apply elem_of_cons in HHF as [-> | HHF];
          [apply FastRange_in_range;
           first [exact Murmur_hash_range | exact xxHash_hash_range
                 | exact Custom_hash_range | exact Knuth_hash_range] |]).
  apply elem_of_nil in HHF. destruct HHF.
Qed.

Section Strategies.

Context {Value : Type}.
Variables (HF : HashFunction) (RF : ReduceFunction).
Variable REHASH_ROUNDS : nat.

Implicit Types (sh : SpatialHash Value) (x y salt : Z).

Lemma cell_int sh (coordinate : real) z :
  cell sh coordinate = Done z → INT_MIN ≤ z ≤ INT_MAX.
Proof.
  unfold cell, to_int. intros H.
  destruct (floor _) as [v |]; [| discriminate].
  destruct (Z.leb_spec INT_MIN v); [| discriminate].
  destruct (Z.leb_spec v INT_MAX); [| discriminate].
  injection H as <-. auto.
Qed.

(** X17: with any hashing strategy of the header and [Mod] or [FastRange],
    no operation reads or writes outside the bucket array.  On a table
    whose array has [_table_size] buckets, every probe of [get_bucket] is
    an index of the array, and [get_bucket] and the insertion and the query
    at a cell return.  So do the insertion and the query over a box whose
    second corner is in a column and a row below [INT_MAX] (where the loop
    increments do not overflow), and [insert_at_segment] between cells with
    [2 * |x1 - x0|] and [3 * |y1 - y0|] at most [INT_MAX]: none of its
    [int] operations overflows and it returns once its loop is given one
    iteration per cell of its path. *)
Theorem operations_stay_in_table sh :
  HF ∈ [Murmur; xxHash; Custom; Knuth] → RF ∈ [Mod; FastRange] → wf sh →
  (∀ x y salt, ∃ probes i sh',
     get_bucket_probes REHASH_ROUNDS sh x y salt = Done (probes, i, sh') ∧
     Forall (λ p, (p < length (_hash_table sh))%nat) probes ∧ wf sh') ∧
  (∀ x y value salt, ∃ sh',
     insert_at_cell REHASH_ROUNDS sh x y value salt = Done sh' ∧ wf sh') ∧
  (∀ result x y salt, ∃ sh' found,
     query_at_cell REHASH_ROUNDS sh result x y salt
       = Done (sh', found ++ result) ∧ wf sh') ∧
  (∀ (tlx tly brx bry : real) x0 y0 x1 y1,
     cell sh tlx = Done x0 → cell sh tly = Done y0 →
     cell sh brx = Done x1 → cell sh bry = Done y1 →
     (x1 < INT_MAX → y1 < INT_MAX →
      (∀ value salt, ∃ sh',
         insert_at_aabb REHASH_ROUNDS sh tlx tly brx bry value salt = Done sh' ∧
         wf sh') ∧
      (∀ result salt, ∃ sh' found,
         query_at_aabb REHASH_ROUNDS sh result tlx tly brx bry salt
           = Done (sh', found ++ result) ∧ wf sh')) ∧
     (2 * Z.abs (x1 - x0) ≤ INT_MAX → 3 * Z.abs (y1 - y0) ≤ INT_MAX →
      ∀ value salt, ∃ cells sh',
        insert_at_segment_cells_int
          (S (Z.to_nat (Z.abs (x1 - x0) + Z.abs (y1 - y0)))) x0 y0 x1 y1
          = Done (cells, true) ∧
        insert_at_segment REHASH_ROUNDS
          (S (Z.to_nat (Z.abs (x1 - x0) + Z.abs (y1 - y0))))
          sh tlx tly brx bry value salt = Done sh' ∧
        wf sh')).
Proof.
  intros HHF HRF Hwf.
  pose proof (header_strategies_in_range HF RF HHF HRF) as Hrange.
  split; [| split; [| split]].
  - intros x y salt.
    pose proof (probe_in_range sh x y salt Hwf Hrange) as Hin.
    destruct (stopping_probe_exists sh x y salt Hin REHASH_ROUNDS 0)
      as (k & b & Hk & Hpre & Hb & Hstop).
    simpl in Hpre, Hb.
    pose proof (get_bucket_probes_run REHASH_ROUNDS sh x y salt k b
                  Hk Hpre Hb Hstop) as Hrun.
    eexists _, _, _. split; [exact Hrun |]. split.
    + apply List.Forall_forall. intros p Hp.
      apply List.in_map_iff in Hp as (j & <- & _).
      apply lookup_lt_is_Some. apply Hin.
    + destruct (claimed sh b); [exact Hwf | apply wf_claim; exact Hwf].
  - intros x y value salt. apply insert_at_cell_total; assumption.
  - intros result x y salt.
    destruct (query_at_cell_total REHASH_ROUNDS sh result x y salt Hwf Hrange)
      as (idx & sh' & b & _ & _ & Hq & Hwf').
    eauto.
  - intros tlx tly brx bry x0 y0 x1 y1 Hx0 Hy0 Hx1 Hy1. split.
    + intros Hx1m Hy1m. split.
      * intros value salt. eapply insert_at_aabb_total; eassumption.
      * intros result salt. eapply query_at_aabb_total; eassumption.
    + intros HD HE value salt.
      destruct (insert_at_segment_cells_finishes x0 y0 x1 y1)
        as (cells & Hrun & _).
      destruct (for_each_total wf
                  (λ c sh, insert_at_cell REHASH_ROUNDS sh c.1 c.2 value salt)
                  cells) with (s := sh) as (sh' & Hfold & Hwf').
      { intros c s Hs. apply insert_at_cell_total; assumption. }
      { exact Hwf. }
      exists cells, sh'. split; [| split; [| exact Hwf']].
      * rewrite (insert_at_segment_cells_int_agrees _ x0 y0 x1 y1
                   (cell_int _ _ _ Hx0) (cell_int _ _ _ Hy0)
                   (cell_int _ _ _ Hx1) (cell_int _ _ _ Hy1) HD HE eq_refl).
        rewrite Hrun. reflexivity.
      * unfold insert_at_segment. rewrite Hx0, Hy0, Hx1, Hy1.
        cbn [mbind outcome_mbind outcome_bind]. cbv zeta.
        unfold insert_at_segment_cells in Hrun. cbv zeta in Hrun.
        rewrite insert_at_segment_loop_cells. cbv zeta. rewrite Hrun.
        cbn [fst snd]. rewrite Hfold. reflexivity.
Qed.

End Strategies.

Section PastTheTable.

Context {Value : Type}.
Context {HF : HashFunction} {RF : ReduceFunction}.
Variable REHASH_ROUNDS : nat.

Implicit Types (sh : SpatialHash Value) (x y salt : Z).

(** If the probes [i .. i+k-1] hit foreign buckets and the index of probe
    [i+k] is past the end of the bucket array, the loop reads past it. *)
Lemma get_bucket_loop_undefined sh x y salt :
  ∀ (k n i : nat) buf bucket probes,
    (k < n)%nat →
    key_before sh x y salt i buf →
    (∀ j, (j < k)%nat →
       ∃ bj, _hash_table sh !! probe_index sh x y salt (i + j) = Some bj ∧
             foreign sh x y bj = true) →
    _hash_table sh !! probe_index sh x y salt (i + k) = None →
    get_bucket_loop n sh x y buf bucket probes = Undefined.
Proof.
  induction k as [| k IH]; intros n i buf bucket probes Hn Hkey Hpre Hnone;
    (destruct n as [| n]; [lia |]);
    destruct (key_before_step _ _ _ _ _ _ Hkey) as [Hbuf Hnext];
    cbn [get_bucket_loop]; rewrite Hbuf;
    fold (probe_index sh x y salt i).
  - rewrite Nat.add_0_r in Hnone. rewrite Hnone. reflexivity.
  - destruct (Hpre 0%nat ltac:(lia)) as (b0 & Hb0 & Hf0).
    rewrite Nat.add_0_r in Hb0. rewrite Hb0.
    apply foreign_true in Hf0 as [Hc Hs].
    fold (claimed sh b0). fold (same_cell x y b0). rewrite Hc, Hs. simpl.
    apply (IH n (S i)); [lia | rewrite <- Hbuf; exact Hnext | |].
    + intros j Hj. replace (S i + j)%nat with (i + S j)%nat by lia.
      apply Hpre. lia.
    + replace (S i + k)%nat with (i + S k)%nat by lia. exact Hnone.
Qed.

(** X18: a probe past the end of the bucket array is undefined behaviour.
    [get_bucket] does not compare the index with the size of the array:
    when the index of a probe it reaches is not below the number of
    buckets, which [Identity] allows for every table of fewer than 2^32
    buckets, [get_bucket] and with it [insert_at_cell] and [query_at_cell]
    read past the array. *)
Theorem probe_past_the_table sh result x y value salt (k : nat) :
  (k ≤ REHASH_ROUNDS)%nat →
  (∀ j, (j < k)%nat →
     ∃ bj, _hash_table sh !! probe_index sh x y salt j = Some bj ∧
           foreign sh x y bj = true) →
  (length (_hash_table sh) ≤ probe_index sh x y salt k)%nat →
  get_bucket REHASH_ROUNDS sh x y salt = Undefined ∧
  insert_at_cell REHASH_ROUNDS sh x y value salt = Undefined ∧
  query_at_cell REHASH_ROUNDS sh result x y salt = Undefined.
Proof.
  intros Hk Hpre Hlen.
  assert (Hg : get_bucket REHASH_ROUNDS sh x y salt = Undefined).
  { unfold get_bucket, get_bucket_probes.
    rewrite (get_bucket_loop_undefined sh x y salt k (S REHASH_ROUNDS) 0);
      [reflexivity | lia | apply key_before_0 | exact Hpre |].
    apply lookup_ge_None. exact Hlen. }
  unfold insert_at_cell, query_at_cell. rewrite Hg. auto.
Qed.

End PastTheTable.

(** ** The hashes [Custom] and [Knuth] *)

Lemma lxor_cancel_r a b c : Z.lxor a c = Z.lxor b c → a = b.
Proof.
  intros H.
  assert (H' : Z.lxor (Z.lxor a c) c = Z.lxor (Z.lxor b c) c)
    by (rewrite H; reflexivity).
  rewrite !Z.lxor_assoc, !Z.lxor_nilpotent, !Z.lxor_0_r in H'. exact H'.
Qed.

Lemma lxor_cancel_l a b c : Z.lxor c a = Z.lxor c b → a = b.
Proof. rewrite !(Z.lxor_comm c). apply lxor_cancel_r. Qed.

(** Multiplication by an odd constant is invertible modulo 2^32. *)
Lemma odd_multiple_injective (p q a b : Z) :
  wrap32 (q * p) = 1 →
  wrap32 (p * wrap32 a) = wrap32 (p * wrap32 b) → wrap32 a = wrap32 b.
Proof.
  intros Hinv H.
  assert (Hback : ∀ c, wrap32 (q * wrap32 (p * wrap32 c)) = wrap32 c).
  { intros c. unfold wrap32 in *.
    rewrite Zmult_mod_idemp_r, Z.mul_assoc, <- Zmult_mod_idemp_l, Hinv.
    rewrite Z.mul_1_l. apply Z.mod_mod. lia. }
  rewrite <- (Hback a), <- (Hback b), H. reflexivity.
Qed.

(** X19: the hash [Custom] tells apart two keys that differ in one word.
    If two keys agree in three of their four 32-bit words and have the same
    hash, they agree in the fourth; so the probes of one key, which differ
    in the seed only, have pairwise different hashes. *)
Theorem Custom_hash_separates_words :
  (∀ a a' b c d,
     hashing.Custom.hash (mkBuf a b c d) = hashing.Custom.hash (mkBuf a' b c d) →
     wrap32 a = wrap32 a') ∧
  (∀ a b b' c d,
     hashing.Custom.hash (mkBuf a b c d) = hashing.Custom.hash (mkBuf a b' c d) →
     wrap32 b = wrap32 b') ∧
  (∀ a b c c' d,
     hashing.Custom.hash (mkBuf a b c d) = hashing.Custom.hash (mkBuf a b c' d) →
     wrap32 c = wrap32 c') ∧
  (∀ a b c d d',
     hashing.Custom.hash (mkBuf a b c d) = hashing.Custom.hash (mkBuf a b c d') →
     wrap32 d = wrap32 d') ∧
  (∀ (Value : Type) (RF : ReduceFunction) (sh : SpatialHash Value) x y salt
     (i j : nat),
     Z.of_nat i < 2 ^ 32 → Z.of_nat j < 2 ^ 32 → i ≠ j →
     hashing.Custom.hash (probe_key sh x y salt i)
       ≠ hashing.Custom.hash (probe_key sh x y salt j)).
Proof.
  assert (H4 : ∀ a b c d d',
            hashing.Custom.hash (mkBuf a b c d)
              = hashing.Custom.hash (mkBuf a b c d') →
            wrap32 d = wrap32 d').
  { intros a b c d d' H. unfold hashing.Custom.hash in H. simpl in H.
    apply lxor_cancel_l in H.
    apply (odd_multiple_injective 93856897 1954290561); [reflexivity | exact H]. }
  repeat split; [| | | exact H4 |].
  - intros a a' b c d H. unfold hashing.Custom.hash in H. simpl in H.
    do 3 apply lxor_cancel_r in H.
    apply (odd_multiple_injective 15953071 1450142287); [reflexivity | exact H].
  - intros a b b' c d H. unfold hashing.Custom.hash in H. simpl in H.
    do 2 apply lxor_cancel_r in H. apply lxor_cancel_l in H.
    apply (odd_multiple_injective 37953119 396148127); [reflexivity | exact H].
  - intros a b c c' d H. unfold hashing.Custom.hash in H. simpl in H.
    apply lxor_cancel_r in H. apply lxor_cancel_l in H.
    apply (odd_multiple_injective 73856093 727089141); [reflexivity | exact H].
  - intros Value RF sh x y salt i j Hi Hj Hne H. unfold probe_key in H.
    apply H4 in H.
    apply (probe_seed_distinct sh i j Hi Hj Hne).
    rewrite <- (wrap32_small (probe_seed sh i)), <- (wrap32_small (probe_seed sh j));
      [exact H | apply wrap32_range | apply wrap32_range].
Qed.

(** The bits of a 64-bit word made of two 32-bit halves. *)
Lemma halves_bits (lo hi n : Z) :
  0 ≤ lo < 2 ^ 32 → 0 ≤ n →
  Z.testbit (lo + 2 ^ 32 * hi) n =
    if n <? 32 then Z.testbit lo n else Z.testbit hi (n - 32).
Proof.
  intros Hlo Hn.
  assert (Hmod : (lo + 2 ^ 32 * hi) mod 2 ^ 32 = lo).
  { rewrite (Z.mul_comm (2 ^ 32) hi), Z_mod_plus_full.
    apply Z.mod_small. exact Hlo. }
  assert (Hdiv : (lo + 2 ^ 32 * hi) / 2 ^ 32 = hi).
  { rewrite (Z.mul_comm (2 ^ 32) hi), Z.div_add by lia.
    rewrite (Z.div_small lo) by exact Hlo. lia. }
  destruct (n <? 32) eqn:Hlt.
  - apply Z.ltb_lt in Hlt.
    rewrite <- (Z.mod_pow2_bits_low (lo + 2 ^ 32 * hi) 32 n) by lia.
    rewrite Hmod. reflexivity.
  - apply Z.ltb_ge in Hlt.
    replace n with ((n - 32) + 32) at 1 by lia.
    rewrite <- Z.div_pow2_bits by lia. rewrite Hdiv. reflexivity.
Qed.

Lemma halves_lxor (a b c d : Z) :
  0 ≤ a < 2 ^ 32 → 0 ≤ c < 2 ^ 32 →
  Z.lxor (a + 2 ^ 32 * b) (c + 2 ^ 32 * d) = Z.lxor a c + 2 ^ 32 * Z.lxor b d.
Proof.
  intros Ha Hc. apply Z.bits_inj'. intros n Hn.
  rewrite Z.lxor_spec, !halves_bits by (try apply lxor_range; assumption).
  destruct (n <? 32); rewrite Z.lxor_spec; reflexivity.
Qed.

(** X20: the hash [Knuth] is a function of [x xor salt] and [y xor seed].
    It reads the key as two 64-bit words and hashes their exclusive or, so
    keys are not told apart when these two values agree: the cell [(x, y)]
    with salt [s] has, probe for probe, the bucket index of the cell
    [(s, y)] with salt [x], and every cell of a row whose column equals its
    salt has the bucket indices of cell [(0, y)] with salt 0. *)
Theorem Knuth_hash_mixes_words :
  (∀ buf,
     hashing.Knuth.hash buf =
     hashing.Knuth.hash
       (mkBuf (Z.lxor (wrap32 (buf0 buf)) (wrap32 (buf2 buf)))
              (Z.lxor (wrap32 (buf1 buf)) (wrap32 (buf3 buf))) 0 0)) ∧
  (∀ (Value : Type) (RF : ReduceFunction) (sh : SpatialHash Value) x y salt i,
     @probe_index Value Knuth RF sh x y salt i
       = @probe_index Value Knuth RF sh salt y x i) ∧
  (∀ (Value : Type) (RF : ReduceFunction) (sh : SpatialHash Value) x y i,
     @probe_index Value Knuth RF sh x y x i
       = @probe_index Value Knuth RF sh 0 y 0 i).
Proof.
  assert (Hform : ∀ buf,
            hashing.Knuth.hash buf =
            wrap32 (Z.shiftr
              (wrap64 ((Z.lxor (wrap32 (buf0 buf)) (wrap32 (buf2 buf))
                        + 2 ^ 32 * Z.lxor (wrap32 (buf1 buf)) (wrap32 (buf3 buf)))
                       * 2654435761)) 8)).
  { intros buf. unfold hashing.Knuth.hash. cbv zeta.
    rewrite halves_lxor by apply wrap32_range. reflexivity. }
  split; [| split].
  - intros buf. rewrite (Hform buf), (Hform (mkBuf _ _ 0 0)). simpl.
    change (wrap32 0) with 0. rewrite !Z.lxor_0_r.
    rewrite (wrap32_small (Z.lxor (wrap32 (buf0 buf)) (wrap32 (buf2 buf)))),
      (wrap32_small (Z.lxor (wrap32 (buf1 buf)) (wrap32 (buf3 buf))))
      by (apply lxor_range; apply wrap32_range).
    reflexivity.
  - intros Value RF sh x y salt i. unfold probe_index. simpl.
    rewrite (Hform (probe_key sh x y salt i)),
      (Hform (probe_key sh salt y x i)). simpl.
    rewrite (Z.lxor_comm (wrap32 (wrap32 x))). reflexivity.
  - intros Value RF sh x y i. unfold probe_index. simpl.
    rewrite (Hform (probe_key sh x y x i)), (Hform (probe_key sh 0 y 0 i)).
    simpl. rewrite !Z.lxor_nilpotent. reflexivity.
Qed.

(** ** The hash [Murmur] *)

Lemma testbit_high (x n : Z) : 0 ≤ x < 2 ^ 32 → 32 ≤ n → Z.testbit x n = false.
Proof.
  intros Hx Hn. rewrite <- (Z.mod_small x (2 ^ 32)) by exact Hx.
  apply Z.mod_pow2_bits_high. lia.
Qed.

Lemma bits_inj32 (x x' : Z) :
  0 ≤ x < 2 ^ 32 → 0 ≤ x' < 2 ^ 32 →
  (∀ n, 0 ≤ n < 32 → Z.testbit x n = Z.testbit x' n) → x = x'.
Proof.
  intros Hx Hx' H. apply Z.bits_inj'. intros n Hn.
  destruct (Z_lt_le_dec n 32) as [Hlt | Hge]; [apply H; lia |].
  rewrite !testbit_high by assumption. reflexivity.
Qed.

Lemma rotl32_bits (x r n : Z) :
  0 ≤ x < 2 ^ 32 → 0 < r < 32 → 0 ≤ n < 32 →
  Z.testbit (hashing.Murmur.rotl32 x r) n =
    Z.testbit x (if n <? r then n + 32 - r else n - r).
Proof.
  intros Hx Hr Hn. unfold hashing.Murmur.rotl32, wrap32.
  rewrite Z.lor_spec, Z.mod_pow2_bits_low, Z.shiftl_spec, Z.shiftr_spec by lia.
  destruct (n <? r) eqn:Hlt.
  - apply Z.ltb_lt in Hlt. rewrite Z.testbit_neg_r by lia. simpl.
    f_equal. lia.
  - apply Z.ltb_ge in Hlt.
    rewrite (testbit_high x (n + (32 - r))) by (try assumption; lia).
    apply orb_false_r.
Qed.

Lemma rotl32_injective (x x' r : Z) :
  0 ≤ x < 2 ^ 32 → 0 ≤ x' < 2 ^ 32 → 0 < r < 32 →
  hashing.Murmur.rotl32 x r = hashing.Murmur.rotl32 x' r → x = x'.
Proof.
  intros Hx Hx' Hr H. apply bits_inj32; [assumption | assumption |].
  intros n Hn.
  destruct (Z_lt_le_dec n (32 - r)) as [Hlow | Hhigh].
  - pose proof (rotl32_bits x r (n + r) Hx Hr ltac:(lia)) as H1.
    pose proof (rotl32_bits x' r (n + r) Hx' Hr ltac:(lia)) as H2.
    rewrite H in H1. rewrite H1 in H2.
    replace (n + r <? r) with false in H2 by (symmetry; apply Z.ltb_ge; lia).
    replace (n + r - r) with n in H2 by lia. exact H2.
  - pose proof (rotl32_bits x r (n + r - 32) Hx Hr ltac:(lia)) as H1.
    pose proof (rotl32_bits x' r (n + r - 32) Hx' Hr ltac:(lia)) as H2.
    rewrite H in H1. rewrite H1 in H2.
    replace (n + r - 32 <? r) with true in H2 by (symmetry; apply Z.ltb_lt; lia).
    replace (n + r - 32 + 32 - r) with n in H2 by lia. exact H2.
Qed.

Lemma lor_range a b :
  0 ≤ a < 2 ^ 32 → 0 ≤ b < 2 ^ 32 → 0 ≤ Z.lor a b < 2 ^ 32.
Proof.
  intros [Ha Ha'] [Hb Hb'].
  assert (Hn : 0 ≤ Z.lor a b) by (apply Z.lor_nonneg; tauto).
  split; [exact Hn |].
  destruct (Z.eq_dec (Z.lor a b) 0) as [-> | Hne]; [lia |].
  apply Z.log2_lt_pow2; [lia |].
  rewrite Z.log2_lor by lia.
  apply Z.max_lub_lt.
  - destruct (Z.eq_dec a 0) as [-> | ]; [simpl; lia |].
    apply Z.log2_lt_pow2; lia.
  - destruct (Z.eq_dec b 0) as [-> | ]; [simpl; lia |].
    apply Z.log2_lt_pow2; lia.
Qed.

Lemma rotl32_range (x r : Z) :
  0 ≤ x < 2 ^ 32 → 0 < r < 32 → 0 ≤ hashing.Murmur.rotl32 x r < 2 ^ 32.
Proof.
  intros Hx Hr. unfold hashing.Murmur.rotl32.
  apply lor_range; [apply wrap32_range | apply shiftr_range; lia].
Qed.

(** [h ^= h >> s] is invertible on 32-bit words. *)
Lemma xorshift_injective (h h' s : Z) :
  0 ≤ h < 2 ^ 32 → 0 ≤ h' < 2 ^ 32 → 0 < s →
  Z.lxor h (Z.shiftr h s) = Z.lxor h' (Z.shiftr h' s) → h = h'.
Proof.
  intros Hh Hh' Hs H.
  assert (Hbits : ∀ (k : nat) n, 32 - Z.of_nat k ≤ n → 0 ≤ n →
            Z.testbit h n = Z.testbit h' n).
  { induction k as [| k IH]; intros n Hk Hn.
    - rewrite !testbit_high by (try assumption; lia). reflexivity.
    - assert (Hup : Z.testbit h (n + s) = Z.testbit h' (n + s))
        by (apply IH; lia).
      assert (Hx : Z.testbit (Z.lxor h (Z.shiftr h s)) n
                   = Z.testbit (Z.lxor h' (Z.shiftr h' s)) n)
        by (rewrite H; reflexivity).
      rewrite !Z.lxor_spec, !Z.shiftr_spec, Hup in Hx by lia.
      destruct (Z.testbit h n), (Z.testbit h' n), (Z.testbit h' (n + s));
        simpl in Hx; congruence. }
  apply Z.bits_inj'. intros n Hn. apply (Hbits 32%nat); lia.
Qed.

Lemma odd_multiple_injective32 (p q a b : Z) :
  wrap32 (q * p) = 1 → 0 ≤ a < 2 ^ 32 → 0 ≤ b < 2 ^ 32 →
  wrap32 (a * p) = wrap32 (b * p) → a = b.
Proof.
  intros Hinv Ha Hb H.
  rewrite <- (wrap32_small a Ha), <- (wrap32_small b Hb).
  apply (odd_multiple_injective p q); [exact Hinv |].
  rewrite (wrap32_small a Ha), (wrap32_small b Hb), !(Z.mul_comm p). exact H.
Qed.

Lemma fmix_injective (h h' : Z) :
  0 ≤ h < 2 ^ 32 → 0 ≤ h' < 2 ^ 32 →
  hashing.Murmur.fmix h = hashing.Murmur.fmix h' → h = h'.
Proof.
  intros Hh Hh' H. unfold hashing.Murmur.fmix in H. cbv zeta in H.
  assert (Hstep : ∀ z s, 0 ≤ z < 2 ^ 32 → 0 < s →
            0 ≤ Z.lxor z (Z.shiftr z s) < 2 ^ 32)
    by (intros z s Hz Hs0; apply lxor_range; [exact Hz | apply shiftr_range; lia]).
  apply xorshift_injective in H;
    [| apply wrap32_range | apply wrap32_range | lia].
  apply (odd_multiple_injective32 0xc2b2ae35 2127672349) in H;
    [| reflexivity | apply Hstep; [apply wrap32_range | lia]
     | apply Hstep; [apply wrap32_range | lia]].
  apply xorshift_injective in H;
    [| apply wrap32_range | apply wrap32_range | lia].
  apply (odd_multiple_injective32 0x85ebca6b 2781581891) in H;
    [| reflexivity | apply Hstep; [assumption | lia]
     | apply Hstep; [assumption | lia]].
  apply xorshift_injective in H; [exact H | assumption | assumption | lia].
Qed.

Lemma affine_injective (h h' : Z) :
  0 ≤ h < 2 ^ 32 → 0 ≤ h' < 2 ^ 32 →
  wrap32 (h * 5 + 0xe6546b64) = wrap32 (h' * 5 + 0xe6546b64) → h = h'.
Proof.
  intros Hh Hh' H.
  apply (odd_multiple_injective32 5 3435973837); [reflexivity | assumption.. |].
  assert (Hsub : ∀ z, wrap32 (wrap32 (z * 5 + 0xe6546b64) - 0xe6546b64)
                      = wrap32 (z * 5)).
  { intros z. unfold wrap32. rewrite Zminus_mod_idemp_l. f_equal. lia. }
  rewrite <- (Hsub h), <- (Hsub h'), H. reflexivity.
Qed.

Lemma round_range (h1 bi : Z) : 0 ≤ hashing.Murmur.round h1 bi < 2 ^ 32.
Proof. unfold hashing.Murmur.round. cbv zeta. apply wrap32_range. Qed.

Lemma round_injective_state (h h' bi : Z) :
  0 ≤ h < 2 ^ 32 → 0 ≤ h' < 2 ^ 32 →
  hashing.Murmur.round h bi = hashing.Murmur.round h' bi → h = h'.
Proof.
  intros Hh Hh' H. unfold hashing.Murmur.round in H. cbv zeta in H.
  apply affine_injective in H;
    [| apply rotl32_range; [apply lxor_range; [assumption | apply wrap32_range] | lia]
     | apply rotl32_range; [apply lxor_range; [assumption | apply wrap32_range] | lia]].
  apply rotl32_injective in H;
    [| apply lxor_range; [assumption | apply wrap32_range]
     | apply lxor_range; [assumption | apply wrap32_range] | lia].
  apply lxor_cancel_r in H. exact H.
Qed.

Lemma round_injective_word (h bi bi' : Z) :
  0 ≤ h < 2 ^ 32 →
  hashing.Murmur.round h bi = hashing.Murmur.round h bi' →
  wrap32 bi = wrap32 bi'.
Proof.
  intros Hh H. unfold hashing.Murmur.round in H. cbv zeta in H.
  apply affine_injective in H;
    [| apply rotl32_range; [apply lxor_range; [assumption | apply wrap32_range] | lia]
     | apply rotl32_range; [apply lxor_range; [assumption | apply wrap32_range] | lia]].
  apply rotl32_injective in H;
    [| apply lxor_range; [assumption | apply wrap32_range]
     | apply lxor_range; [assumption | apply wrap32_range] | lia].
  apply lxor_cancel_l in H.
  apply (odd_multiple_injective32 0x1b873593 1458385051) in H;
    [| reflexivity | apply rotl32_range; [apply wrap32_range | lia]
     | apply rotl32_range; [apply wrap32_range | lia]].
  apply rotl32_injective in H;
    [| apply wrap32_range | apply wrap32_range | lia].
  apply (odd_multiple_injective32 0xcc9e2d51 3739302833) in H;
    [exact H | reflexivity | apply wrap32_range | apply wrap32_range].
Qed.

Lemma Murmur_hash_rounds a b c d :
  hashing.Murmur.hash (mkBuf a b c d) =
  hashing.Murmur.fmix
    (Z.lxor
       (hashing.Murmur.round
          (hashing.Murmur.round
             (hashing.Murmur.round
                (hashing.Murmur.round hashing.Murmur.SEED a) b) c) d)
       (wrap32 (4 * 4))).
Proof. reflexivity. Qed.

Lemma Murmur_hash_state h h' :
  0 ≤ h < 2 ^ 32 → 0 ≤ h' < 2 ^ 32 →
  hashing.Murmur.fmix (Z.lxor h (wrap32 (4 * 4)))
    = hashing.Murmur.fmix (Z.lxor h' (wrap32 (4 * 4))) →
  h = h'.
Proof.
  intros Hh Hh' H.
  apply fmix_injective in H;
    [| apply lxor_range; [assumption | apply wrap32_range]
     | apply lxor_range; [assumption | apply wrap32_range]].
  apply lxor_cancel_r in H. exact H.
Qed.

Lemma SEED_range : 0 ≤ hashing.Murmur.SEED < 2 ^ 32.
Proof. unfold hashing.Murmur.SEED. lia. Qed.

(** X21: the hash [Murmur] tells apart two keys that differ in one word.
    Every step of the hash is invertible on 32-bit words (the odd
    multiplications, the rotations, [h ^= h >> s] and the exclusive or with
    the running state), so two keys that agree in three of their four
    words and have the same hash agree in the fourth; the probes of one
    key, which differ in the seed only, have pairwise different hashes. *)
Theorem Murmur_hash_separates_words :
  (∀ a a' b c d,
     hashing.Murmur.hash (mkBuf a b c d) = hashing.Murmur.hash (mkBuf a' b c d) →
     wrap32 a = wrap32 a') ∧
  (∀ a b b' c d,
     hashing.Murmur.hash (mkBuf a b c d) = hashing.Murmur.hash (mkBuf a b' c d) →
     wrap32 b = wrap32 b') ∧
  (∀ a b c c' d,
     hashing.Murmur.hash (mkBuf a b c d) = hashing.Murmur.hash (mkBuf a b c' d) →
     wrap32 c = wrap32 c') ∧
  (∀ a b c d d',
     hashing.Murmur.hash (mkBuf a b c d) = hashing.Murmur.hash (mkBuf a b c d') →
     wrap32 d = wrap32 d') ∧
  (∀ (Value : Type) (RF : ReduceFunction) (sh : SpatialHash Value) x y salt
     (i j : nat),
     Z.of_nat i < 2 ^ 32 → Z.of_nat j < 2 ^ 32 → i ≠ j →
     hashing.Murmur.hash (probe_key sh x y salt i)
       ≠ hashing.Murmur.hash (probe_key sh x y salt j)).
Proof.
  assert (H4 : ∀ a b c d d',
            hashing.Murmur.hash (mkBuf a b c d)
              = hashing.Murmur.hash (mkBuf a b c d') →
            wrap32 d = wrap32 d').
  { intros a b c d d' H. rewrite !Murmur_hash_rounds in H.
    apply Murmur_hash_state in H; [| apply round_range | apply round_range].
    apply round_injective_word in H; [exact H | apply round_range]. }
  repeat split; [| | | exact H4 |].
  - intros a a' b c d H. rewrite !Murmur_hash_rounds in H.
    apply Murmur_hash_state in H; [| apply round_range | apply round_range].
    do 3 (apply round_injective_state in H;
          [| apply round_range | apply round_range]).
    apply round_injective_word in H; [exact H | apply SEED_range].
  - intros a b b' c d H. rewrite !Murmur_hash_rounds in H.
    apply Murmur_hash_state in H; [| apply round_range | apply round_range].
    do 2 (apply round_injective_state in H;
          [| apply round_range | apply round_range]).
    apply round_injective_word in H; [exact H | apply round_range].
  - intros a b c c' d H. rewrite !Murmur_hash_rounds in H.
    apply Murmur_hash_state in H; [| apply round_range | apply round_range].
    apply round_injective_state in H; [| apply round_range | apply round_range].
    apply round_injective_word in H; [exact H | apply round_range].
  - intros Value RF sh x y salt i j Hi Hj Hne H. unfold probe_key in H.
    apply H4 in H.
    apply (probe_seed_distinct sh i j Hi Hj Hne).
    rewrite <- (wrap32_small (probe_seed sh i)), <- (wrap32_small (probe_seed sh j));
      [exact H | apply wrap32_range | apply wrap32_range].
Qed.

(** ** The hash [xxHash] *)

Lemma add_injective32 (a a' c : Z) :
  0 ≤ a < 2 ^ 32 → 0 ≤ a' < 2 ^ 32 →
  wrap32 (a + c) = wrap32 (a' + c) → a = a'.
Proof.
  intros Ha Ha' H.
  assert (Hsub : ∀ z, wrap32 (wrap32 (z + c) - c) = wrap32 z).
  { intros z. unfold wrap32. rewrite Zminus_mod_idemp_l. f_equal. lia. }
  rewrite <- (wrap32_small a Ha), <- (wrap32_small a' Ha').
  rewrite <- (Hsub a), <- (Hsub a'), H. reflexivity.
Qed.

Lemma rotate_left_range (value count : Z) :
  0 ≤ value < 2 ^ 32 → 0 < count < 32 →
  0 ≤ hashing.xxHash.rotate_left value count < 2 ^ 32.
Proof. exact (rotl32_range value count). Qed.

Lemma rotate_left_injective (value value' count : Z) :
  0 ≤ value < 2 ^ 32 → 0 ≤ value' < 2 ^ 32 → 0 < count < 32 →
  hashing.xxHash.rotate_left value count
    = hashing.xxHash.rotate_left value' count →
  value = value'.
Proof. exact (rotl32_injective value value' count). Qed.

Lemma sub_hash_range (value read_value : Z) :
  0 ≤ hashing.xxHash.sub_hash value read_value < 2 ^ 32.
Proof. unfold hashing.xxHash.sub_hash. cbv zeta. apply wrap32_range. Qed.

Lemma sub_hash_injective (value r r' : Z) :
  hashing.xxHash.sub_hash value (wrap32 r)
    = hashing.xxHash.sub_hash value (wrap32 r') →
  wrap32 r = wrap32 r'.
Proof.
  intros H. unfold hashing.xxHash.sub_hash in H. cbv zeta in H.
  apply (odd_multiple_injective32 hashing.xxHash.PRIME32_1 244002641) in H;
    [| reflexivity | apply rotate_left_range; [apply wrap32_range | lia]
     | apply rotate_left_range; [apply wrap32_range | lia]].
  apply rotate_left_injective in H;
    [| apply wrap32_range | apply wrap32_range | lia].
  rewrite !(Z.add_comm value) in H.
  apply add_injective32 in H; [| apply wrap32_range | apply wrap32_range].
  apply (odd_multiple_injective32 hashing.xxHash.PRIME32_2 3066638151) in H;
    [exact H | reflexivity | apply wrap32_range | apply wrap32_range].
Qed.

(** The last steps of the hash, from the sum of the four lanes on, are
    invertible. *)
Lemma xxHash_avalanche_injective (s s' : Z) :
  0 ≤ s < 2 ^ 32 → 0 ≤ s' < 2 ^ 32 →
  (let h32 := wrap32 (s + 4 * 4) in
   let h32 := Z.lxor h32 (Z.shiftr h32 15) in
   let h32 := wrap32 (h32 * hashing.xxHash.PRIME32_2) in
   let h32 := Z.lxor h32 (Z.shiftr h32 13) in
   let h32 := wrap32 (h32 * hashing.xxHash.PRIME32_3) in
   Z.lxor h32 (Z.shiftr h32 16)) =
  (let h32 := wrap32 (s' + 4 * 4) in
   let h32 := Z.lxor h32 (Z.shiftr h32 15) in
   let h32 := wrap32 (h32 * hashing.xxHash.PRIME32_2) in
   let h32 := Z.lxor h32 (Z.shiftr h32 13) in
   let h32 := wrap32 (h32 * hashing.xxHash.PRIME32_3) in
   Z.lxor h32 (Z.shiftr h32 16)) →
  s = s'.
Proof.
  intros Hs Hs' H. cbv zeta in H.
  assert (Hstep : ∀ z k, 0 ≤ z < 2 ^ 32 → 0 < k →
            0 ≤ Z.lxor z (Z.shiftr z k) < 2 ^ 32)
    by (intros z k Hz Hk; apply lxor_range; [exact Hz | apply shiftr_range; lia]).
  apply xorshift_injective in H;
    [| apply wrap32_range | apply wrap32_range | lia].
  apply (odd_multiple_injective32 hashing.xxHash.PRIME32_3 2828982549) in H;
    [| reflexivity | apply Hstep; [apply wrap32_range | lia]
     | apply Hstep; [apply wrap32_range | lia]].
  apply xorshift_injective in H;
    [| apply wrap32_range | apply wrap32_range | lia].
  apply (odd_multiple_injective32 hashing.xxHash.PRIME32_2 3066638151) in H;
    [| reflexivity | apply Hstep; [apply wrap32_range | lia]
     | apply Hstep; [apply wrap32_range | lia]].
  apply xorshift_injective in H;
    [| apply wrap32_range | apply wrap32_range | lia].
  apply add_injective32 in H; assumption.
Qed.

(** The sum of the four lanes is invertible in each of them. *)
Lemma sum_lane_1 (r1 r1' r2 r3 r4 : Z) :
  0 ≤ r1 < 2 ^ 32 → 0 ≤ r1' < 2 ^ 32 →
  wrap32 (r1 + r2 + r3 + r4) = wrap32 (r1' + r2 + r3 + r4) → r1 = r1'.
Proof.
  intros H1 H1' H. apply (add_injective32 r1 r1' (r2 + r3 + r4)); try assumption.
  rewrite !Z.add_assoc. exact H.
Qed.

Lemma sum_lane_2 (r1 r2 r2' r3 r4 : Z) :
  0 ≤ r2 < 2 ^ 32 → 0 ≤ r2' < 2 ^ 32 →
  wrap32 (r1 + r2 + r3 + r4) = wrap32 (r1 + r2' + r3 + r4) → r2 = r2'.
Proof.
  intros H2 H2' H. apply (add_injective32 r2 r2' (r1 + r3 + r4)); try assumption.
  replace (r2 + (r1 + r3 + r4)) with (r1 + r2 + r3 + r4) by ring.
  replace (r2' + (r1 + r3 + r4)) with (r1 + r2' + r3 + r4) by ring.
  exact H.
Qed.

Lemma sum_lane_3 (r1 r2 r3 r3' r4 : Z) :
  0 ≤ r3 < 2 ^ 32 → 0 ≤ r3' < 2 ^ 32 →
  wrap32 (r1 + r2 + r3 + r4) = wrap32 (r1 + r2 + r3' + r4) → r3 = r3'.
Proof.
  intros H3 H3' H. apply (add_injective32 r3 r3' (r1 + r2 + r4)); try assumption.
  replace (r3 + (r1 + r2 + r4)) with (r1 + r2 + r3 + r4) by ring.
  replace (r3' + (r1 + r2 + r4)) with (r1 + r2 + r3' + r4) by ring.
  exact H.
Qed.

Lemma sum_lane_4 (r1 r2 r3 r4 r4' : Z) :
  0 ≤ r4 < 2 ^ 32 → 0 ≤ r4' < 2 ^ 32 →
  wrap32 (r1 + r2 + r3 + r4) = wrap32 (r1 + r2 + r3 + r4') → r4 = r4'.
Proof.
  intros H4 H4' H. apply (add_injective32 r4 r4' (r1 + r2 + r3)); try assumption.
  rewrite !(Z.add_comm _ (r1 + r2 + r3)). exact H.
Qed.

Lemma lane_range (value read_value r : Z) :
  0 < r < 32 →
  0 ≤ hashing.xxHash.rotate_left (hashing.xxHash.sub_hash value read_value) r
    < 2 ^ 32.
Proof. intros Hr. apply rotate_left_range; [apply sub_hash_range | exact Hr]. Qed.

Lemma lane_injective (value w w' r : Z) :
  0 < r < 32 →
  hashing.xxHash.rotate_left (hashing.xxHash.sub_hash value (wrap32 w)) r
    = hashing.xxHash.rotate_left (hashing.xxHash.sub_hash value (wrap32 w')) r →
  wrap32 w = wrap32 w'.
Proof.
  intros Hr H.
  apply rotate_left_injective in H;
    [| apply sub_hash_range | apply sub_hash_range | exact Hr].
  apply sub_hash_injective in H. exact H.
Qed.

(** The hash as the final mixing of the sum of the four lanes. *)
Lemma xxHash_hash_sum buf :
  hashing.xxHash.hash buf =
  (let h32 :=
     wrap32 (wrap32 (hashing.xxHash.rotate_left (hashing.xxHash.sub_hash
                      (wrap32 (hashing.xxHash.SEED + hashing.xxHash.PRIME32_1
                               + hashing.xxHash.PRIME32_2))
                      (wrap32 (buf0 buf))) 1
                    + hashing.xxHash.rotate_left (hashing.xxHash.sub_hash
                        (wrap32 (hashing.xxHash.SEED + hashing.xxHash.PRIME32_2))
                        (wrap32 (buf1 buf))) 7
                    + hashing.xxHash.rotate_left (hashing.xxHash.sub_hash
                        (wrap32 (hashing.xxHash.SEED + 0))
                        (wrap32 (buf2 buf))) 12
                    + hashing.xxHash.rotate_left (hashing.xxHash.sub_hash
                        (wrap32 (hashing.xxHash.SEED - hashing.xxHash.PRIME32_1))
                        (wrap32 (buf3 buf))) 18) + 4 * 4) in
   let h32 := Z.lxor h32 (Z.shiftr h32 15) in
   let h32 := wrap32 (h32 * hashing.xxHash.PRIME32_2) in
   let h32 := Z.lxor h32 (Z.shiftr h32 13) in
   let h32 := wrap32 (h32 * hashing.xxHash.PRIME32_3) in
   Z.lxor h32 (Z.shiftr h32 16)).
Proof. reflexivity. Qed.

Lemma xxHash_hash_lanes :
  ∀ buf buf',
            hashing.xxHash.hash buf = hashing.xxHash.hash buf' →
            wrap32 (hashing.xxHash.rotate_left (hashing.xxHash.sub_hash
                      (wrap32 (hashing.xxHash.SEED + hashing.xxHash.PRIME32_1
                               + hashing.xxHash.PRIME32_2))
                      (wrap32 (buf0 buf))) 1
                    + hashing.xxHash.rotate_left (hashing.xxHash.sub_hash
                        (wrap32 (hashing.xxHash.SEED + hashing.xxHash.PRIME32_2))
                        (wrap32 (buf1 buf))) 7
                    + hashing.xxHash.rotate_left (hashing.xxHash.sub_hash
                        (wrap32 (hashing.xxHash.SEED + 0))
                        (wrap32 (buf2 buf))) 12
                    + hashing.xxHash.rotate_left (hashing.xxHash.sub_hash
                        (wrap32 (hashing.xxHash.SEED - hashing.xxHash.PRIME32_1))
                        (wrap32 (buf3 buf))) 18)
            = wrap32 (hashing.xxHash.rotate_left (hashing.xxHash.sub_hash
                      (wrap32 (hashing.xxHash.SEED + hashing.xxHash.PRIME32_1
                               + hashing.xxHash.PRIME32_2))
                      (wrap32 (buf0 buf'))) 1
                    + hashing.xxHash.rotate_left (hashing.xxHash.sub_hash
                        (wrap32 (hashing.xxHash.SEED + hashing.xxHash.PRIME32_2))
                        (wrap32 (buf1 buf'))) 7
                    + hashing.xxHash.rotate_left (hashing.xxHash.sub_hash
                        (wrap32 (hashing.xxHash.SEED + 0))
                        (wrap32 (buf2 buf'))) 12
                    + hashing.xxHash.rotate_left (hashing.xxHash.sub_hash
                        (wrap32 (hashing.xxHash.SEED - hashing.xxHash.PRIME32_1))
                        (wrap32 (buf3 buf'))) 18).
Proof.
  intros buf buf' H. rewrite !xxHash_hash_sum in H.
  apply xxHash_avalanche_injective in H;
    [exact H | apply wrap32_range | apply wrap32_range].
Qed.

(** X22: the hash [xxHash] tells apart two keys that differ in one word.
    Each word goes through its own lane ([sub_hash]), the lanes are rotated
    and added, and the sum goes through the final mixing; each of these
    steps is invertible in the one word that changes.  So two keys that
    agree in three of their four words and have the same hash agree in the
    fourth, and the probes of one key have pairwise different hashes. *)
Theorem xxHash_hash_separates_words :
  (∀ a a' b c d,
     hashing.xxHash.hash (mkBuf a b c d) = hashing.xxHash.hash (mkBuf a' b c d) →
     wrap32 a = wrap32 a') ∧
  (∀ a b b' c d,
     hashing.xxHash.hash (mkBuf a b c d) = hashing.xxHash.hash (mkBuf a b' c d) →
     wrap32 b = wrap32 b') ∧
  (∀ a b c c' d,
     hashing.xxHash.hash (mkBuf a b c d) = hashing.xxHash.hash (mkBuf a b c' d) →
     wrap32 c = wrap32 c') ∧
  (∀ a b c d d',
     hashing.xxHash.hash (mkBuf a b c d) = hashing.xxHash.hash (mkBuf a b c d') →
     wrap32 d = wrap32 d') ∧
  (∀ (Value : Type) (RF : ReduceFunction) (sh : SpatialHash Value) x y salt
     (i j : nat),
     Z.of_nat i < 2 ^ 32 → Z.of_nat j < 2 ^ 32 → i ≠ j →
     hashing.xxHash.hash (probe_key sh x y salt i)
       ≠ hashing.xxHash.hash (probe_key sh x y salt j)).
Proof.
  pose proof xxHash_hash_lanes as Hsum.
  assert (H4 : ∀ a b c d d',
            hashing.xxHash.hash (mkBuf a b c d)
              = hashing.xxHash.hash (mkBuf a b c d') →
            wrap32 d = wrap32 d').
  { intros a b c d d' H. apply Hsum in H. cbn [buf0 buf1 buf2 buf3] in H.
    apply sum_lane_4 in H; [| apply lane_range; lia | apply lane_range; lia].
    apply lane_injective in H; [exact H | lia]. }
  repeat split; [| | | exact H4 |].
  - intros a a' b c d H. apply Hsum in H. cbn [buf0 buf1 buf2 buf3] in H.
    apply sum_lane_1 in H; [| apply lane_range; lia | apply lane_range; lia].
    apply lane_injective in H; [exact H | lia].
  - intros a b b' c d H. apply Hsum in H. cbn [buf0 buf1 buf2 buf3] in H.
    apply sum_lane_2 in H; [| apply lane_range; lia | apply lane_range; lia].
    apply lane_injective in H; [exact H | lia].
  - intros a b c c' d H. apply Hsum in H. cbn [buf0 buf1 buf2 buf3] in H.
    apply sum_lane_3 in H; [| apply lane_range; lia | apply lane_range; lia].
    apply lane_injective in H; [exact H | lia].
  - intros Value RF sh x y salt i j Hi Hj Hne H. unfold probe_key in H.
    apply H4 in H.
    apply (probe_seed_distinct sh i j Hi Hj Hne).
    rewrite <- (wrap32_small (probe_seed sh i)), <- (wrap32_small (probe_seed sh j));
      [exact H | apply wrap32_range | apply wrap32_range].
Qed.

(** ** The generation counter at its last value *)

Section CounterWrap.

Context {Value : Type}.
Context {HF : HashFunction} {RF : ReduceFunction}.
Variable REHASH_ROUNDS : nat.

Implicit Types (sh : SpatialHash Value) (x y salt : Z).

(** X23: the generation counter wraps around.  A [reset] in generation
    [2^32 - 1] starts generation 0 again, and when the table keeps its
    size the buckets claimed in the first generation 0 count as claimed
    in the new one: a query whose first probe lands on such a bucket of
    its cell returns the values of [2^32] generations ago. *)
Theorem generation_counter_wraps sh (cell_size : real) result x y salt b :
  _current_round sh = 2 ^ 32 - 1 →
  let sh' := reset sh cell_size (_table_size sh) in
  _hash_table sh !! probe_index sh' x y salt 0 = Some b →
  HashBucket.last_claimed b = 0 →
  same_cell x y b = true →
  _current_round sh' = 0 ∧
  query_at_cell REHASH_ROUNDS sh' result x y salt
    = Done (sh', HashBucket.data b ++ result).
Proof.
  intros Hround sh' Hb Hstamp Hcell.
  assert (Hr' : _current_round sh' = 0).
  { unfold sh'. rewrite reset_round, Hround. reflexivity. }
  assert (Ht' : _hash_table sh' = _hash_table sh).
  { unfold sh'. rewrite reset_table, Z.eqb_refl. reflexivity. }
  split; [exact Hr' |].
  assert (Hc : claimed sh' b = true).
  { unfold claimed. rewrite Hr', Hstamp. reflexivity. }
  rewrite <- Ht' in Hb.
  pose proof (get_bucket_probes_run REHASH_ROUNDS sh' x y salt 0 b
                ltac:(lia) ltac:(intros j Hj; lia) Hb) as Hrun.
  rewrite Hc in Hrun.
  apply (query_at_cell_run REHASH_ROUNDS sh' result x y salt
           (probe_index sh' x y salt 0) sh' b); [| exact Hb].
  unfold get_bucket. rewrite Hrun; [reflexivity |].
  left. unfold foreign. rewrite Hcell, andb_false_r. reflexivity.
Qed.

End CounterWrap.

(** ** The speed benchmark *)

Section BenchmarkData.

Context {HF : HashFunction} {RF : ReduceFunction}.

Lemma int_add_in_range (a b : Z) :
  INT_MIN ≤ a + b ≤ INT_MAX → int_add a b = Done (a + b).
Proof.
  intros H. unfold int_add. cbv zeta.
  destruct (Z.leb_spec INT_MIN (a + b)); [| lia].
  destruct (Z.leb_spec (a + b) INT_MAX); [reflexivity | lia].
Qed.

Lemma wrap32_add_sub (a k : Z) : wrap32 (wrap32 (a + k) - k) = wrap32 a.
Proof. unfold wrap32. rewrite Zminus_mod_idemp_l. f_equal. lia. Qed.

Lemma speed_round_run (buckets result x y salt pepper : Z) :
  INT_MIN ≤ x + 1 ≤ INT_MAX → INT_MIN ≤ y + 1 ≤ INT_MAX →
  speed_round buckets (result, Element.mk x y salt pepper) =
    Done (wrap32 (result
                  + reduce (hash (element_buf (Element.mk x y salt pepper)))
                      buckets),
          Element.mk (x + 1) (y + 1) (wrap32 (salt + 1)) (wrap32 (pepper + 1))).
Proof.
  intros Hx Hy. unfold speed_round.
  cbn [Element.x Element.y Element.salt Element.pepper].
  rewrite !int_add_in_range by assumption. reflexivity.
Qed.

(** [k] iterations of the inner loop move the four members up by [k]. *)
Lemma speed_rounds_run (buckets : Z) :
  ∀ (k i : nat) result x y salt pepper,
    INT_MIN ≤ x → x + Z.of_nat k ≤ INT_MAX →
    INT_MIN ≤ y → y + Z.of_nat k ≤ INT_MAX →
    0 ≤ salt < 2 ^ 32 → 0 ≤ pepper < 2 ^ 32 →
    ∃ result',
      0 ≤ result' < 2 ^ 32 ∧
      for_each (λ _ : nat, speed_round buckets) (seq i k)
        (wrap32 result, Element.mk x y salt pepper)
        = Done (result',
                Element.mk (x + Z.of_nat k) (y + Z.of_nat k)
                  (wrap32 (salt + Z.of_nat k))
                  (wrap32 (pepper + Z.of_nat k))).
Proof.
  induction k as [| k IH]; intros i result x y salt pepper Hx Hx' Hy Hy' Hs Hp.
  - exists (wrap32 result). split; [apply wrap32_range |].
    simpl. rewrite !Z.add_0_r, (wrap32_small salt Hs), (wrap32_small pepper Hp).
    reflexivity.
  - destruct (IH (S i)
                (wrap32 result
                 + reduce (hash (element_buf (Element.mk x y salt pepper))) buckets)
                (x + 1) (y + 1) (wrap32 (salt + 1)) (wrap32 (pepper + 1)))
      as (result' & Hres & Hrun);
      [lia | lia | lia | lia | apply wrap32_range | apply wrap32_range |].
    exists result'. split; [exact Hres |].
    cbn [seq for_each]. rewrite speed_round_run by lia.
    cbn [mbind outcome_mbind outcome_bind]. rewrite Hrun.
    f_equal. f_equal. f_equal; [lia | lia | |].
    + unfold wrap32. rewrite Zplus_mod_idemp_l. f_equal. lia.
    + unfold wrap32. rewrite Zplus_mod_idemp_l. f_equal. lia.
Qed.

Lemma speed_element_run (buckets hash_rounds result : Z) (e : Element.t) :
  0 ≤ hash_rounds →
  INT_MIN ≤ Element.x e ≤ INT_MAX - hash_rounds →
  INT_MIN ≤ Element.y e ≤ INT_MAX - hash_rounds →
  0 ≤ Element.salt e < 2 ^ 32 → 0 ≤ Element.pepper e < 2 ^ 32 →
  ∃ result',
    0 ≤ result' < 2 ^ 32 ∧
    speed_element buckets hash_rounds (wrap32 result, e) = Done (result', e).
Proof.
  intros Hh Hx Hy Hs Hp. destruct e as [x y salt pepper].
  cbn [Element.x Element.y Element.salt Element.pepper] in *.
  destruct (speed_rounds_run buckets (Z.to_nat hash_rounds) 0 result
              x y salt pepper) as (result' & Hres & Hrun);
    [lia | lia | lia | lia | assumption | assumption |].
  exists result'. split; [exact Hres |].
  unfold speed_element. rewrite Hrun.
  cbn [mbind outcome_mbind outcome_bind]. cbv beta iota zeta.
  cbn [Element.x Element.y Element.salt Element.pepper].
  rewrite Z2Nat.id by exact Hh.
  rewrite !int_add_in_range by lia.
  cbn [mbind outcome_mbind outcome_bind].
  rewrite !wrap32_add_sub, (wrap32_small salt Hs), (wrap32_small pepper Hp).
  f_equal. f_equal. f_equal; lia.
Qed.

Lemma speed_elements_run (ELEMENTS : list Element.t) :
  Forall element_ok ELEMENTS →
  ∀ result, ∃ result',
    0 ≤ result' < 2 ^ 32 ∧
    speed_elements 4096 HASH_ROUNDS (wrap32 result) ELEMENTS
      = Done (result', ELEMENTS).
Proof.
  intros Hall.
  induction Hall as [| e rest (Hx & Hy & Hs & Hp) Hall IH]; intros result.
  - exists (wrap32 result). split; [apply wrap32_range | reflexivity].
  - destruct (speed_element_run 4096 HASH_ROUNDS result e)
      as (r1 & Hr1 & Hrun1); [unfold HASH_ROUNDS; lia | assumption.. |].
    destruct (IH r1) as (r2 & Hr2 & Hrun2).
    exists r2. split; [exact Hr2 |].
    cbn [speed_elements]. rewrite Hrun1.
    cbn [mbind outcome_mbind outcome_bind].
    rewrite (wrap32_small r1 Hr1) in Hrun2. rewrite Hrun2. reflexivity.
Qed.

(** X24: [realistic_speed_benchmark] leaves [ELEMENTS] as it found it.
    For elements whose coordinates stay in the range of [int32_t] during
    the rounds, as those of [init_test_data] do, the function returns, and
    after the rounds of an element its four members have the values they
    had before: every strategy is measured on the same keys. *)
Theorem realistic_speed_benchmark_restores (ELEMENTS : list Element.t) :
  Forall element_ok ELEMENTS →
  ∃ result,
    0 ≤ result < 2 ^ 32 ∧
    realistic_speed_benchmark ELEMENTS = Done (result, ELEMENTS).
Proof.
  intros Hall. unfold realistic_speed_benchmark. cbv zeta.
  exact (speed_elements_run ELEMENTS Hall 0).
Qed.

End BenchmarkData.

(** ** Examples

    The theorems above at the tables of the examples. *)

Section MoreInstances.

#[local] Existing Instance Murmur.
#[local] Existing Instance FastRange.

Lemma wf_table_8 : wf (make (Value := Id) 1 8).
Proof. apply wf_make. lia. Qed.

Lemma populated_table_evolved :
  evolves (claim (make (Value := Id) 1 8) 0 3 4) populated_table.
Proof.
  replace populated_table
    with (push_back (claim (make (Value := Id) 1 8) 0 3 4) 0
            (HashBucket.mk 3 4 0 []) 7)
    by (vm_compute; reflexivity).
  apply push_back_evolves. reflexivity.
Qed.

Lemma wf_boxed_table : wf boxed_table.
Proof. split; [vm_compute; split; reflexivity | vm_compute; reflexivity]. Qed.

Lemma cell_3_4_not_exhausted : ¬ exhausted 10 (make (Value := Id) 1 8) 3 4 0.
Proof.
  intros Hex. destruct (Hex 0%nat ltac:(lia)) as (b & Hb & Hf).
  vm_compute in Hb. injection Hb as <-. vm_compute in Hf. discriminate.
Qed.

Lemma cell_5_6_not_exhausted :
  ¬ exhausted 10 (claim (make (Value := Id) 1 8) 0 3 4) 5 6 0.
Proof.
  intros Hex. destruct (Hex 1%nat ltac:(lia)) as (b & Hb & Hf).
  vm_compute in Hb. injection Hb as <-. vm_compute in Hf. discriminate.
Qed.

Lemma test_objects_convertible : convertible 1 test_objects.
Proof.
  repeat constructor; eexists _, _; split; vm_compute; reflexivity.
Qed.

Lemma benchmark_elements_ok : Forall element_ok benchmark_elements.
Proof.
  repeat constructor; unfold INT_MIN, INT_MAX, HASH_ROUNDS; simpl; lia.
Qed.

Lemma first_probe_past_table_8 :
  (length (_hash_table (make (Value := Id) 1 8))
   ≤ @probe_index Id Murmur Identity (make 1 8) 3 4 0 0)%nat.
Proof.
  unfold make. cbn [_hash_table]. rewrite length_resize.
  unfold probe_index. apply Z2Nat.inj_le; [lia | |];
    vm_compute; discriminate.
Qed.

(** C5 (as amended): the cell (3,4) of [populated_table] holds 7 and the
    four cells of [boxed_table] hold 7 each; the output sequence holds [9]
    before the calls. *)
Lemma query_prepends_populated :
  (∃ idx sh' b,
     get_bucket 10 populated_table 3 4 0 = Done (idx, sh') ∧
     _hash_table sh' !! idx = Some b ∧
     HashBucket.data b = [7] ∧
     query_at_cell 10 populated_table [9] 3 4 0
       = Done (sh', HashBucket.data b ++ [9])) ∧
  (∃ sh' (matched : list (list Id)),
     query_at_aabb 10 boxed_table [9] 0 0 1 1 0
       = Done (sh', concat (reverse matched) ++ [9]) ∧
     Forall2 (λ (c : Z * Z) values,
                query_at_cell 10 sh' [] c.1 c.2 0 = Done (sh', values))
       (aabb_cells 0 0 1 1) matched).
Proof.
  split.
  - destruct (query_prepends 10 populated_table 0
                wf_populated_table Murmur_FastRange_in_range)
      as (Hcell & _).
    destruct (Hcell [9] 3 4) as (idx & sh' & b & Hg & Hb & Hq).
    exists idx, sh', b. repeat split; try assumption.
    vm_compute in Hg. injection Hg as <- <-.
    vm_compute in Hb. injection Hb as <-. reflexivity.
  - destruct (query_prepends 10 boxed_table 0
                wf_boxed_table Murmur_FastRange_in_range)
      as (_ & _ & Hbox & _).
    apply (Hbox [9] 0%float 0%float 1%float 1%float 0 0 1 1);
      first [vm_compute; reflexivity | unfold INT_MAX; lia].
Defined.

(** X2 on the table of eight buckets: the cell that claimed bucket 0 is
    resolved to bucket 0 again after a value was pushed. *)
Lemma get_bucket_repeatable_populated :
  get_bucket 10 populated_table 3 4 0 = Done (0%nat, populated_table).
Proof.
  apply (get_bucket_repeatable 10 (make 1 8) 3 4 0 0%nat
           (claim (make 1 8) 0 3 4) populated_table).
  - exact wf_table_8.
  - exact Murmur_FastRange_in_range.
  - vm_compute. reflexivity.
  - exact populated_table_evolved.
Defined.

(** X3: the value 7 of [populated_table] is found. *)
Lemma inserted_value_stays_populated :
  ∃ found,
    query_at_cell 10 populated_table [9] 3 4 0
      = Done (populated_table, found ++ [9]) ∧
    7 ∈ found.
Proof.
  apply (inserted_value_stays 10 (make 1 8) [9] 3 4 7 0
           populated_table populated_table).
  - exact wf_table_8.
  - exact Murmur_FastRange_in_range.
  - vm_compute. reflexivity.
  - apply evolves_refl.
Defined.

(** X4: 8 and 9 inserted where [populated_table] holds 7. *)
Lemma inserts_keep_order_populated :
  ∃ sh1 sh2 old,
    insert_at_cell 10 populated_table 3 4 8 0 = Done sh1 ∧
    insert_at_cell 10 sh1 3 4 9 0 = Done sh2 ∧
    query_at_cell 10 sh2 [1] 3 4 0 = Done (sh2, old ++ [8; 9] ++ [1]).
Proof.
  apply (inserts_keep_order 10 populated_table [1] 3 4 8 9 0).
  - exact wf_populated_table.
  - exact Murmur_FastRange_in_range.
Defined.

(** X5: the first probe of cell (5,6) lands on bucket 0, which cell (3,4)
    has claimed; its second probe gives it bucket 7. *)
Lemma cells_do_not_share_table_8 :
  get_bucket 10 (make (Value := Id) 1 8) 3 4 0
    = Done (0%nat, claim (make 1 8) 0 3 4) ∧
  get_bucket 10 (claim (make (Value := Id) 1 8) 0 3 4) 5 6 0
    = Done (7%nat, claim (claim (make 1 8) 0 3 4) 7 5 6) ∧
  0%nat ≠ 7%nat.
Proof.
  split; [vm_compute; reflexivity |]. split; [vm_compute; reflexivity |].
  apply (cells_do_not_share 10 (make (Value := Id) 1 8) 3 4 0 5 6 0 0%nat 7%nat
           (claim (make 1 8) 0 3 4) (claim (make 1 8) 0 3 4)
           (claim (claim (make 1 8) 0 3 4) 7 5 6)).
  - exact wf_table_8.
  - exact Murmur_FastRange_in_range.
  - intros [=].
  - exact cell_3_4_not_exhausted.
  - vm_compute. reflexivity.
  - apply evolves_refl.
  - exact cell_5_6_not_exhausted.
  - vm_compute. reflexivity.
Defined.

(** X7 on the table whose two buckets are claimed by the cells (5,5) and
    (6,6). *)
Lemma exhausted_cell_aliases_full_table :
  ∃ b, _hash_table full_table !! probe_index full_table 0 0 0 10 = Some b ∧
       same_cell 0 0 b = false ∧
       insert_at_cell 10 full_table 0 0 9 0
         = Done (push_back full_table (probe_index full_table 0 0 0 10) b 9) ∧
       query_at_cell 10 full_table [1] 0 0 0
         = Done (full_table, HashBucket.data b ++ [1]).
Proof.
  apply (exhausted_cell_aliases 10 full_table [1] 0 0 9 0).
  exact exhausted_full_table.
Defined.

(** X8: after [reset] the bucket of cell (3,4) holds 8, not the 7 of the
    generation before. *)
Lemma queries_return_this_generation_only_repopulated :
  ∃ found, [8] = found ++ [] ∧
    ∀ v, v ∈ found → v ∈ map (λ '(_, _, value, _), value) [(3, 4, 8, 0)].
Proof.
  apply (queries_return_this_generation_only 10 populated_table 1 8
           [(3, 4, 8, 0)] repopulated_table [] 3 4 0 repopulated_table [8]).
  - exact generations_ok_populated_table.
  - vm_compute. reflexivity.
  - vm_compute. reflexivity.
  - vm_compute. reflexivity.
Defined.

(** X9 on a new table of eight buckets. *)
Lemma fresh_table_is_empty_table_8 :
  ∃ i : nat,
    get_bucket_probes 10 (make 1 8) 3 4 0
      = Done ([i], i, claim (make (Value := Id) 1 8) i 3 4) ∧
    query_at_cell 10 (make 1 8) [9] 3 4 0
      = Done (claim (make 1 8) i 3 4, [9]).
Proof.
  apply (fresh_table_is_empty 10 1 8 [9] 3 4 0).
  - lia.
  - exact Murmur_FastRange_in_range.
Defined.

(** X10: the box of the cells (0,0) to (1,1); cell (1,0) is queried. *)
Lemma insert_at_aabb_covers_boxed_table :
  ∃ found,
    query_at_cell 10 boxed_table [9] 1 0 0 = Done (boxed_table, found ++ [9]) ∧
    7 ∈ found.
Proof.
  apply (insert_at_aabb_covers 10 (make 1 8) [9] 0 0 1 1 0 0 1 1 7 0
           boxed_table boxed_table 1 0).
  - exact wf_table_8.
  - exact Murmur_FastRange_in_range.
  - vm_compute. reflexivity.
  - vm_compute. reflexivity.
  - vm_compute. reflexivity.
  - vm_compute. reflexivity.
  - vm_compute. reflexivity.
  - apply evolves_refl.
  - lia.
  - lia.
Defined.

(** X11: the corners (1.0, 2.0) and (2.0, 1.0), in this order: the second
    one is in the row above. *)
Lemma aabb_of_swapped_corners_populated :
  insert_at_aabb 10 populated_table 1 2 2 1 9 0 = Done populated_table ∧
  query_at_aabb 10 populated_table [1] 1 2 2 1 0 = Done (populated_table, [1]).
Proof.
  apply (aabb_of_swapped_corners 10 populated_table [1] 1 2 2 1 1 2 2 1 9 0).
  - vm_compute. reflexivity.
  - vm_compute. reflexivity.
  - vm_compute. reflexivity.
  - vm_compute. reflexivity.
  - right. unfold INT_MAX. lia.
Defined.

(** X12: the points (3.0, 4.0) and (3.5, 4.5) of the cell (3,4). *)
Lemma shapes_within_one_cell_populated :
  insert_at_point 10 populated_table 3 4 9 0
    = insert_at_cell 10 populated_table 3 4 9 0 ∧
  insert_at_segment 10 1 populated_table 3 4 3.5 4.5 9 0
    = insert_at_cell 10 populated_table 3 4 9 0 ∧
  query_at_point 10 populated_table [1] 3 4 0
    = query_at_cell 10 populated_table [1] 3 4 0 ∧
  query_at_segment 10 1 populated_table [1] 3 4 3.5 4.5 0
    = query_at_cell 10 populated_table [1] 3 4 0 ∧
  insert_at_aabb 10 populated_table 3 4 3.5 4.5 9 0
    = insert_at_cell 10 populated_table 3 4 9 0 ∧
  query_at_aabb 10 populated_table [1] 3 4 3.5 4.5 0
    = query_at_cell 10 populated_table [1] 3 4 0.
Proof.
  destruct (shapes_within_one_cell 10 populated_table [1] 3 4 3.5 4.5 3 4 9 0 0)
    as (Hp & Hs & Hqp & Hqs & Hbox & _).
  - vm_compute. reflexivity.
  - vm_compute. reflexivity.
  - vm_compute. reflexivity.
  - vm_compute. reflexivity.
  - destruct Hbox as [Hi Hq]; [unfold INT_MAX; lia | unfold INT_MAX; lia |].
    auto 6.
Defined.

(** X13: the path from cell (0,0) to cell (2,1). *)
Lemma insert_at_segment_path_short :
  let steps := Z.to_nat (Z.abs (2 - 0) + Z.abs (1 - 0)) in
  ∃ cells,
    insert_at_segment_cells_int (S steps) 0 0 2 1 = Done (cells, true) ∧
    insert_at_segment_cells (S steps) 0 0 2 1 = (cells, true) ∧
    length cells = S steps ∧
    list.head cells = Some (0, 0) ∧
    list.last cells = Some (2, 1) ∧
    NoDup cells ∧
    connected cells ∧
    Forall (in_box 0 0 2 1) cells.
Proof.
  apply (insert_at_segment_path 0 0 2 1); unfold INT_MIN, INT_MAX; lia.
Defined.

(** X14: the segment from (0.0, 0.0) to (2.0, 1.0). *)
Lemma insert_at_segment_covers_segment_table :
  let path := (insert_at_segment_cells 10 0 0 2 1).1 in
  (0, 0) ∈ path ∧ (2, 1) ∈ path ∧
  ∀ c, c ∈ path →
    ∃ found,
      query_at_cell 10 segment_table [9] c.1 c.2 0
        = Done (segment_table, found ++ [9]) ∧
      7 ∈ found.
Proof.
  apply (insert_at_segment_covers 10 10 (make 1 8) [9] 0 0 2 1 0 0 2 1 7 0
           segment_table segment_table).
  - exact wf_table_8.
  - exact Murmur_FastRange_in_range.
  - vm_compute. reflexivity.
  - vm_compute. reflexivity.
  - vm_compute. reflexivity.
  - vm_compute. reflexivity.
  - vm_compute. reflexivity.
  - apply evolves_refl.
Defined.

(** X15 on two objects and four bucket counts. *)
Lemma test_insert_query_point_passes_objects :
  test_insert_query_point 1 test_objects [20; 6; 2; 1] = Done 1.
Proof.
  apply (test_insert_query_point_passes 1 test_objects [20; 6; 2; 1]).
  - exact test_objects_convertible.
  - repeat constructor.
Defined.

(** X16 on the same data. *)
Lemma test_get_cell_passes_objects :
  test_get_cell 1 test_objects [20; 6; 2; 1] = Done 1.
Proof.
  apply (test_get_cell_passes 1 test_objects [20; 6; 2; 1]).
  - exact test_objects_convertible.
  - repeat constructor.
Defined.

(** X17 for [Murmur] and [FastRange] on the test table: the probes of cell
    (0,0), the box and the segment of the tests. *)
Lemma operations_stay_in_table_spatial_hash :
  (∃ probes i sh',
     get_bucket_probes 10 spatial_hash 0 0 0 = Done (probes, i, sh') ∧
     Forall (λ p, (p < length (_hash_table spatial_hash))%nat) probes ∧
     wf sh') ∧
  (∃ sh', insert_at_aabb 10 spatial_hash 0 0 20 20 1 1 = Done sh' ∧ wf sh') ∧
  (∃ sh' found,
     query_at_aabb 10 spatial_hash [9] 0 0 20 20 1 = Done (sh', found ++ [9]) ∧
     wf sh') ∧
  (∃ cells sh',
     insert_at_segment_cells_int
       (S (Z.to_nat (Z.abs (20 - 0) + Z.abs (20 - 0)))) 0 0 20 20
       = Done (cells, true) ∧
     insert_at_segment 10 (S (Z.to_nat (Z.abs (20 - 0) + Z.abs (20 - 0))))
       spatial_hash 0 0 20 20 1 1 = Done sh' ∧
     wf sh').
Proof.
  destruct (operations_stay_in_table Murmur FastRange 10 spatial_hash)
    as (Hprobes & _ & _ & Hshapes).
  - left.
  - right. left.
  - exact wf_spatial_hash.
  - destruct (Hshapes 0%float 0%float 20%float 20%float 0 0 20 20)
      as [Hbox Hsegment].
    + vm_compute. reflexivity.
    + vm_compute. reflexivity.
    + vm_compute. reflexivity.
    + vm_compute. reflexivity.
    + destruct Hbox as [Hi Hq]; [unfold INT_MAX; lia | unfold INT_MAX; lia |].
      split; [apply Hprobes |]. split; [apply Hi |]. split; [apply Hq |].
      apply Hsegment; unfold INT_MAX; lia.
Defined.

(** X18 for [Murmur] and [Identity] on eight buckets: the hash of the
    first key is not below 8. *)
Lemma probe_past_the_table_Identity :
  @get_bucket Id Murmur Identity 10 (make 1 8) 3 4 0 = Undefined ∧
  @insert_at_cell Id Murmur Identity 10 (make 1 8) 3 4 7 0 = Undefined ∧
  @query_at_cell Id Murmur Identity 10 (make 1 8) [] 3 4 0 = Undefined.
Proof.
  apply (@probe_past_the_table Id Murmur Identity 10 (make 1 8) [] 3 4 7 0 0).
  - lia.
  - intros j Hj. lia.
  - exact first_probe_past_table_8.
Defined.

(** X23 on a table of one bucket. *)
Lemma generation_counter_wraps_last_generation_table :
  _current_round (reset last_generation_table 1 1) = 0 ∧
  query_at_cell 10 (reset last_generation_table 1 1) [] 3 4 0
    = Done (reset last_generation_table 1 1, [7] ++ []).
Proof.
  apply (generation_counter_wraps 10 last_generation_table 1 [] 3 4 0
           (HashBucket.mk 3 4 0 [7])).
  - reflexivity.
  - vm_compute. reflexivity.
  - reflexivity.
  - reflexivity.
Defined.

(** X24 on two elements. *)
Lemma realistic_speed_benchmark_restores_elements :
  ∃ result,
    0 ≤ result < 2 ^ 32 ∧
    realistic_speed_benchmark benchmark_elements
      = Done (result, benchmark_elements).
Proof.
  apply (realistic_speed_benchmark_restores benchmark_elements).
  exact benchmark_elements_ok.
Defined.

End MoreInstances.
